(** * The shared packages layer of fissile: image name, layer matching and
      docker build context

    A shallow embedding of the [builder] package's packages image builder:
    the [PackagesImageBuilder], its [tarWalker], [determinePackagesLayerBaseImage],
    [NewDockerPopulator] and [GetPackagesLayerImageName], together with the
    parts of the Go runtime and standard library they run on (strings, maps
    with unspecified iteration order, [sort.Sort], [crypto/sha1],
    [encoding/hex], [archive/tar], [path/filepath]). *)

From Stdlib Require Import ZArith List String Ascii Lia Permutation Sorted.
From Stdlib Require OrderedTypeEx.
From stdpp Require Import base option list gmap strings.

Local Open Scope string_scope.
Local Open Scope Z_scope.

Set Warnings "-register-all".

(** ** Go strings

    A Go [string] is a sequence of bytes: Rocq's [string] of 8-bit [ascii]. *)

Module GoString.

Fixpoint bytes (s : string) : list Z :=
  match s with
  | EmptyString => []
  | String c s' => Z.of_N (N_of_ascii c) :: bytes s'
  end.

(** [len(s)] *)
Definition len (s : string) : Z := Z.of_nat (String.length s).

(** [strings.Replace(s, old, new, -1)] for one-byte [old] and [new]. *)
Fixpoint replace_byte (old new : ascii) (s : string) : string :=
  match s with
  | EmptyString => EmptyString
  | String c s' =>
      String (if Ascii.eqb c old then new else c) (replace_byte old new s')
  end.

(** [strings.Split(s, sep)] for a one-byte separator: the pieces between
    the separators, one more piece than there are separators. *)
Fixpoint split (sep : ascii) (s : string) : list string :=
  match s with
  | EmptyString => [EmptyString]
  | String c s' =>
      if Ascii.eqb c sep then EmptyString :: split sep s'
      else match split sep s' with
           | [] => [String c EmptyString]
           | p :: ps => String c p :: ps
           end
  end.

(** [strings.Join(parts, sep)] *)
Fixpoint join (sep : string) (parts : list string) : string :=
  match parts with
  | [] => EmptyString
  | [p] => p
  | p :: ps => p ++ sep ++ join sep ps
  end.

(** [strings.Contains(s, c)] for one byte. *)
Fixpoint contains (c : ascii) (s : string) : bool :=
  match s with
  | EmptyString => false
  | String d s' => Ascii.eqb d c || contains c s'
  end.

(** The built-in [<] on strings: bytewise lexicographic. *)
Definition less (a b : string) : bool := String.ltb a b.

End GoString.

(** ** [crypto/sha1] and [encoding/hex] *)

Module Sha1.

Definition w32 (x : Z) : Z := x mod 2 ^ 32.

Definition rotl (n x : Z) : Z :=
  w32 (Z.lor (Z.shiftl x n) (Z.shiftr x (32 - n))).

Definition add32 (x y : Z) : Z := w32 (x + y).

Definition not32 (x : Z) : Z := Z.lxor x (2 ^ 32 - 1).

(** Big-endian encoding of [x] in [n] bytes. *)
Fixpoint be_bytes (n : nat) (x : Z) : list Z :=
  match n with
  | O => []
  | S n' => Z.shiftr x (8 * Z.of_nat n') mod 256 :: be_bytes n' x
  end.

Definition be_word (bs : list Z) : Z :=
  fold_left (fun acc b => Z.lor (Z.shiftl acc 8) b) bs 0.

(** The message followed by 0x80, zeros up to 56 mod 64, and the bit length
    on 8 bytes. *)
Definition pad (msg : list Z) : list Z :=
  let n := Z.of_nat (length msg) in
  let zeros := Z.to_nat ((55 - n) mod 64) in
  msg ++ [128] ++ repeat 0 zeros ++ be_bytes 8 (8 * n).

(** Cut a list in chunks of [n] elements; [fuel] bounds the number of
    chunks. *)
Fixpoint chunks {A} (fuel n : nat) (l : list A) : list (list A) :=
  match fuel, l with
  | O, _ | _, [] => []
  | S fuel', _ => firstn n l :: chunks fuel' n (skipn n l)
  end.

Definition chunked {A} (n : nat) (l : list A) : list (list A) :=
  chunks (length l) n l.

(** The message schedule: words 16..79 from the 16 words of the block; the
    schedule is kept most recent first. *)
Fixpoint extend (k : nat) (rev_w : list Z) : list Z :=
  match k with
  | O => rev_w
  | S k' =>
      let at_ i := nth i rev_w 0 in
      let w := rotl 1 (Z.lxor (Z.lxor (at_ 2%nat) (at_ 7%nat))
                              (Z.lxor (at_ 13%nat) (at_ 15%nat))) in
      extend k' (w :: rev_w)
  end.

Definition schedule (block : list Z) : list Z :=
  rev (extend 64 (rev (map be_word (chunked 4 block)))).

Definition f_k (t : nat) (b c d : Z) : Z * Z :=
  if (t <? 20)%nat then
    (Z.lor (Z.land b c) (Z.land (not32 b) d), 0x5A827999)
  else if (t <? 40)%nat then
    (Z.lxor (Z.lxor b c) d, 0x6ED9EBA1)
  else if (t <? 60)%nat then
    (Z.lor (Z.lor (Z.land b c) (Z.land b d)) (Z.land c d), 0x8F1BBCDC)
  else
    (Z.lxor (Z.lxor b c) d, 0xCA62C1D6).

Definition digest_state : Type := Z * Z * Z * Z * Z.

Definition round (st : digest_state * nat) (w : Z) : digest_state * nat :=
  let '((a, b, c, d, e), t) := st in
  let '(f, k) := f_k t b c d in
  let tmp := add32 (add32 (add32 (add32 (rotl 5 a) f) e) k) w in
  ((tmp, a, rotl 30 b, c, d), S t).

Definition block_step (h : digest_state) (block : list Z) : digest_state :=
  let '(h0, h1, h2, h3, h4) := h in
  let '((a, b, c, d, e), _) := fold_left round (schedule block) (h, O) in
  (add32 h0 a, add32 h1 b, add32 h2 c, add32 h3 d, add32 h4 e).

Definition init : digest_state :=
  (0x67452301, 0xEFCDAB89, 0x98BADCFE, 0x10325476, 0xC3D2E1F0).

(** [sha1.Sum]: the 20 bytes of the digest. *)
Definition sum_bytes (msg : list Z) : list Z :=
  let '(h0, h1, h2, h3, h4) :=
    fold_left block_step (chunked 64 (pad msg)) init in
  be_bytes 4 h0 ++ be_bytes 4 h1 ++ be_bytes 4 h2 ++ be_bytes 4 h3
    ++ be_bytes 4 h4.

(** A hasher is the bytes written to it so far: [sha1.New()] then
    [Write]s, and [Sum(nil)] at the end. *)
Definition New : string := EmptyString.
Definition Write (h data : string) : string := h ++ data.
Definition Sum (h : string) : list Z := sum_bytes (GoString.bytes h).

End Sha1.

Module Hex.

Definition digit (n : Z) : ascii :=
  ascii_of_N (Z.to_N (if n <? 10 then 48 + n else 87 + n)).

(** [hex.EncodeToString]: two lower-case digits a byte. *)
Fixpoint EncodeToString (bs : list Z) : string :=
  match bs with
  | [] => EmptyString
  | b :: bs' =>
      String (digit (b / 16)) (String (digit (b mod 16)) (EncodeToString bs'))
  end.

End Hex.

(** ** The [model] package: packages, role jobs and roles *)

(** Modelled from the spec: the [model.Package] struct is not under src/;
    section 3 gives its attributes, and the builder reads [Fingerprint],
    [Name] and [SHA1] (the content hash of the compiled artifact). *)
Record Package := {
  Name : string;
  Fingerprint : string;
  SHA1 : string;
}.

#[global] Instance Package_eq_dec : EqDecision Package.
Proof. solve_decision. Defined.

Record RoleJob := { Packages : list Package }.
Record Role := { RoleJobs : list RoleJob }.

(** Modelled from the spec: [model.Packages] implements [sort.Interface]
    outside src/; section 4.4 says the packages are sorted "by a total order
    over fingerprints", which for Go strings is the built-in [<]. *)
Definition Packages_Less (a b : Package) : bool :=
  GoString.less (Fingerprint a) (Fingerprint b).

(** The packages of the roles in the order of the three nested [range]
    loops over roles, role jobs and packages. *)
Definition gather (roles : list Role) : list Package :=
  flat_map (fun r => flat_map Packages (RoleJobs r)) roles.

(** ** The Go runtime

    [range] over a map visits the entries in an unspecified order, and
    [sort.Sort] is some unstable sorting algorithm: both are parameters,
    constrained by [GoRuntimeLaws]. *)
Class GoRuntime := {
  range_order : forall A : Type, list (string * A) -> list (string * A);
  sort_Sort : list Package -> list Package;
}.

Class GoRuntimeLaws (rt : GoRuntime) : Prop := {
  range_order_perm : forall A (l : list (string * A)), range_order A l ≡ₚ l;
  sort_Sort_perm : forall l, sort_Sort l ≡ₚ l;
  sort_Sort_sorted :
    forall l, Sorted (fun a b => Packages_Less b a = false) (sort_Sort l);
}.

(** [for k, v := range m] *)
Definition range_map `{GoRuntime} {A} (m : gmap string A) : list (string * A) :=
  range_order A (map_to_list m).

(** A runtime that ranges in the order of [map_to_list] and sorts by
    insertion. *)
Fixpoint insert_sorted (x : Package) (l : list Package) : list Package :=
  match l with
  | [] => [x]
  | y :: l' => if Packages_Less y x then y :: insert_sorted x l' else x :: l
  end.

Definition insertion_sort (l : list Package) : list Package :=
  fold_right insert_sorted [] l.

Definition simple_runtime : GoRuntime :=
  {| range_order := fun _ l => l; sort_Sort := insertion_sort |}.

(** A runtime that ranges backwards. *)
Definition reverse_runtime : GoRuntime :=
  {| range_order := fun _ l => rev l; sort_Sort := insertion_sort |}.

(** ** Errors *)

(** A Go [error], by its message. *)
Inductive error := Errorf (msg : string).

#[global] Instance error_eq_dec : EqDecision error.
Proof. solve_decision. Defined.

Definition result (A : Type) : Type := error + A.

(** ** The builder *)

Record PackagesImageBuilder := {
  repository : string;
  stemcellImageID : string;
  stemcellImageName : string;
  compiledPackagesPath : string;
  targetPath : string;
  fissileVersion : string;
}.

(** [util.SanitizeDockerName] is not under src/: a parameter. *)
Class Util := { SanitizeDockerName : string -> string }.

(** The characters a docker name may always contain. *)
Definition docker_char (c : ascii) : bool :=
  let n := N_of_ascii c in
  ((97 <=? n) && (n <=? 122) || (48 <=? n) && (n <=? 57)
   || (n =? 45) || (n =? 95) || (n =? 46))%N.

Fixpoint docker_legal (s : string) : bool :=
  match s with
  | EmptyString => true
  | String c s' => docker_char c && docker_legal s'
  end.

(** What is asked of a sanitizer: a name that is legal already is kept. *)
Class UtilLaws (u : Util) : Prop := {
  sanitize_legal : forall s, docker_legal s = true -> SanitizeDockerName s = s;
}.

(** A sanitizer that replaces every other character by an underscore. *)
Fixpoint underscore_others (s : string) : string :=
  match s with
  | EmptyString => EmptyString
  | String c s' =>
      String (if docker_char c then c else "_"%char) (underscore_others s')
  end.

Definition simple_util : Util := {| SanitizeDockerName := underscore_others |}.

Definition NUL : string := String "000"%char EmptyString.

Section ImageName.
Context {rt : GoRuntime} {u : Util}.

Definition fissileVersionLabel (p : PackagesImageBuilder) : string :=
  "version.generator.fissile="
    ++ GoString.replace_byte "+" "_" (fissileVersion p).

(** The map filled by the three loops of [GetPackagesLayerImageName]. *)
Definition pkgMap_of (roles : list Role) : gmap string Package :=
  fold_left (fun m r =>
    fold_left (fun m j =>
      fold_left (fun m pkg => <[Fingerprint pkg := pkg]> m) (Packages j) m)
      (RoleJobs r) m)
    roles ∅.

(** The sorted package list that is hashed. *)
Definition sorted_packages (roles : list Role) : list Package :=
  sort_Sort (range_map (pkgMap_of roles)).*2.

(** What is written to the hasher. *)
Definition digest_input (p : PackagesImageBuilder) (pkgs : list Package)
  : string :=
  fold_left
    (fun hasher pkg =>
       Sha1.Write hasher
         (GoString.join NUL [EmptyString; Fingerprint pkg; Name pkg; SHA1 pkg]))
    pkgs
    (Sha1.Write Sha1.New (fissileVersion p ++ ":" ++ stemcellImageID p)).

Definition GetPackagesLayerImageName (p : PackagesImageBuilder)
    (roles : list Role) : result string :=
  let pkgs := sorted_packages roles in
  let hasher := digest_input p pkgs in
  let imageName := SanitizeDockerName (repository p ++ "-role-packages") in
  let imageTag := SanitizeDockerName (Hex.EncodeToString (Sha1.Sum hasher)) in
  inr (imageName ++ ":" ++ imageTag).

End ImageName.

(** ** [archive/tar] *)

Inductive Typeflag :=
  | TypeUnset      (* the zero value of the field *)
  | TypeReg        (* '0' *)
  | TypeSymlink    (* '2' *)
  | TypeChar       (* '3' *)
  | TypeBlock      (* '4' *)
  | TypeDir        (* '5' *)
  | TypeFifo.      (* '6' *)

#[global] Instance Typeflag_eq_dec : EqDecision Typeflag.
Proof. solve_decision. Defined.

Record TarHeader := {
  hName : string;
  hMode : Z;
  hSize : Z;
  hTypeflag : Typeflag;
  hLinkname : string;
}.

(** What the stream holds of an entry: its header and the bytes written
    after it. *)
Record TarEntry := { header : TarHeader; data : string }.

(** ** The world the builder runs in

    The tar stream under construction, the package-level variable
    [baseImageOverride], and the queries sent to the image catalog so far. *)
Record CatalogQuery := {
  qBaseImageName : string;
  qLabels : list string;
  qMandatoryLabels : list string;
}.

Record World := {
  stream : list TarEntry;
  baseImageOverride : string;
  lookups : list CatalogQuery;
}.

Definition set_stream (w : World) (s : list TarEntry) : World :=
  {| stream := s; baseImageOverride := baseImageOverride w; lookups := lookups w |}.

Definition log_lookup (w : World) (q : CatalogQuery) : World :=
  {| stream := stream w; baseImageOverride := baseImageOverride w;
     lookups := lookups w ++ [q] |}.

(** A computation that may fail with a Go [error] and that updates the
    world; what was written before a failure stays written. *)
Definition M (A : Type) : Type := World -> result A * World.

Definition ret {A} (a : A) : M A := fun w => (inr a, w).

Definition fail {A} (e : error) : M A := fun w => (inl e, w).

Definition bind {A B} (m : M A) (k : A -> M B) : M B :=
  fun w =>
    match m w with
    | (inl e, w') => (inl e, w')
    | (inr a, w') => k a w'
    end.

Definition lift {A} (r : result A) : M A :=
  match r with
  | inl e => fail e
  | inr a => ret a
  end.

Declare Scope go_scope.
Delimit Scope go_scope with go.
Notation "x <- m ;; k" := (bind m (fun x => k))
  (at level 100, m at next level, right associativity) : go_scope.
Notation "m ;; k" := (bind m (fun _ => k))
  (at level 100, right associativity) : go_scope.

(** [for _, x := range l { body }] where the body may return an error *)
Fixpoint for_each {A} (l : list A) (body : A -> M unit) : M unit :=
  match l with
  | [] => ret tt
  | x :: l' => bind (body x) (fun _ => for_each l' body)
  end.

(** ** The image catalog ([docker.ImageManager]), outside src/ *)
Class Docker := {
  NewImageManager : option error;
  FindBestImageWithLabels :
    string -> list string -> list string -> result (string * gmap string string);
}.

Section LayerMatcher.
Context {rt : GoRuntime} {dk : Docker}.
Local Open Scope go_scope.

(** The body of the loop over [foundLabels]. *)
Definition drop_covered (remainingPackages : gmap string Package)
    (label : string) : gmap string Package :=
  let parts := GoString.split "." label in
  if decide (length parts ≠ 2%nat ∨ nth 0 parts EmptyString ≠ "fingerprint") then
    remainingPackages
  else
    delete (nth 1 parts EmptyString) remainingPackages.

Definition determinePackagesLayerBaseImage (p : PackagesImageBuilder)
    (packages : list Package) : M (string * list Package) :=
  fun w =>
    let baseImageName :=
      if decide (baseImageOverride w ≠ EmptyString) then baseImageOverride w
      else stemcellImageName p in
    let labels := (fun pkg => "fingerprint." ++ Fingerprint pkg) <$> packages in
    let remainingPackages : gmap string Package :=
      fold_left (fun m pkg => <[Fingerprint pkg := pkg]> m) packages ∅ in
    let mandatoryLabels := [fissileVersionLabel p] in
    match NewImageManager with
    | Some err => (inl err, w)
    | None =>
        let w := log_lookup w
          {| qBaseImageName := baseImageName; qLabels := labels;
             qMandatoryLabels := mandatoryLabels |} in
        match FindBestImageWithLabels baseImageName labels mandatoryLabels with
        | inl err => (inl err, w)
        | inr (matchedImage, foundLabels) =>
            let remainingPackages :=
              fold_left drop_covered (range_map foundLabels).*1
                remainingPackages in
            let packages := (range_map remainingPackages).*2 in
            (inr (matchedImage, packages), w)
        end
    end.

End LayerMatcher.

(** *** Writing to a [tar.Writer]

    The underlying writer may fail at any point: [stream_fault] says, from
    what the stream holds, whether the next operation fails. *)
Class TarStream := {
  stream_fault : list TarEntry -> option error;
}.

Definition ErrWriteTooLong : error := Errorf "archive/tar: write too long".
Definition ErrMissedWriting : error := Errorf "archive/tar: missed writing bytes".

(** The bytes still owed to the entry being written. *)
Definition owed (s : list TarEntry) : Z :=
  match last s with
  | Some e => hSize (header e) - GoString.len (data e)
  | None => 0
  end.

Section TarWriter.
Context {ts : TarStream}.

(** [tar.Writer.WriteHeader]: closes the previous entry, which must be
    complete, and starts a new one. *)
Definition WriteHeader (hdr : TarHeader) : M unit :=
  fun w =>
    match stream_fault (stream w) with
    | Some err => (inl err, w)
    | None =>
        if decide (owed (stream w) ≠ 0) then (inl ErrMissedWriting, w)
        else
          (inr tt,
           set_stream w (stream w ++ [ {| header := hdr; data := EmptyString |} ]))
    end.

(** [tar.Writer.Write]: appends to the current entry, never beyond the
    size its header announced. *)
Definition Write (b : string) : M unit :=
  fun w =>
    match stream_fault (stream w) with
    | Some err => (inl err, w)
    | None =>
        match last (stream w) with
        | Some e =>
            if decide (GoString.len b <= owed (stream w)) then
              (inr tt,
               set_stream w
                 (removelast (stream w)
                    ++ [ {| header := header e; data := data e ++ b |} ]))
            else (inl ErrWriteTooLong, w)
        | None =>
            if decide (b = EmptyString) then (inr tt, w) else (inl ErrWriteTooLong, w)
        end
    end.

Local Open Scope go_scope.

(** Modelled from the spec: [util.WriteToTarStream] is not under src/; it
    writes one entry to the stream, the header given with the size of the
    data and then the data, and fails when the stream does. *)
Definition WriteToTarStream (bytes : string) (hdr : TarHeader) : M unit :=
  let hdr :=
    {| hName := hName hdr; hMode := hMode hdr; hSize := GoString.len bytes;
       hTypeflag := hTypeflag hdr; hLinkname := hLinkname hdr |} in
  WriteHeader hdr ;;
  Write bytes.

End TarWriter.

(** ** The filesystem: [os] and [path/filepath] *)

Definition ModeDir : Z := 2 ^ 31.
Definition ModeSymlink : Z := 2 ^ 27.
Definition ModeDevice : Z := 2 ^ 26.
Definition ModeNamedPipe : Z := 2 ^ 25.
Definition ModeSocket : Z := 2 ^ 24.
Definition ModeSetuid : Z := 2 ^ 23.
Definition ModeSetgid : Z := 2 ^ 22.
Definition ModeCharDevice : Z := 2 ^ 21.
Definition ModeSticky : Z := 2 ^ 20.
Definition ModeIrregular : Z := 2 ^ 19.
Definition ModeType : Z :=
  Z.lor ModeDir (Z.lor ModeSymlink (Z.lor ModeNamedPipe (Z.lor ModeSocket
    (Z.lor ModeDevice (Z.lor ModeCharDevice ModeIrregular))))).
Definition ModePerm : Z := 511. (* 0777 *)

Definition IsRegular (mode : Z) : bool := Z.land mode ModeType =? 0.
Definition IsDir (mode : Z) : bool := negb (Z.land mode ModeDir =? 0).
Definition Perm (mode : Z) : Z := Z.land mode ModePerm.

(** [m&bit != 0] *)
Definition has_bit (m bit : Z) : bool := negb (Z.land m bit =? 0).

(** [os.FileMode.String]: a letter for each of the bits 31 down to 19 that
    is set, a dash when none is, and then the nine permission bits. *)
Definition mode_letters : list ascii :=
  ["d"; "a"; "l"; "T"; "L"; "D"; "p"; "S"; "u"; "g"; "c"; "t"; "?"]%char.

Definition rwx_letters : list ascii :=
  ["r"; "w"; "x"; "r"; "w"; "x"; "r"; "w"; "x"]%char.

Fixpoint letters_set (m : Z) (top : Z) (letters : list ascii) : string :=
  match letters with
  | [] => EmptyString
  | c :: letters' =>
      if has_bit m (2 ^ top) then String c (letters_set m (top - 1) letters')
      else letters_set m (top - 1) letters'
  end.

Fixpoint letters_or_dash (m : Z) (top : Z) (letters : list ascii) : string :=
  match letters with
  | [] => EmptyString
  | c :: letters' =>
      String (if has_bit m (2 ^ top) then c else "-"%char)
             (letters_or_dash m (top - 1) letters')
  end.

Definition FileMode_String (m : Z) : string :=
  let kind := letters_set m 31 mode_letters in
  (if decide (kind = EmptyString) then "-" else kind)
    ++ letters_or_dash m 8 rwx_letters.

Record FileInfo := { fiName : string; fiSize : Z; fiMode : Z }.

(** The bits of [st_mode] that [os.Lstat] looks at besides the type of
    the file, and the same bits in a tar header. *)
Definition S_ISUID : Z := 2048. (* 04000 *)
Definition S_ISGID : Z := 1024. (* 02000 *)
Definition S_ISVTX : Z := 512.  (* 01000 *)

Definition c_ISUID : Z := 2048. (* 04000, set uid *)
Definition c_ISGID : Z := 1024. (* 02000, set gid *)
Definition c_ISVTX : Z := 512.  (* 01000, save text (sticky bit) *)

(** The files that are neither regular files, links nor directories. *)
Inductive SpecialFile := BlockDevice | CharDevice | NamedPipe | Socket.

(** What is on disk at a path. [mode] holds the permission bits and the
    set-uid, set-gid and sticky bits of [st_mode]; the type of the file is
    the constructor. Every access that can fail carries the error it fails
    with, if any. The names of the entries of a directory are single path
    elements, none of them empty, [.] or [..]. *)
Inductive Node :=
  | NFile (mode : Z) (content : string) (open_err : option error)
  | NSymlink (mode : Z) (target : string) (readlink_err : option error)
  | NDir (mode size : Z) (entries : list (string * Node))
         (readdir_err : option error)
  | NSpecial (kind : SpecialFile) (mode size : Z)
  | NFault (lstat_err : error).

(** A path reached by a walk: the root the walk started from, and the names
    followed below it, each of them joined to the path of its directory. *)
Record WalkPath := { anchor : string; below : list string }.

Definition enter (path : WalkPath) (name : string) : WalkPath :=
  {| anchor := anchor path; below := below path ++ [name] |}.

(** The names followed below a root, as a relative path. *)
Definition rel_string (rel : list string) : string :=
  match rel with [] => "." | names => GoString.join "/" names end.

(** [filepath.Rel(root, path)] for a path walked from [root]. *)
Definition filepath_Rel (root : string) (path : WalkPath) : result string :=
  if decide (anchor path = root) then inr (rel_string (below path))
  else inl (Errorf "Rel: can't make path relative").

(** [filepath.Clean] on the elements of a path: empty elements and [.]
    are dropped; [..] takes away the element before it, is dropped at the
    root, and is kept, [dotdot] counting them, at the start of a path that
    is not rooted. [kept] holds the elements in reverse. *)
Fixpoint clean_elements (rooted : bool) (dotdot : nat) (kept : list string)
    (elements : list string) : list string :=
  match elements with
  | [] => (replicate dotdot ".." ++ rev kept)%list
  | element :: rest =>
      if decide (element = EmptyString ∨ element = ".") then
        clean_elements rooted dotdot kept rest
      else if decide (element = "..") then
        match kept with
        | _ :: kept' => clean_elements rooted dotdot kept' rest
        | [] =>
            if rooted then clean_elements rooted dotdot [] rest
            else clean_elements rooted (S dotdot) [] rest
        end
      else clean_elements rooted dotdot (element :: kept) rest
  end.

(** [filepath.Clean(path)]: the shortest path name equivalent to [path] by
    purely lexical processing; [.] for the empty path. *)
Definition filepath_Clean (path : string) : string :=
  match path with
  | EmptyString => "."
  | String c _ =>
      let rooted := Ascii.eqb c "/" in
      let out :=
        GoString.join "/"
          (clean_elements rooted 0 [] (GoString.split "/" path)) in
      if rooted then "/" ++ out
      else if decide (out = EmptyString) then "." else out
  end.

(** [filepath.Join(a, b)]: the elements from the first one that is not
    empty on, joined with a slash, and the result cleaned; the empty string
    when both are empty. *)
Definition filepath_Join (a b : string) : string :=
  if decide (a ≠ EmptyString) then filepath_Clean (a ++ "/" ++ b)
  else if decide (b ≠ EmptyString) then filepath_Clean b
  else EmptyString.

(** [basename] of package [os]: the path without its trailing slashes and
    without the directories that lead to its last element. *)
Fixpoint drop_trailing_empty (elements : list string) : list string :=
  match elements with
  | [] => []
  | element :: rest =>
      match drop_trailing_empty rest with
      | [] => if decide (element = EmptyString) then [] else [element]
      | rest' => element :: rest'
      end
  end.

Definition os_basename (name : string) : string :=
  match last (drop_trailing_empty (GoString.split "/" name)) with
  | Some element => element
  | None => if decide (name = EmptyString) then EmptyString else "/"
  end.

(** The name [Lstat] reports for a walked path: that of the entry followed
    last, or the base name of the root of the walk. *)
Definition base_name (path : WalkPath) : string :=
  match last (below path) with
  | Some name => name
  | None => os_basename (anchor path)
  end.

(** What [os.Lstat] makes of [st_mode]: the permission bits, the bits of
    the type of the file, and the set-gid, set-uid and sticky bits. *)
Definition file_mode (st_mode type : Z) : Z :=
  let mode := Z.lor (Z.land st_mode 511) type in
  let mode := if has_bit st_mode S_ISGID then Z.lor mode ModeSetgid else mode in
  let mode := if has_bit st_mode S_ISUID then Z.lor mode ModeSetuid else mode in
  let mode := if has_bit st_mode S_ISVTX then Z.lor mode ModeSticky else mode in
  mode.

Definition special_type (kind : SpecialFile) : Z :=
  match kind with
  | BlockDevice => ModeDevice
  | CharDevice => Z.lor ModeDevice ModeCharDevice
  | NamedPipe => ModeNamedPipe
  | Socket => ModeSocket
  end.

(** [os.Lstat] *)
Definition Lstat (path : WalkPath) (n : Node) : result FileInfo :=
  match n with
  | NFile mode content _ =>
      inr {| fiName := base_name path; fiSize := GoString.len content;
             fiMode := file_mode mode 0 |}
  | NSymlink mode target _ =>
      inr {| fiName := base_name path; fiSize := GoString.len target;
             fiMode := file_mode mode ModeSymlink |}
  | NDir mode size _ _ =>
      inr {| fiName := base_name path; fiSize := size;
             fiMode := file_mode mode ModeDir |}
  | NSpecial kind mode size =>
      inr {| fiName := base_name path; fiSize := size;
             fiMode := file_mode mode (special_type kind) |}
  | NFault err => inl err
  end.

(** [os.Readlink] *)
Definition Readlink (n : Node) : result string :=
  match n with
  | NSymlink _ target None => inr target
  | NSymlink _ _ (Some err) => inl err
  | NFault err => inl err
  | _ => inl (Errorf "readlink: invalid argument")
  end.

(** [os.Open] followed by reading the file; the walker opens regular
    files only. *)
Definition Open (n : Node) : result string :=
  match n with
  | NFile _ content None => inr content
  | NFile _ _ (Some err) => inl err
  | NFault err => inl err
  | _ => inl (Errorf "read: is a directory")
  end.

(** The operating system and the collaborators that touch it: the disk,
    [tar.FileInfoHeader], and [model.Package.GetPackageCompiledDir], which
    is not under src/. *)
Class OS := {
  disk : string -> Node;
  FileInfoHeader : FileInfo -> string -> result TarHeader;
  GetPackageCompiledDir : Package -> string -> string;
}.

Definition set_Typeflag (h : TarHeader) (flag : Typeflag) : TarHeader :=
  {| hName := hName h; hMode := hMode h; hSize := hSize h;
     hTypeflag := flag; hLinkname := hLinkname h |}.

Definition set_Size (h : TarHeader) (size : Z) : TarHeader :=
  {| hName := hName h; hMode := hMode h; hSize := size;
     hTypeflag := hTypeflag h; hLinkname := hLinkname h |}.

Definition set_Mode (h : TarHeader) (mode : Z) : TarHeader :=
  {| hName := hName h; hMode := mode; hSize := hSize h;
     hTypeflag := hTypeflag h; hLinkname := hLinkname h |}.

Definition set_Linkname (h : TarHeader) (linkname : string) : TarHeader :=
  {| hName := hName h; hMode := hMode h; hSize := hSize h;
     hTypeflag := hTypeflag h; hLinkname := linkname |}.

Definition set_Name (h : TarHeader) (name : string) : TarHeader :=
  {| hName := name; hMode := hMode h; hSize := hSize h;
     hTypeflag := hTypeflag h; hLinkname := hLinkname h |}.

(** [tar.FileInfoHeader] of the standard library: the name and the
    permission bits; by the kind of the file its type, the size of a
    regular file, a slash after the name of a directory, the target of a
    link; an error for a socket and for a file of no known kind; and last
    the set-uid, set-gid and sticky bits. *)
Definition tar_FileInfoHeader (fi : FileInfo) (link : string)
  : result TarHeader :=
  let fm := fiMode fi in
  let h :=
    {| hName := fiName fi; hMode := Perm fm; hSize := 0;
       hTypeflag := TypeUnset; hLinkname := EmptyString |} in
  let typed : result TarHeader :=
    if IsRegular fm then inr (set_Size (set_Typeflag h TypeReg) (fiSize fi))
    else if IsDir fm then
      inr (set_Name (set_Typeflag h TypeDir) (hName h ++ "/"))
    else if has_bit fm ModeSymlink then
      inr (set_Linkname (set_Typeflag h TypeSymlink) link)
    else if has_bit fm ModeDevice then
      if has_bit fm ModeCharDevice then inr (set_Typeflag h TypeChar)
      else inr (set_Typeflag h TypeBlock)
    else if has_bit fm ModeNamedPipe then inr (set_Typeflag h TypeFifo)
    else if has_bit fm ModeSocket then
      inl (Errorf "archive/tar: sockets not supported")
    else
      inl (Errorf ("archive/tar: unknown file mode " ++ FileMode_String fm)) in
  match typed with
  | inl err => inl err
  | inr h =>
      let h := if has_bit fm ModeSetuid then set_Mode h (Z.lor (hMode h) c_ISUID)
               else h in
      let h := if has_bit fm ModeSetgid then set_Mode h (Z.lor (hMode h) c_ISGID)
               else h in
      let h := if has_bit fm ModeSticky then set_Mode h (Z.lor (hMode h) c_ISVTX)
               else h in
      inr h
  end.

(** [io.CopyN(dst, src, n)]: exactly [n] bytes, or [io.EOF]. *)
Definition take_exactly (n : Z) (content : string) : result string :=
  if decide (n <= GoString.len content) then
    inr (String.substring 0 (Z.to_nat n) content)
  else inl (Errorf "EOF").

(** ** The tar walker *)

Record tarWalker := {
  root : string;     (* The base directory on disk where the walking started *)
  prefix : string;   (* The prefix in the tar file the names should have *)
}.

Definition nil_FileInfo : FileInfo :=
  {| fiName := EmptyString; fiSize := 0; fiMode := 0 |}.

(** [sort.Strings] on the names of a directory listing, each name with
    what belongs to it: an insertion sort that keeps the listing order of
    equal names. *)
Fixpoint insert_by_name {A} (x : string * A) (l : list (string * A))
  : list (string * A) :=
  match l with
  | [] => [x]
  | y :: l' =>
      if GoString.less (fst y) (fst x) then y :: insert_by_name x l'
      else x :: l
  end.

Definition sort_names {A} (l : list (string * A)) : list (string * A) :=
  foldr insert_by_name [] l.

Section TarWalker.
Context {ts : TarStream} {os : OS}.
Local Open Scope go_scope.

(** [tarWalker.walk]; [node] is what the disk holds at [path]. *)
Definition walk (w : tarWalker) (path : WalkPath) (node : Node)
    (info : FileInfo) (err : option error) : M unit :=
  match err with
  | Some err => fail err
  | None =>
      header <- lift (FileInfoHeader info EmptyString) ;;
      header <-
        (if negb (Z.land (fiMode info) ModeSymlink =? 0) then
           linkname <- lift (Readlink node) ;;
           ret (set_Linkname header linkname)
         else ret header) ;;
      relPath <- lift (filepath_Rel (root w) path) ;;
      let header := set_Name header (filepath_Join (prefix w) relPath) in
      WriteHeader header ;;
      if negb (IsRegular (fiMode info)) then ret tt
      else
        file <- lift (Open node) ;;
        bytes <- lift (take_exactly (fiSize info) file) ;;
        Write bytes
  end.

(** [filepath.Walk] with [w.walk] as its function: the file itself, then,
    for a directory that can be read, its entries in the lexical order of
    their names, stopping at the first error. [visits] pairs the name of
    each entry with the walk of that entry. *)
Fixpoint walk_node (w : tarWalker) (path : WalkPath) (node : Node) : M unit :=
  match Lstat path node with
  | inl err => walk w path node nil_FileInfo (Some err)
  | inr info =>
      match node with
      | NDir _ _ entries (Some err) => walk w path node info (Some err)
      | NDir _ _ entries None =>
          let visits :=
            (fix visits_of (es : list (string * Node))
               : list (string * M unit) :=
               match es with
               | [] => []
               | (name, child) :: es' =>
                   (name, walk_node w (enter path name) child) :: visits_of es'
               end) entries in
          walk w path node info None ;;
          for_each (sort_names visits) snd
      | _ => walk w path node info None
      end
  end.

Definition filepath_Walk (w : tarWalker) : M unit :=
  walk_node w {| anchor := root w; below := [] |} (disk (root w)).

End TarWalker.

(** ** The Dockerfile template

    [dockerfiles.Asset] and the template engine are outside src/. *)
Record TemplateContext := {
  base_image : string;
  packages : list Package;
  fissile_version : string;
}.

Class Templates := {
  dockerfiles_Asset : string -> result string;
  (* [template.New(name).Parse(text)] and then [Execute] on a context *)
  template_Execute : string -> string -> TemplateContext -> result string;
}.

(** ** The context populator *)

Section Populator.
Context {rt : GoRuntime} {dk : Docker} {ts : TarStream} {os : OS}
        {tp : Templates}.
Local Open Scope go_scope.

(** [generateDockerfile]: the rendered Dockerfile. *)
Definition generateDockerfile (p : PackagesImageBuilder) (baseImage : string)
    (packages : list Package) : result string :=
  let context :=
    {| base_image := baseImage; packages := packages;
       fissile_version := fissileVersionLabel p |} in
  match dockerfiles_Asset "Dockerfile-packages" with
  | inl err => inl err
  | inr asset => template_Execute "Dockerfile" asset context
  end.

(** The body of the innermost loop that collects the compiled packages. *)
Definition collect_step (st : gset string * list Package) (pkg : Package)
  : gset string * list Package :=
  let '(foundFingerprints, packages) := st in
  if decide (Fingerprint pkg ∈ foundFingerprints) then st
  else (foundFingerprints ∪ {[ Fingerprint pkg ]}, (packages ++ [pkg])%list).

Definition collect_packages (roles : list Role) : list Package :=
  snd (fold_left (fun st role =>
         fold_left (fun st roleJob =>
           fold_left collect_step (Packages roleJob) st)
           (RoleJobs role) st)
         roles (∅, [])).

Definition NewDockerPopulator (p : PackagesImageBuilder) (roles : list Role)
    (forceBuildAll : bool) : M unit :=
  if decide (length roles = 0%nat) then fail (Errorf "No roles to build")
  else
    let packages := collect_packages roles in
    let baseImageName := stemcellImageName p in
    base <-
      (if negb forceBuildAll then determinePackagesLayerBaseImage p packages
       else ret (baseImageName, packages)) ;;
    let '(baseImageName, packages) := base in
    dockerfile <- lift (generateDockerfile p baseImageName packages) ;;
    WriteToTarStream dockerfile
      {| hName := "Dockerfile"; hMode := 0; hSize := 0;
         hTypeflag := TypeUnset; hLinkname := EmptyString |} ;;
    (* Make sure we have the directory, even if we have no packages to add *)
    WriteToTarStream EmptyString
      {| hName := "packages-src"; hMode := 493 (* 0755 *); hSize := 0;
         hTypeflag := TypeDir; hLinkname := EmptyString |} ;;
    (* Actually insert the packages into the tar stream *)
    for_each packages (fun pkg =>
      let walker :=
        {| root := GetPackageCompiledDir pkg (compiledPackagesPath p);
           prefix := filepath_Join "packages-src" (Fingerprint pkg) |} in
      filepath_Walk walker).

End Populator.

(** ** The vocabulary of the properties *)

Definition fp_le (a b : Package) : Prop := Packages_Less b a = false.

(** The packages of the list that carry fingerprint [f], in order. *)
Definition with_fp (f : string) (l : list Package) : list Package :=
  filter (fun pkg => Fingerprint pkg = f) l.

Definition insert_by_fp (m : gmap string Package) (pkg : Package)
  : gmap string Package := <[Fingerprint pkg := pkg]> m.

(** A map whose values are filed under their own fingerprint. *)
Definition keyed_by_fp (m : gmap string Package) : Prop :=
  forall k pkg, m !! k = Some pkg -> Fingerprint pkg = k.

(** The labels cover the fingerprint [f]: one of them has its two-part
    shape. *)
Definition covers (labels : list string) (f : string) : Prop :=
  exists label, label ∈ labels /\ GoString.split "." label = ["fingerprint"; f].

(** The base image name the catalog is asked about. *)
Definition effective_base (w : World) (p : PackagesImageBuilder) : string :=
  if decide (baseImageOverride w ≠ EmptyString) then baseImageOverride w
  else stemcellImageName p.

Definition fingerprint_labels (pkgs : list Package) : list string :=
  (fun pkg => "fingerprint." ++ Fingerprint pkg) <$> pkgs.

Definition catalog_query (w : World) (p : PackagesImageBuilder)
    (pkgs : list Package) : CatalogQuery :=
  {| qBaseImageName := effective_base w p; qLabels := fingerprint_labels pkgs;
     qMandatoryLabels := [fissileVersionLabel p] |}.

(** What is left of the requested packages once the covered labels have
    been taken out. *)
Definition remaining_after (keys : list string) (pkgs : list Package)
  : gmap string Package :=
  fold_left drop_covered keys (fold_left insert_by_fp pkgs ∅).

Definition succeeded {A} (r : result A) : Prop :=
  match r with inr _ => True | inl _ => False end.

(** The world after the computation holds what it held before, followed by
    the entries [ext]; nothing else changes. *)
Definition extended (w w' : World) (ext : list TarEntry) : Prop :=
  stream w' = (stream w ++ ext)%list
  /\ baseImageOverride w' = baseImageOverride w
  /\ lookups w' = lookups w.

(** A computation that only appends entries to the stream, all of them
    satisfying [Q] when it succeeds. *)
Definition appends {A} (m : M A) (Q : TarEntry -> Prop) : Prop :=
  forall w r w',
    m w = (r, w') ->
    exists ext, extended w w' ext /\ (succeeded r -> Forall Q ext).

(** The header [WriteToTarStream] completes with the size of the data. *)
Definition sized (hdr : TarHeader) (bytes : string) : TarHeader :=
  {| hName := hName hdr; hMode := hMode hdr; hSize := GoString.len bytes;
     hTypeflag := hTypeflag hdr; hLinkname := hLinkname hdr |}.

(** The file met by following [rel] from a directory tree, through
    directories that can be read. *)
Inductive node_at : Node -> list string -> Node -> Prop :=
  | at_root n : node_at n [] n
  | at_child perm size entries name child rel n :
      (name, child) ∈ entries ->
      node_at child rel n ->
      node_at (NDir perm size entries None) (name :: rel) n.

(** The entry [e] is the copy of the file [node] met at [rel] below the
    walker's root: its name is the walker's prefix joined with [rel]; its
    mode, size and type are those [tar.FileInfoHeader] derives from what
    [Lstat] reports; a regular file comes with its bytes, a symbolic link
    with its target. *)
Definition faithful_copy {os : OS} (w : tarWalker) (rel : list string)
    (node : Node) (e : TarEntry) : Prop :=
  exists info hdr,
    Lstat {| anchor := root w; below := rel |} node = inr info
    /\ FileInfoHeader info EmptyString = inr hdr
    /\ hName (header e) = filepath_Join (prefix w) (rel_string rel)
    /\ hMode (header e) = hMode hdr
    /\ hSize (header e) = hSize hdr
    /\ hTypeflag (header e) = hTypeflag hdr
    /\ match node with
       | NFile _ content _ =>
           data e = content /\ hLinkname (header e) = hLinkname hdr
       | NSymlink _ target _ =>
           data e = EmptyString /\ hLinkname (header e) = target
       | NDir _ _ _ _ | NSpecial _ _ _ =>
           data e = EmptyString /\ hLinkname (header e) = hLinkname hdr
       | NFault _ => False
       end.

(** The entry is the copy of some file of the tree. *)
Definition copied_from {os : OS} (w : tarWalker) (tree : Node) (e : TarEntry)
  : Prop :=
  exists rel node, node_at tree rel node /\ faithful_copy w rel node e.

(** A plain path element: not empty, not [.] or [..], and without slash. *)
Definition path_element (s : string) : Prop :=
  s <> EmptyString /\ s <> "." /\ s <> ".."
  /\ GoString.contains "/" s = false.

(** The type a special file has in a tar header; none for a socket. *)
Definition special_flag (kind : SpecialFile) : option Typeflag :=
  match kind with
  | BlockDevice => Some TypeBlock
  | CharDevice => Some TypeChar
  | NamedPipe => Some TypeFifo
  | Socket => None
  end.

(** The entry is named by the walker's prefix joined with [rel]; its mode
    is the permission, set-uid, set-gid and sticky bits of the file; it has
    the type of the file; a regular file has its length as size and comes
    with its bytes; any other file has size 0 and no bytes, a symbolic
    link has its target as link name. No entry is the copy of a socket. *)
Definition plain_copy (w : tarWalker) (rel : list string) (node : Node)
    (e : TarEntry) : Prop :=
  hName (header e) = filepath_Join (prefix w) (rel_string rel)
  /\ match node with
     | NFile mode content _ =>
         hMode (header e) = Z.land mode 4095 (* 07777 *)
         /\ hSize (header e) = GoString.len content
         /\ hTypeflag (header e) = TypeReg
         /\ hLinkname (header e) = EmptyString
         /\ data e = content
     | NSymlink mode target _ =>
         hMode (header e) = Z.land mode 4095
         /\ hSize (header e) = 0
         /\ hTypeflag (header e) = TypeSymlink
         /\ hLinkname (header e) = target
         /\ data e = EmptyString
     | NDir mode _ _ _ =>
         hMode (header e) = Z.land mode 4095
         /\ hSize (header e) = 0
         /\ hTypeflag (header e) = TypeDir
         /\ hLinkname (header e) = EmptyString
         /\ data e = EmptyString
     | NSpecial kind mode _ =>
         hMode (header e) = Z.land mode 4095
         /\ hSize (header e) = 0
         /\ Some (hTypeflag (header e)) = special_flag kind
         /\ hLinkname (header e) = EmptyString
         /\ data e = EmptyString
     | NFault _ => False
     end.

Definition dockerfile_entry (dockerfile : string) : TarEntry :=
  {| header := {| hName := "Dockerfile"; hMode := 0;
                  hSize := GoString.len dockerfile;
                  hTypeflag := TypeUnset; hLinkname := EmptyString |};
     data := dockerfile |}.

Definition packages_src_entry : TarEntry :=
  {| header := {| hName := "packages-src"; hMode := 493; hSize := 0;
                  hTypeflag := TypeDir; hLinkname := EmptyString |};
     data := EmptyString |}.

(** The walker the populator sets up for a package. *)
Definition walker_of {os : OS} (p : PackagesImageBuilder) (pkg : Package)
  : tarWalker :=
  {| root := GetPackageCompiledDir pkg (compiledPackagesPath p);
     prefix := filepath_Join "packages-src" (Fingerprint pkg) |}.

(** The entries of a group are copies of files of the package's compiled
    directory, named below "packages-src/<fingerprint>". *)
Definition package_copied {os : OS} (p : PackagesImageBuilder) (pkg : Package)
    (group : list TarEntry) : Prop :=
  Forall (copied_from (walker_of p pkg) (disk (root (walker_of p pkg)))) group.

Section WriteContext.
Context {ts : TarStream} {os : OS} {tp : Templates}.
Local Open Scope go_scope.

(** What [NewDockerPopulator] does once the base image and the packages
    to add are known. *)
Definition write_context (p : PackagesImageBuilder) (baseImageName : string)
    (packages : list Package) : M unit :=
  dockerfile <- lift (generateDockerfile p baseImageName packages) ;;
  WriteToTarStream dockerfile
    {| hName := "Dockerfile"; hMode := 0; hSize := 0;
       hTypeflag := TypeUnset; hLinkname := EmptyString |} ;;
  WriteToTarStream EmptyString
    {| hName := "packages-src"; hMode := 493; hSize := 0;
       hTypeflag := TypeDir; hLinkname := EmptyString |} ;;
  for_each packages (fun pkg => filepath_Walk (walker_of p pkg)).

End WriteContext.

(** Induction on directory trees: a directory has the property when its
    entries have it. *)
Section NodeInduction.
Variable P : Node -> Prop.
Hypothesis Hfile : forall perm content err, P (NFile perm content err).
Hypothesis Hlink : forall perm target err, P (NSymlink perm target err).
Hypothesis Hdir :
  forall perm size entries err,
    Forall (fun entry => P (snd entry)) entries ->
    P (NDir perm size entries err).
Hypothesis Hspecial : forall kind mode size, P (NSpecial kind mode size).
Hypothesis Hfault : forall err, P (NFault err).

Fixpoint Node_tree_ind (n : Node) : P n :=
  match n with
  | NFile perm content err => Hfile perm content err
  | NSymlink perm target err => Hlink perm target err
  | NDir perm size entries err =>
      Hdir perm size entries err
        ((fix all (es : list (string * Node))
            : Forall (fun entry => P (snd entry)) es :=
            match es with
            | [] => List.Forall_nil _
            | (name, child) :: es' =>
                List.Forall_cons _ (name, child) es' (Node_tree_ind child)
                  (all es')
            end) entries)
  | NSpecial kind mode size => Hspecial kind mode size
  | NFault err => Hfault err
  end.
End NodeInduction.

(** ** Sample collaborators and inputs *)

Definition no_faults : TarStream := {| stream_fault := fun _ => None |}.

(** A catalog that knows no image: it answers the base image and no label. *)
Definition empty_catalog : Docker :=
  {| NewImageManager := None;
     FindBestImageWithLabels := fun baseImageName _ _ => inr (baseImageName, ∅) |}.

(** A catalog that holds one image, with the given labels. *)
Definition catalog_with (image : string) (labels : list string) : Docker :=
  {| NewImageManager := None;
     FindBestImageWithLabels := fun _ _ _ =>
       inr (image, list_to_map (map (fun l => (l, EmptyString)) labels)) |}.

Definition sample_tree : Node :=
  NDir 493 (* 0755 *) 4096
    [ ("bin",
       NDir 493 4096
         [ ("run", NFile 493 "#!/bin/sh" None);
           ("helper", NFile 2541 (* 04755 *) "ELF" None) ]
         None);
      ("current", NSymlink 511 (* 0777 *) "bin" None);
      ("README", NFile 420 (* 0644 *) "hello" None);
      ("ctl", NSpecial NamedPipe 384 (* 0600 *) 0) ]
    None.

Definition sample_os : OS :=
  {| disk := fun path =>
       if decide (path = "/compiled/f1/compiled") then sample_tree
       else if decide (path = "/compiled/f2/compiled") then NDir 493 4096 [] None
       else NFault (Errorf "no such file or directory");
     FileInfoHeader := tar_FileInfoHeader;
     GetPackageCompiledDir := fun pkg workDir =>
       workDir ++ "/" ++ Fingerprint pkg ++ "/compiled" |}.

Definition sample_templates : Templates :=
  {| dockerfiles_Asset := fun name =>
       if decide (name = "Dockerfile-packages") then inr "FROM {{ .base_image }}"
       else inl (Errorf "Asset not found");
     template_Execute := fun _ _ context =>
       inr ("FROM " ++ base_image context ++ " # "
              ++ GoString.join "," (map Fingerprint (packages context))
              ++ " # " ++ fissile_version context) |}.

Definition fresh_world : World :=
  {| stream := []; baseImageOverride := EmptyString; lookups := [] |}.

Definition acme : PackagesImageBuilder :=
  {| repository := "acme"; stemcellImageID := "sha:abc";
     stemcellImageName := "stemcell"; compiledPackagesPath := "/compiled";
     targetPath := "/target"; fissileVersion := "1.2.3" |}.

Definition one_role (pkgs : list Package) : Role :=
  {| RoleJobs := [ {| Packages := pkgs |} ] |}.

Definition pkg_f1_h1 : Package := {| Name := "p1"; Fingerprint := "f1"; SHA1 := "h1" |}.
Definition pkg_f1_h2 : Package := {| Name := "p1"; Fingerprint := "f1"; SHA1 := "h2" |}.
Definition pkg_f2 : Package := {| Name := "p2"; Fingerprint := "f2"; SHA1 := "h3" |}.

Definition acme_builder (name path target : string) : PackagesImageBuilder :=
  {| repository := "acme"; stemcellImageID := "sha:abc";
     stemcellImageName := name; compiledPackagesPath := path;
     targetPath := target; fissileVersion := "1.2.3" |}.

Definition pkg_dotted : Package :=
  {| Name := "p3"; Fingerprint := "a.b"; SHA1 := "h4" |}.

Definition sample_roles : list Role :=
  [one_role [pkg_f1_h1; pkg_f2]; one_role [pkg_f1_h2]].

Definition covering_catalog : Docker :=
  catalog_with "cached"
    ["fingerprint.f1"; "fingerprint.f2"; "version.generator.fissile"].

(** ** Further vocabulary *)

(** The files a walk meets from a node, in the order it meets them: the
    node itself, then, for a directory that can be read, what it meets
    from each entry, the entries taken in the lexical order of their
    names. *)
Fixpoint tree_files (rel : list string) (n : Node) {struct n}
  : list (list string * Node) :=
  (rel, n) ::
  match n with
  | NDir _ _ entries None =>
      let below_entries :=
        (fix files_of (es : list (string * Node))
           : list (string * list (list string * Node)) :=
           match es with
           | [] => []
           | (name, child) :: es' =>
               (name, tree_files (rel ++ [name]) child) :: files_of es'
           end) entries in
      concat (snd <$> sort_names below_entries)
  | _ => []
  end.

(** A file every access to which succeeds. *)
Definition accessible (n : Node) : Prop :=
  match n with
  | NFile _ _ None | NSymlink _ _ None | NDir _ _ _ None
  | NSpecial _ _ _ => True
  | _ => False
  end.

(** Packages that share a fingerprint are one and the same package. *)
Definition fingerprints_identify (l : list Package) : Prop :=
  forall a b, a ∈ l -> b ∈ l -> Fingerprint a = Fingerprint b -> a = b.

Definition is_byte (b : Z) : Prop := 0 <= b < 256.

(** What the packages contribute to the digest: for each one a NUL and its
    fingerprint, a NUL and its name, a NUL and its content hash. *)
Fixpoint packages_record (pkgs : list Package) : string :=
  match pkgs with
  | [] => EmptyString
  | pkg :: pkgs' =>
      GoString.join NUL [EmptyString; Fingerprint pkg; Name pkg; SHA1 pkg]
        ++ packages_record pkgs'
  end.

(** None of the three fields of the package holds a NUL byte. *)
Definition nul_free (pkg : Package) : Prop :=
  GoString.contains "000" (Fingerprint pkg) = false
  /\ GoString.contains "000" (Name pkg) = false
  /\ GoString.contains "000" (SHA1 pkg) = false.

(** The fields of the packages, one after the other. *)
Definition package_fields (pkgs : list Package) : list string :=
  flat_map (fun pkg => [Fingerprint pkg; Name pkg; SHA1 pkg]) pkgs.

(** A computation that only appends entries to the stream, and on success
    appends a list of entries that satisfies [R]. *)
Definition yields {A} (m : M A) (R : list TarEntry -> Prop) : Prop :=
  forall w r w',
    m w = (r, w') ->
    exists ext, extended w w' ext /\ (succeeded r -> R ext).

(** The entries are the copies, one for one and in order, of the files a
    walk meets from the walker's root, each of them accessible. *)
Definition copies_of_tree {os : OS} (w : tarWalker) (rel : list string)
    (tree : Node) (ext : list TarEntry) : Prop :=
  Forall2 (fun file e =>
             faithful_copy w (fst file) (snd file) e /\ accessible (snd file))
          (tree_files rel tree) ext.

(** The entry carries as many bytes as its header announces. *)
Definition entry_complete (e : TarEntry) : Prop :=
  hSize (header e) = GoString.len (data e).

(** The files a walk meets from the entries of a directory. *)
Definition entries_files (rel : list string) (es : list (string * Node))
  : list (list string * Node) :=
  flat_map (fun entry => tree_files (rel ++ [fst entry]) (snd entry)) es.

(** A package with no compiled directory on the sample disk. *)
Definition pkg_missing : Package :=
  {| Name := "p9"; Fingerprint := "f9"; SHA1 := "h9" |}.

(** A catalog that cannot be reached. *)
Definition failing_catalog : Docker :=
  {| NewImageManager := None;
     FindBestImageWithLabels := fun _ _ _ =>
       inl (Errorf "cannot connect to the docker daemon") |}.

(** ** [util.ValidatePath] *)

(** [os.IsNotExist]: which errors report that a file does not exist. *)
Class OSErrors := { IsNotExist : error -> bool }.

Section ValidatePath.
Context {os : OS} {oe : OSErrors}.

(** [ValidatePath] validates that a path (file or dir) exists; [None] is
    the [nil] error. *)
Definition ValidatePath (path : string) (shouldBeDir : bool)
    (pathDescription : string) : option error :=
  match Lstat {| anchor := path; below := [] |} (disk path) with
  | inl err =>
      if IsNotExist err then
        Some (Errorf ("Path " ++ path ++ " (" ++ pathDescription
                        ++ ") does not exist"))
      else Some err
  | inr pathInfo =>
      if IsDir (fiMode pathInfo) && negb shouldBeDir then
        Some (Errorf ("Path " ++ path ++ " (" ++ pathDescription
                        ++ ") points to a directory. It should be a a file"))
      else if negb (IsDir (fiMode pathInfo)) && shouldBeDir then
        Some (Errorf ("Path " ++ path ++ " (" ++ pathDescription
                        ++ ") points to a file. It should be a directory"))
      else None
  end.

End ValidatePath.

(** Errors are told apart by their message on the sample disk. *)
Definition sample_errors : OSErrors :=
  {| IsNotExist := fun err =>
       bool_decide (err = Errorf "no such file or directory") |}.

(** ** The [kube] package: ClusterIP services

    The [helm] package, [newTypeMeta], [parsePortRange], [getPortInfo] and
    the role model are outside src/: the nodes and the operations on them
    are parameters. A method that updates a node in place is a function
    that returns the updated node. *)

Module Kube.

(** A value handed to the [helm] constructors (an [interface{}]). *)
Inductive Value (N : Type) :=
  | VString (s : string)
  | VInt (n : Z)
  | VNode (node : N)
  | VNodes (nodes : list N).

Arguments VString {N} s.
Arguments VInt {N} n.
Arguments VNode {N} node.
Arguments VNodes {N} nodes.

Class Helm := {
  Node : Type;
  (* helm.NewMapping(name1, value1, name2, value2, ...) *)
  NewMapping : list (string * Value Node) -> Node;
  (* mapping.Add(name, value) *)
  Add : Node -> string -> Value Node -> Node;
  NewNode : Value Node -> Node;
  NewList : list (Value Node) -> Node;
  (* mapping.Sort() *)
  Sort : Node -> Node;
}.

Record RoleRunExposedPort := {
  PortName : string;      (* portDef.Name *)
  Protocol : string;
  External : string;
  Public : bool;
}.

Record RoleRun := { ExposedPorts : list RoleRunExposedPort }.

Record Role := { RoleName : string (* role.Name *); Run : RoleRun }.

Record ExportSettings := { CreateHelmChart : bool }.

Record portInfo := { name : string; port : Z }.

Class KubeEnv {helm : Helm} := {
  newTypeMeta : string -> string -> Node;
  RoleNameLabel : string;
  parsePortRange : string -> string -> string -> result (Z * Z);
  getPortInfo : string -> Z -> Z -> result (list portInfo);
  ToUpper : string -> string;   (* strings.ToUpper *)
}.

Section Service.
Context {helm : Helm} {env : KubeEnv}.

(** The body of the loop over the port infos of one port definition. *)
Definition add_port (headless : bool) (portDef : RoleRunExposedPort)
    (ports : list Node) (portInfoEntry : portInfo) : list Node :=
  let port :=
    NewMapping [("name", VString (name portInfoEntry));
                ("port", VInt (port portInfoEntry));
                ("protocol", VString (ToUpper (Protocol portDef)))] in
  let port :=
    if headless then Add port "targetPort" (VInt 0)
    else Add port "targetPort" (VString (name portInfoEntry)) in
  (ports ++ [port])%list.

(** The loop over [role.Run.ExposedPorts]; an error ends it. *)
Fixpoint exposed_ports (headless public : bool)
    (portDefs : list RoleRunExposedPort) (ports : list Node)
  : result (list Node) :=
  match portDefs with
  | [] => inr ports
  | portDef :: portDefs' =>
      if public && negb (Public portDef) then
        exposed_ports headless public portDefs' ports
      else
        match parsePortRange (External portDef) (PortName portDef) "external" with
        | inl err => inl err
        | inr (minPort, maxPort) =>
            match getPortInfo (PortName portDef) minPort maxPort with
            | inl err => inl err
            | inr portInfos =>
                exposed_ports headless public portDefs'
                  (fold_left (add_port headless portDef) portInfos ports)
            end
        end
  end.

(** [NewClusterIPService] creates a new k8s ClusterIP service; [inr None]
    is the [nil] node without error. *)
Definition NewClusterIPService (role : Role) (headless public : bool)
    (settings : ExportSettings) : result (option Node) :=
  match exposed_ports headless public (ExposedPorts (Run role)) [] with
  | inl err => inl err
  | inr ports =>
      if decide (length ports = 0%nat) then inr None
      else
        let spec := NewMapping [] in
        let spec :=
          Add spec "selector"
            (VNode (NewMapping [(RoleNameLabel, VString (RoleName role))])) in
        let spec := Add spec "type" (VString "ClusterIP") in
        let spec :=
          if headless then Add spec "clusterIP" (VString "None") else spec in
        let spec :=
          if public then
            let externalIP :=
              if CreateHelmChart settings
              then "{{ .Values.kube.external_ip | quote }}"
              else "192.168.77.77" in
            Add spec "externalIPs" (VNode (NewList [VString externalIP]))
          else spec in
        let spec := Add spec "ports" (VNode (NewNode (VNodes ports))) in
        let serviceName :=
          if headless then RoleName role ++ "-set"
          else if public then RoleName role ++ "-public"
          else RoleName role in
        let service := newTypeMeta "v1" "Service" in
        let service :=
          Add service "metadata"
            (VNode (NewMapping [("name", VString serviceName)])) in
        let service := Add service "spec" (VNode (Sort spec)) in
        inr (Some service)
  end.

Definition append_service (items : list Node) (svc : option Node) : list Node :=
  match svc with
  | Some svc => (items ++ [svc])%list
  | None => items
  end.

(** [NewClusterIPServiceList] creates a list of ClusterIP services. *)
Definition NewClusterIPServiceList (role : Role) (headless : bool)
    (settings : ExportSettings) : result (option Node) :=
  let items : list Node := [] in
  match
    (if headless then
       (* Create headless, private service *)
       match NewClusterIPService role true false settings with
       | inl err => inl err
       | inr svc => inr (append_service items svc)
       end
     else inr items)
  with
  | inl err => inl err
  | inr items =>
      (* Create private service *)
      match NewClusterIPService role false false settings with
      | inl err => inl err
      | inr svc =>
          let items := append_service items svc in
          (* Create public service *)
          match NewClusterIPService role false true settings with
          | inl err => inl err
          | inr svc =>
              let items := append_service items svc in
              if decide (length items = 0%nat) then inr None
              else
                let list := newTypeMeta "v1" "List" in
                let list := Add list "items" (VNode (NewNode (VNodes items))) in
                inr (Some (Sort list))
          end
      end
  end.

End Service.

(** A role with its exposed ports filtered. *)
Definition with_ports (role : Role) (ports : list RoleRunExposedPort) : Role :=
  {| RoleName := RoleName role; Run := {| ExposedPorts := ports |} |}.

(** A [helm] in which a node is the text of its construction. *)
Definition show_value (v : Value string) : string :=
  match v with
  | VString s => s
  | VInt n => if n =? 0 then "0" else "#"
  | VNode node => node
  | VNodes nodes => "[" ++ GoString.join "," nodes ++ "]"
  end.

Definition text_helm : Helm :=
  {| Node := string;
     NewMapping := fun kvs =>
       "{" ++ GoString.join ","
                (map (fun kv => fst kv ++ ":" ++ show_value (snd kv)) kvs) ++ "}";
     Add := fun node k v => node ++ "+" ++ k ++ ":" ++ show_value v;
     NewNode := show_value;
     NewList := fun vs => "[" ++ GoString.join "," (map show_value vs) ++ "]";
     Sort := fun node => node |}.

(** Ports are written as one number; port 0 is refused. *)
Definition sample_env : @KubeEnv text_helm :=
  {| newTypeMeta := fun version kind => (version ++ "/" ++ kind) : @Node text_helm;
     RoleNameLabel := "skiff-role-name";
     parsePortRange := fun external _ _ =>
       if decide (external = "0") then inl (Errorf "invalid external port")
       else inr (Z.of_nat (String.length external),
                 Z.of_nat (String.length external));
     getPortInfo := fun portName minPort _ =>
       inr [ {| name := portName; port := minPort |} ];
     ToUpper := fun s => s |}.

Definition sample_role : Role :=
  {| RoleName := "api";
     Run := {| ExposedPorts :=
       [ {| PortName := "http"; Protocol := "TCP"; External := "80";
            Public := true |};
         {| PortName := "admin"; Protocol := "TCP"; External := "8080";
            Public := false |} ] |} |}.

Definition sample_settings : ExportSettings := {| CreateHelmChart := false |}.

End Kube.

(** * Properties *)

(** ** Test vectors *)

Example sha1_abc :
  Hex.EncodeToString (Sha1.Sum "abc") = "a9993e364706816aba3e25717850c26c9cd0d89d".
Proof. vm_compute. reflexivity. Qed.

Example sha1_empty :
  Hex.EncodeToString (Sha1.Sum EmptyString) = "da39a3ee5e6b4b0d3255bfef95601890afd80709".
Proof. vm_compute. reflexivity. Qed.

Example sha1_two_blocks :
  Hex.EncodeToString
    (Sha1.Sum "abcdbcdecdefdefgefghfghighijhijkijkljklmklmnlmnomnopnopq")
  = "84983e441c3bd26ebaae4aa1f95129e5e54670f1".
Proof. vm_compute. reflexivity. Qed.

Example split_label :
  GoString.split "." "fingerprint.abc" = ["fingerprint"; "abc"].
Proof. reflexivity. Qed.

Example split_version :
  GoString.split "." "version.generator.fissile" = ["version"; "generator"; "fissile"].
Proof. reflexivity. Qed.

(** ** The order on Go strings *)

Section StringOrder.

Lemma less_lt a b : GoString.less a b = true <-> String.compare a b = Lt.
Proof.
  unfold GoString.less, String.ltb. destruct (String.compare a b); intuition congruence.
Qed.

Lemma less_irrefl a : GoString.less a a = false.
Proof.
  destruct (GoString.less a a) eqn:E; [|done].
  apply less_lt in E.
  assert (String.compare a a = Eq) as H
    by (apply OrderedTypeEx.String_as_OT.cmp_eq; done).
  congruence.
Qed.

Lemma less_trans a b c :
  GoString.less a b = true -> GoString.less b c = true -> GoString.less a c = true.
Proof.
  rewrite !less_lt. intros H1 H2.
  apply OrderedTypeEx.String_as_OT.cmp_lt.
  eapply OrderedTypeEx.String_as_OT.lt_trans;
    apply OrderedTypeEx.String_as_OT.cmp_lt; eassumption.
Qed.

Lemma less_asym a b : GoString.less a b = true -> GoString.less b a = false.
Proof.
  intros H. destruct (GoString.less b a) eqn:E; [|done].
  pose proof (less_trans _ _ _ H E) as H'. rewrite less_irrefl in H'. done.
Qed.

(** Two strings are equal or one is less than the other. *)
Lemma less_total a b :
  GoString.less a b = false -> GoString.less b a = false -> a = b.
Proof.
  intros H1 H2. apply String.compare_eq_iff.
  destruct (String.compare a b) eqn:E; [done | |].
  - apply less_lt in E. congruence.
  - assert (String.compare b a = Lt) as E'
      by (rewrite String.compare_antisym, E; done).
    apply less_lt in E'. congruence.
Qed.

Lemma not_less_trans a b c :
  GoString.less b a = false -> GoString.less c b = false ->
  GoString.less c a = false.
Proof.
  intros H1 H2. destruct (GoString.less c a) eqn:E; [|done].
  destruct (GoString.less a b) eqn:E'.
  - pose proof (less_trans _ _ _ E E'). congruence.
  - pose proof (less_total _ _ E' H1). subst. congruence.
Qed.

End StringOrder.

(** ** Sorting packages by fingerprint *)

Lemma fp_le_trans a b c : fp_le a b -> fp_le b c -> fp_le a c.
Proof. unfold fp_le, Packages_Less. intros. eapply not_less_trans; eassumption. Qed.

Lemma fp_le_antisym a b : fp_le a b -> fp_le b a -> Fingerprint a = Fingerprint b.
Proof. unfold fp_le, Packages_Less. intros. apply less_total; assumption. Qed.

Lemma Sorted_fp_head a l :
  Sorted fp_le (a :: l) -> forall b, b ∈ l -> fp_le a b.
Proof.
  intros H. apply Sorted_StronglySorted in H; [|intros x y z; apply fp_le_trans].
  inversion H as [|? ? _ Hall]; subst.
  intros b Hb. rewrite Forall_forall in Hall. by apply Hall.
Qed.

(** A list of packages with distinct fingerprints has one sorted
    arrangement only. *)
Lemma sorted_unique (l1 l2 : list Package) :
  l1 ≡ₚ l2 -> NoDup (Fingerprint <$> l1) ->
  Sorted fp_le l1 -> Sorted fp_le l2 -> l1 = l2.
Proof.
  revert l2. induction l1 as [|a l1 IH]; intros l2 Hp Hnd H1 H2.
  - by apply Permutation_nil_l in Hp.
  - destruct l2 as [|b l2].
    { apply Permutation_nil_r in Hp. done. }
    assert (a = b) as ->.
    { destruct (decide (a = b)) as [|Hne]; [done|exfalso].
      assert (a ∈ l2) as Ha.
      { assert (a ∈ b :: l2) as Hin by (rewrite <- Hp; left).
        apply elem_of_cons in Hin as [|]; done. }
      assert (b ∈ l1) as Hb.
      { assert (b ∈ a :: l1) as Hin by (rewrite Hp; left).
        apply elem_of_cons in Hin as [|]; [congruence|done]. }
      pose proof (Sorted_fp_head _ _ H1 _ Hb) as Hab.
      pose proof (Sorted_fp_head _ _ H2 _ Ha) as Hba.
      pose proof (fp_le_antisym _ _ Hab Hba) as Heq.
      rewrite fmap_cons in Hnd. apply NoDup_cons in Hnd as [Hnotin _].
      apply Hnotin. rewrite Heq. by apply list_elem_of_fmap_2. }
    f_equal. apply IH.
    + by apply Permutation_cons_inv in Hp.
    + rewrite fmap_cons in Hnd. by apply NoDup_cons in Hnd as [_ ?].
    + by inversion H1.
    + by inversion H2.
Qed.

Lemma insert_sorted_perm x l : insert_sorted x l ≡ₚ x :: l.
Proof.
  induction l as [|y l IH]; simpl; [done|].
  destruct (Packages_Less y x); [|done].
  rewrite IH. apply perm_swap.
Qed.

Lemma insert_sorted_sorted x l : Sorted fp_le l -> Sorted fp_le (insert_sorted x l).
Proof.
  induction l as [|y l IH]; simpl; intros Hs.
  - repeat constructor.
  - destruct (Packages_Less y x) eqn:E.
    + inversion Hs as [|? ? Hs' Hhd]; subst. constructor; [by apply IH|].
      destruct l as [|z l]; simpl.
      * constructor. unfold fp_le, Packages_Less in *. by apply less_asym.
      * destruct (Packages_Less z x) eqn:E'.
        -- inversion Hhd; subst. by constructor.
        -- constructor. unfold fp_le, Packages_Less in *. by apply less_asym.
    + constructor; [done|]. constructor. exact E.
Qed.

Lemma insertion_sort_perm l : insertion_sort l ≡ₚ l.
Proof.
  induction l as [|x l IH]; simpl; [done|].
  rewrite insert_sorted_perm. by rewrite IH.
Qed.

Lemma insertion_sort_sorted l : Sorted fp_le (insertion_sort l).
Proof.
  induction l as [|x l IH]; simpl; [constructor|].
  by apply insert_sorted_sorted.
Qed.

#[global] Instance simple_runtime_laws : GoRuntimeLaws simple_runtime.
Proof.
  split; simpl.
  - done.
  - apply insertion_sort_perm.
  - apply insertion_sort_sorted.
Qed.

#[global] Instance reverse_runtime_laws : GoRuntimeLaws reverse_runtime.
Proof.
  split; simpl.
  - intros. apply Permutation_sym, Permutation_rev.
  - apply insertion_sort_perm.
  - apply insertion_sort_sorted.
Qed.

(** ** Collecting the packages of the roles *)

Lemma fold_left_flat_map {A B S} (f : S -> B -> S) (g : A -> list B) l s :
  fold_left f (flat_map g l) s = fold_left (fun s x => fold_left f (g x) s) l s.
Proof.
  revert s. induction l as [|x l IH]; intros s; simpl; [done|].
  by rewrite fold_left_app, IH.
Qed.

(** The three nested loops are one loop over [gather]. *)
Lemma nested_loops_gather {S} (f : S -> Package -> S) roles s :
  fold_left (fun s r =>
    fold_left (fun s j => fold_left f (Packages j) s) (RoleJobs r) s) roles s
  = fold_left f (gather roles) s.
Proof.
  unfold gather. rewrite fold_left_flat_map.
  revert s. induction roles as [|r roles IH]; intros s; simpl; [done|].
  by rewrite IH, fold_left_flat_map.
Qed.

(** Filling a map by fingerprint keeps, for each fingerprint, the package
    inserted last. *)
Lemma insert_by_fp_lookup l m f :
  fold_left insert_by_fp l m !! f
  = match last (with_fp f l) with Some pkg => Some pkg | None => m !! f end.
Proof.
  revert m. induction l as [|a l IH]; intros m; simpl; [done|].
  rewrite IH. unfold with_fp. rewrite filter_cons.
  destruct (decide (Fingerprint a = f)) as [<-|Hne].
  - rewrite last_cons. destruct (last _); [done|].
    unfold insert_by_fp. by rewrite lookup_insert_eq.
  - destruct (last _); [done|].
    unfold insert_by_fp. by rewrite lookup_insert_ne.
Qed.

Lemma pkgMap_of_gather roles :
  pkgMap_of roles = fold_left insert_by_fp (gather roles) ∅.
Proof. unfold pkgMap_of. by rewrite (nested_loops_gather insert_by_fp). Qed.

Lemma pkgMap_of_lookup roles f :
  pkgMap_of roles !! f = last (with_fp f (gather roles)).
Proof.
  rewrite pkgMap_of_gather, insert_by_fp_lookup.
  destruct (last _); [done|]. apply lookup_empty.
Qed.

Lemma last_with_fp f l pkg :
  last (with_fp f l) = Some pkg -> Fingerprint pkg = f /\ pkg ∈ l.
Proof.
  intros H. apply last_Some_elem_of in H.
  unfold with_fp in H. by apply list_elem_of_filter in H.
Qed.

Lemma head_with_fp f l pkg :
  head (with_fp f l) = Some pkg -> Fingerprint pkg = f /\ pkg ∈ l.
Proof.
  intros H. apply head_Some_elem_of in H.
  unfold with_fp in H. by apply list_elem_of_filter in H.
Qed.

Lemma keyed_by_fp_keys m :
  keyed_by_fp m -> Fingerprint <$> (map_to_list m).*2 = (map_to_list m).*1.
Proof.
  intros Hk. rewrite <- list_fmap_compose.
  apply Forall_fmap_ext_1, Forall_forall. intros [k pkg] Hin.
  apply elem_of_map_to_list in Hin. simpl. eauto.
Qed.

Lemma keyed_by_fp_values m pkg :
  keyed_by_fp m ->
  pkg ∈ (map_to_list m).*2 <-> m !! Fingerprint pkg = Some pkg.
Proof.
  intros Hk. rewrite list_elem_of_fmap. split.
  - intros ([k v] & -> & Hin). apply elem_of_map_to_list in Hin.
    simpl. by rewrite (Hk _ _ Hin).
  - intros H. exists (Fingerprint pkg, pkg). split; [done|].
    by apply elem_of_map_to_list.
Qed.

Lemma fold_insert_keyed l m :
  keyed_by_fp m -> keyed_by_fp (fold_left insert_by_fp l m).
Proof.
  intros Hk k pkg. rewrite insert_by_fp_lookup.
  destruct (last (with_fp k l)) eqn:E.
  - intros [= <-]. by apply last_with_fp in E as [? _].
  - apply Hk.
Qed.

Lemma pkgMap_of_keyed roles : keyed_by_fp (pkgMap_of roles).
Proof. rewrite pkgMap_of_gather. apply fold_insert_keyed. intros k pkg. by rewrite lookup_empty. Qed.

Section RangeAndSort.
Context {rt : GoRuntime} {laws : GoRuntimeLaws rt}.

(** The values of a map ranged over in the runtime's order. *)
Lemma range_values_perm {A} (m : gmap string A) :
  (range_map m).*2 ≡ₚ (map_to_list m).*2.
Proof. unfold range_map. by rewrite range_order_perm. Qed.

Lemma range_keys_perm {A} (m : gmap string A) :
  (range_map m).*1 ≡ₚ (map_to_list m).*1.
Proof. unfold range_map. by rewrite range_order_perm. Qed.

Lemma sorted_packages_perm roles :
  sorted_packages roles ≡ₚ (map_to_list (pkgMap_of roles)).*2.
Proof. unfold sorted_packages. by rewrite sort_Sort_perm, range_values_perm. Qed.

Lemma sorted_packages_NoDup roles :
  NoDup (Fingerprint <$> sorted_packages roles).
Proof.
  rewrite sorted_packages_perm, keyed_by_fp_keys by apply pkgMap_of_keyed.
  apply NoDup_fst_map_to_list.
Qed.

Lemma sorted_packages_elem roles pkg :
  pkg ∈ sorted_packages roles
  <-> last (with_fp (Fingerprint pkg) (gather roles)) = Some pkg.
Proof.
  rewrite sorted_packages_perm, keyed_by_fp_values by apply pkgMap_of_keyed.
  by rewrite pkgMap_of_lookup.
Qed.

End RangeAndSort.

(** The sorted package list depends on the map only, not on the runtime. *)
Lemma sorted_packages_runtime rt1 rt2 roles roles' :
  GoRuntimeLaws rt1 -> GoRuntimeLaws rt2 ->
  pkgMap_of roles = pkgMap_of roles' ->
  @sorted_packages rt1 roles = @sorted_packages rt2 roles'.
Proof.
  intros L1 L2 Hm. apply sorted_unique.
  - rewrite !sorted_packages_perm. by rewrite Hm.
  - apply sorted_packages_NoDup.
  - apply (@sort_Sort_sorted rt1 L1).
  - apply (@sort_Sort_sorted rt2 L2).
Qed.

(** ** The first occurrences kept by the populator *)

Lemma collect_step_fold l found acc f :
  with_fp f (snd (fold_left collect_step l (found, acc)))
  = (with_fp f acc ++
     if decide (f ∈ found) then []
     else option_list (head (with_fp f l)))%list.
Proof.
  revert found acc. induction l as [|a l IH]; intros found acc; cbn [fold_left].
  - simpl. destruct (decide _); by rewrite app_nil_r.
  - destruct (collect_step (found, acc) a) as [found' acc'] eqn:E.
    rewrite IH. unfold collect_step in E. unfold with_fp at 4.
    rewrite filter_cons.
    destruct (decide (Fingerprint a ∈ found)) as [Hin|Hnin];
      injection E as <- <-.
    + destruct (decide (f ∈ found)); [done|].
      destruct (decide (Fingerprint a = f)); [congruence|done].
    + unfold with_fp at 1. rewrite filter_app, filter_cons.
      destruct (decide (Fingerprint a = f)) as [<-|Hne].
      * rewrite decide_True by set_solver. rewrite decide_False by done.
        simpl. by rewrite app_nil_r, filter_nil.
      * rewrite filter_nil, app_nil_r.
        destruct (decide (f ∈ found)).
        -- by rewrite decide_True by set_solver.
        -- rewrite decide_False; [done|].
           rewrite elem_of_union, elem_of_singleton. intros [?|?]; [done|congruence].
Qed.

Lemma collect_packages_gather roles :
  collect_packages roles = snd (fold_left collect_step (gather roles) (∅, [])).
Proof. unfold collect_packages. by rewrite (nested_loops_gather collect_step). Qed.

(** Of each fingerprint the populator keeps the first package, and only it. *)
Lemma collect_packages_with_fp roles f :
  with_fp f (collect_packages roles)
  = option_list (head (with_fp f (gather roles))).
Proof.
  rewrite collect_packages_gather.
  rewrite collect_step_fold. rewrite decide_False by set_solver. done.
Qed.

Lemma collect_packages_elem roles pkg :
  pkg ∈ collect_packages roles
  <-> head (with_fp (Fingerprint pkg) (gather roles)) = Some pkg.
Proof.
  split.
  - intros Hin.
    assert (pkg ∈ with_fp (Fingerprint pkg) (collect_packages roles)) as H
      by (by apply list_elem_of_filter).
    rewrite collect_packages_with_fp in H.
    destruct (head _); simpl in H; [|by apply elem_of_nil in H].
    apply list_elem_of_singleton in H. by subst.
  - intros H.
    assert (pkg ∈ with_fp (Fingerprint pkg) (collect_packages roles)) as Hin
      by (rewrite collect_packages_with_fp, H; simpl; left).
    by apply list_elem_of_filter in Hin as [_ ?].
Qed.

(** ** The image name *)

(** When packages that share a fingerprint are one and the same package,
    the map built from them does not depend on their order. *)
Lemma pkgMap_of_perm roles roles' :
  gather roles ≡ₚ gather roles' ->
  (forall a b, a ∈ gather roles -> b ∈ gather roles ->
               Fingerprint a = Fingerprint b -> a = b) ->
  pkgMap_of roles = pkgMap_of roles'.
Proof.
  intros Hp Hsame. apply map_eq. intros f. rewrite !pkgMap_of_lookup.
  assert (with_fp f (gather roles) ≡ₚ with_fp f (gather roles')) as Hf
    by (unfold with_fp; by rewrite Hp).
  destruct (last (with_fp f (gather roles))) as [x|] eqn:E1;
    destruct (last (with_fp f (gather roles'))) as [y|] eqn:E2; [| | |done].
  - apply last_with_fp in E1 as [Hx Hxin]. apply last_with_fp in E2 as [Hy Hyin].
    rewrite <- Hp in Hyin. f_equal. apply Hsame; congruence.
  - apply last_None in E2. rewrite E2 in Hf. apply Permutation_nil_r in Hf.
    rewrite Hf in E1. done.
  - apply last_None in E1. rewrite E1 in Hf. apply Permutation_nil_l in Hf.
    rewrite <- Hf in E2. done.
Qed.

(** C1 (as amended). The reference computed by [GetPackagesLayerImageName]
    is the same for a package list and for any permutation of it, under any
    map iteration order and any sorting algorithm, provided the packages
    that share a fingerprint are the same package (same name and content
    hash); and for one and the same input the reference never depends on
    the iteration order or the sorting algorithm. *)
Theorem image_name_order_independent rt1 rt2 u p roles roles' :
  GoRuntimeLaws rt1 -> GoRuntimeLaws rt2 ->
  (gather roles ≡ₚ gather roles' ->
   (forall a b, a ∈ gather roles -> b ∈ gather roles ->
                Fingerprint a = Fingerprint b -> a = b) ->
   @GetPackagesLayerImageName rt1 u p roles
   = @GetPackagesLayerImageName rt2 u p roles')
  /\ @GetPackagesLayerImageName rt1 u p roles
     = @GetPackagesLayerImageName rt2 u p roles.
Proof.
  intros L1 L2. split.
  - intros Hp Hsame. unfold GetPackagesLayerImageName.
    rewrite (sorted_packages_runtime rt1 rt2 roles roles'); auto using pkgMap_of_perm.
  - unfold GetPackagesLayerImageName.
    rewrite (sorted_packages_runtime rt1 rt2 roles roles); auto.
Qed.

Lemma image_name_order_independent_witness :
  @GetPackagesLayerImageName simple_runtime simple_util acme
    [one_role [pkg_f1_h1; pkg_f2]; one_role [pkg_f1_h1]]
  = @GetPackagesLayerImageName reverse_runtime simple_util acme
      [one_role [pkg_f2]; one_role [pkg_f1_h1; pkg_f1_h1]].
Proof.
  apply (proj1 (image_name_order_independent simple_runtime reverse_runtime
           simple_util acme [one_role [pkg_f1_h1; pkg_f2]; one_role [pkg_f1_h1]]
           [one_role [pkg_f2]; one_role [pkg_f1_h1; pkg_f1_h1]]
           simple_runtime_laws reverse_runtime_laws)).
  - simpl. apply perm_swap.
  - simpl. intros a b Ha Hb.
    repeat (apply elem_of_cons in Ha as [->|Ha]);
      repeat (apply elem_of_cons in Hb as [->|Hb]);
      try (by apply elem_of_nil in Ha); try (by apply elem_of_nil in Hb);
      simpl; congruence.
Defined.

(** C1, as stated, fails: two packages with one fingerprint and different
    content hashes, met in the two possible orders, give different tags. *)
Lemma image_name_permutation_counterexample :
  let roles := [one_role [pkg_f1_h1]; one_role [pkg_f1_h2]] in
  let roles' := [one_role [pkg_f1_h2]; one_role [pkg_f1_h1]] in
  gather roles ≡ₚ gather roles'
  /\ @GetPackagesLayerImageName simple_runtime simple_util acme roles
     = inr "acme-role-packages:81381703b679f374843a4dfe179cff2e16a38880"
  /\ @GetPackagesLayerImageName simple_runtime simple_util acme roles'
     = inr "acme-role-packages:210882475c3e0ecff720163bd6d3744bb49ae683"
  /\ @GetPackagesLayerImageName simple_runtime simple_util acme roles
     <> @GetPackagesLayerImageName simple_runtime simple_util acme roles'.
Proof.
  cbv zeta. split; [apply perm_swap|].
  assert (@GetPackagesLayerImageName simple_runtime simple_util acme
            [one_role [pkg_f1_h1]; one_role [pkg_f1_h2]]
          = inr "acme-role-packages:81381703b679f374843a4dfe179cff2e16a38880") as E1
    by (vm_compute; reflexivity).
  assert (@GetPackagesLayerImageName simple_runtime simple_util acme
            [one_role [pkg_f1_h2]; one_role [pkg_f1_h1]]
          = inr "acme-role-packages:210882475c3e0ecff720163bd6d3744bb49ae683") as E2
    by (vm_compute; reflexivity).
  rewrite E1, E2. repeat split. discriminate.
Qed.

Lemma sorted_packages_single {rt : GoRuntime} {laws : GoRuntimeLaws rt} roles pkg :
  gather roles = [pkg] -> sorted_packages roles = [pkg].
Proof.
  intros Hg. apply Permutation_singleton_r.
  rewrite sorted_packages_perm, pkgMap_of_gather, Hg. simpl.
  unfold insert_by_fp. rewrite insert_empty, map_to_list_singleton. done.
Qed.

(** C2. For repository "acme", version "1.2.3", stemcell image ID "sha:abc"
    and the single package (f1, p1, h1), the reference is
    "acme-role-packages" with, as tag, the hexadecimal SHA-1 digest of
    "1.2.3:sha:abc\0f1\0p1\0h1"; with content hash h2 the reference differs;
    computed again, under any runtime, it is the same. *)
Theorem image_name_example rt rt' u name path target roles roles2 :
  GoRuntimeLaws rt -> GoRuntimeLaws rt' -> UtilLaws u ->
  gather roles = [pkg_f1_h1] -> gather roles2 = [pkg_f1_h2] ->
  let p := acme_builder name path target in
  @GetPackagesLayerImageName rt u p roles
  = inr ("acme-role-packages:"
           ++ Hex.EncodeToString
                (Sha1.Sum ("1.2.3:sha:abc" ++ NUL ++ "f1" ++ NUL ++ "p1" ++ NUL ++ "h1")))
  /\ @GetPackagesLayerImageName rt u p roles
     = inr "acme-role-packages:210882475c3e0ecff720163bd6d3744bb49ae683"
  /\ @GetPackagesLayerImageName rt u p roles2
     <> @GetPackagesLayerImageName rt u p roles
  /\ @GetPackagesLayerImageName rt' u p roles
     = @GetPackagesLayerImageName rt u p roles.
Proof.
  intros L L' Lu Hg Hg2 p.
  assert (forall rt0 (L0 : GoRuntimeLaws rt0),
            @GetPackagesLayerImageName rt0 u p roles
            = inr "acme-role-packages:210882475c3e0ecff720163bd6d3744bb49ae683")
    as E1.
  { intros rt0 L0. unfold GetPackagesLayerImageName.
    rewrite (sorted_packages_single roles pkg_f1_h1 Hg).
    rewrite !sanitize_legal by (vm_compute; reflexivity).
    vm_compute. reflexivity. }
  assert (@GetPackagesLayerImageName rt u p roles2
          = inr "acme-role-packages:81381703b679f374843a4dfe179cff2e16a38880")
    as E2.
  { unfold GetPackagesLayerImageName.
    rewrite (sorted_packages_single roles2 pkg_f1_h2 Hg2).
    rewrite !sanitize_legal by (vm_compute; reflexivity).
    vm_compute. reflexivity. }
  rewrite E2. rewrite (E1 rt L). rewrite (E1 rt' L').
  split; [vm_compute; reflexivity|].
  split; [reflexivity|].
  split; [discriminate|reflexivity].
Qed.

Lemma simple_util_laws : UtilLaws simple_util.
Proof.
  split. simpl. induction s as [|c s IH]; simpl; [done|].
  intros H. apply andb_prop in H as [Hc Hs]. rewrite Hc. by rewrite IH.
Qed.

Lemma image_name_example_witness :
  @GetPackagesLayerImageName simple_runtime simple_util
    (acme_builder "stemcell" "/compiled" "/target") [one_role [pkg_f1_h2]]
  <> @GetPackagesLayerImageName simple_runtime simple_util
       (acme_builder "stemcell" "/compiled" "/target") [one_role [pkg_f1_h1]].
Proof.
  apply (image_name_example simple_runtime reverse_runtime simple_util
           "stemcell" "/compiled" "/target"
           [one_role [pkg_f1_h1]] [one_role [pkg_f1_h2]]
           simple_runtime_laws reverse_runtime_laws simple_util_laws
           eq_refl eq_refl).
Defined.

(** C10. The packages that enter the digest are, for each fingerprint met
    in the roles, exactly one package: the one met last. The populator keeps
    the one met first instead. *)
Theorem image_name_last_occurrence_wins rt u p roles :
  GoRuntimeLaws rt ->
  exists pkgs,
    @GetPackagesLayerImageName rt u p roles
    = inr (SanitizeDockerName (repository p ++ "-role-packages") ++ ":"
           ++ SanitizeDockerName
                (Hex.EncodeToString (Sha1.Sum (digest_input p pkgs))))
    /\ NoDup (Fingerprint <$> pkgs)
    /\ (forall pkg,
          pkg ∈ pkgs
          <-> last (with_fp (Fingerprint pkg) (gather roles)) = Some pkg)
    /\ (forall pkg,
          pkg ∈ collect_packages roles
          <-> head (with_fp (Fingerprint pkg) (gather roles)) = Some pkg).
Proof.
  intros L. exists (sorted_packages roles). split; [done|].
  split; [apply sorted_packages_NoDup|].
  split; intros pkg.
  - apply sorted_packages_elem.
  - apply collect_packages_elem.
Qed.

Lemma image_name_last_occurrence_wins_witness :
  exists pkgs,
    @GetPackagesLayerImageName simple_runtime simple_util acme
      [one_role [pkg_f1_h1; pkg_f2]; one_role [pkg_f1_h2]]
    = inr (@SanitizeDockerName simple_util (repository acme ++ "-role-packages")
           ++ ":"
           ++ @SanitizeDockerName simple_util
                (Hex.EncodeToString (Sha1.Sum (digest_input acme pkgs))))
    /\ NoDup (Fingerprint <$> pkgs)
    /\ (forall pkg,
          pkg ∈ pkgs
          <-> last (with_fp (Fingerprint pkg)
                      (gather [one_role [pkg_f1_h1; pkg_f2]; one_role [pkg_f1_h2]]))
              = Some pkg)
    /\ (forall pkg,
          pkg ∈ collect_packages [one_role [pkg_f1_h1; pkg_f2]; one_role [pkg_f1_h2]]
          <-> head (with_fp (Fingerprint pkg)
                      (gather [one_role [pkg_f1_h1; pkg_f2]; one_role [pkg_f1_h2]]))
              = Some pkg).
Proof.
  exact (image_name_last_occurrence_wins simple_runtime simple_util acme
           [one_role [pkg_f1_h1; pkg_f2]; one_role [pkg_f1_h2]]
           simple_runtime_laws).
Defined.

(** C5. Of every fingerprint referenced by the roles, the package set
    resolved by the populator holds exactly one package, the first one met
    in the order of roles, role jobs and packages. *)
Theorem populator_first_occurrence_wins roles f :
  f ∈ Fingerprint <$> gather roles ->
  exists pkg,
    with_fp f (collect_packages roles) = [pkg]
    /\ head (with_fp f (gather roles)) = Some pkg
    /\ Fingerprint pkg = f.
Proof.
  intros Hin. apply list_elem_of_fmap in Hin as (x & -> & Hx).
  rewrite collect_packages_with_fp.
  destruct (head (with_fp (Fingerprint x) (gather roles))) as [pkg|] eqn:E.
  - exists pkg. apply head_with_fp in E as [? _]. done.
  - apply head_None in E.
    assert (x ∈ with_fp (Fingerprint x) (gather roles)) as H
      by (by apply list_elem_of_filter).
    rewrite E in H. by apply elem_of_nil in H.
Qed.

Lemma populator_first_occurrence_wins_witness :
  exists pkg,
    with_fp "f1" (collect_packages [one_role [pkg_f2; pkg_f1_h1]; one_role [pkg_f1_h2]])
    = [pkg]
    /\ head (with_fp "f1" (gather [one_role [pkg_f2; pkg_f1_h1]; one_role [pkg_f1_h2]]))
       = Some pkg
    /\ Fingerprint pkg = "f1".
Proof.
  apply (populator_first_occurrence_wins
           [one_role [pkg_f2; pkg_f1_h1]; one_role [pkg_f1_h2]] "f1").
  simpl. right. left.
Defined.

(** ** Splitting labels *)

Lemma split_nonempty sep s : GoString.split sep s <> [].
Proof.
  destruct s as [|c s]; simpl; [done|].
  destruct (Ascii.eqb c sep); [done|].
  destruct (GoString.split sep s); done.
Qed.

Lemma join_split sep s :
  GoString.join (String sep EmptyString) (GoString.split sep s) = s.
Proof.
  induction s as [|c s IH]; [done|]. simpl.
  pose proof (split_nonempty sep s) as Hne.
  destruct (Ascii.eqb c sep) eqn:E.
  - apply Ascii.eqb_eq in E. subst c.
    destruct (GoString.split sep s) as [|q qs]; [done|].
    simpl in *. by rewrite IH.
  - destruct (GoString.split sep s) as [|q qs]; [done|].
    destruct qs; simpl in *; by rewrite <- IH.
Qed.

Lemma split_single sep s :
  GoString.contains sep s = false <-> GoString.split sep s = [s].
Proof.
  induction s as [|c s IH]; simpl; [done|].
  pose proof (split_nonempty sep s) as Hne.
  destruct (Ascii.eqb c sep) eqn:E; simpl.
  - split; [done|]. intros [=].
  - rewrite IH. destruct (GoString.split sep s) as [|q qs]; [done|].
    split; intros [= -> ->]; done.
Qed.

(** A label has the two-part shape of the fingerprint [f] exactly when it
    is "fingerprint." followed by [f] and [f] holds no dot. *)
Lemma split_fingerprint_label label f :
  GoString.split "." label = ["fingerprint"; f]
  <-> label = "fingerprint." ++ f /\ GoString.contains "." f = false.
Proof.
  split.
  - intros H. pose proof (join_split "." label) as Hj. rewrite H in Hj.
    simpl in Hj. subst label. split; [done|].
    simpl in H. injection H as H. apply split_single. exact H.
  - intros [-> Hf]. apply split_single in Hf. simpl. f_equal. exact Hf.
Qed.

(** ** The layer matcher *)

#[global] Instance covers_dec labels f : Decision (covers labels f).
Proof.
  refine (cast_if (decide (Exists
    (fun label => GoString.split "." label = ["fingerprint"; f]) labels)));
    unfold covers; rewrite Exists_exists in *; done.
Defined.

Lemma classic_covers labels f : covers labels f \/ ~ covers labels f.
Proof. destruct (decide (covers labels f)); auto. Qed.

Lemma drop_covered_lookup m label f :
  drop_covered m label !! f
  = if decide (GoString.split "." label = ["fingerprint"; f]) then None
    else m !! f.
Proof.
  unfold drop_covered.
  destruct (GoString.split "." label) as [|a [|b [|c parts]]]; simpl;
    [done | by rewrite decide_False by done | | by rewrite decide_False by done].
  destruct (decide (a = "fingerprint")) as [->|Hne].
  - rewrite decide_False by (intros [?|?]; done).
    destruct (decide (b = f)) as [->|Hne].
    + rewrite decide_True by done. apply lookup_delete_eq.
    + rewrite decide_False by congruence. by apply lookup_delete_ne.
  - rewrite decide_True by (by right).
    rewrite decide_False by congruence. done.
Qed.

Lemma fold_drop_covered_lookup labels m f :
  (covers labels f -> fold_left drop_covered labels m !! f = None)
  /\ (~ covers labels f -> fold_left drop_covered labels m !! f = m !! f).
Proof.
  revert m. induction labels as [|label labels IH]; intros m; simpl.
  - split; [|done]. intros (l & Hl & _). by apply elem_of_nil in Hl.
  - destruct (IH (drop_covered m label)) as [IH1 IH2]. split.
    + intros (l & Hl & Hs).
      destruct (decide (GoString.split "." label = ["fingerprint"; f])) as [Hd|Hd].
      * destruct (classic_covers labels f) as [Hc|Hc].
        -- by apply IH1.
        -- rewrite IH2, drop_covered_lookup by done. by rewrite decide_True.
      * apply IH1. apply elem_of_cons in Hl as [->|Hl]; [done|]. by exists l.
    + intros Hc. rewrite IH2, drop_covered_lookup.
      * rewrite decide_False; [done|]. intros Hs. apply Hc. exists label.
        split; [left|done].
      * intros (l & Hl & Hs). apply Hc. exists l. split; [by right|done].
Qed.

Lemma remaining_after_lookup keys pkgs f pkg :
  remaining_after keys pkgs !! f = Some pkg
  <-> ~ covers keys f /\ last (with_fp f pkgs) = Some pkg.
Proof.
  unfold remaining_after.
  destruct (fold_drop_covered_lookup keys (fold_left insert_by_fp pkgs ∅) f)
    as [H1 H2].
  assert (fold_left insert_by_fp pkgs ∅ !! f = last (with_fp f pkgs)) as Hl.
  { rewrite insert_by_fp_lookup. destruct (last _); [done|apply lookup_empty]. }
  destruct (classic_covers keys f) as [Hc|Hc].
  - rewrite H1 by done. split; [done|]. intros [? _]. done.
  - rewrite H2, Hl by done. split; [done|]. by intros [_ ?].
Qed.

Lemma remaining_after_keyed keys pkgs : keyed_by_fp (remaining_after keys pkgs).
Proof.
  intros k pkg H. apply remaining_after_lookup in H as [_ H].
  by apply last_with_fp in H as [? _].
Qed.

Lemma elem_of_map_keys {A} (m : gmap string A) k :
  k ∈ (map_to_list m).*1 <-> k ∈ dom m.
Proof.
  rewrite elem_of_dom, list_elem_of_fmap. split.
  - intros ([k' v] & -> & Hin). apply elem_of_map_to_list in Hin. by exists v.
  - intros [v Hv]. exists (k, v). split; [done|]. by apply elem_of_map_to_list.
Qed.

Section LayerMatcherProperties.
Context {rt : GoRuntime} {laws : GoRuntimeLaws rt} {dk : Docker}.

Lemma range_keys_dom {A} (m : gmap string A) k :
  k ∈ (range_map m).*1 <-> k ∈ dom m.
Proof. by rewrite range_keys_perm, elem_of_map_keys. Qed.

(** What the layer matcher returns when the catalog answers. *)
Lemma determine_returns p pkgs w img (covered : gmap string string) :
  NewImageManager = None ->
  FindBestImageWithLabels (effective_base w p) (fingerprint_labels pkgs)
    [fissileVersionLabel p] = inr (img, covered) ->
  determinePackagesLayerBaseImage p pkgs w
  = (inr (img,
          (range_map (remaining_after (range_map covered).*1 pkgs)).*2),
     log_lookup w (catalog_query w p pkgs)).
Proof.
  intros Hm Hf. unfold determinePackagesLayerBaseImage.
  rewrite Hm. fold (effective_base w p). fold (fingerprint_labels pkgs).
  rewrite Hf. reflexivity.
Qed.

Lemma residual_elem (covered : gmap string string) pkgs pkg :
  pkg ∈ (range_map (remaining_after (range_map covered).*1 pkgs)).*2
  <-> last (with_fp (Fingerprint pkg) pkgs) = Some pkg
      /\ ~ exists label,
             label ∈ dom covered
             /\ GoString.split "." label = ["fingerprint"; Fingerprint pkg].
Proof.
  rewrite range_values_perm, keyed_by_fp_values by apply remaining_after_keyed.
  rewrite remaining_after_lookup. unfold covers.
  split.
  - intros [Hno Hl]. split; [done|]. intros (label & Hin & Hs).
    apply Hno. exists label. split; [|done]. by apply range_keys_dom.
  - intros [Hl Hno]. split; [|done]. intros (label & Hin & Hs).
    apply Hno. exists label. split; [|done]. by apply range_keys_dom in Hin.
Qed.

Lemma residual_NoDup (covered : gmap string string) pkgs :
  NoDup (range_map (remaining_after (range_map covered).*1 pkgs)).*2.
Proof.
  apply (NoDup_fmap_1 Fingerprint).
  rewrite range_values_perm, keyed_by_fp_keys by apply remaining_after_keyed.
  apply NoDup_fst_map_to_list.
Qed.

End LayerMatcherProperties.

(** C3 (as amended). When the catalog answers [(img, covered)], the layer
    matcher returns [img] and a residual list that holds no package twice,
    only packages of the requested list, and so is not longer than it; a
    package is in the residual exactly when it is the one requested last
    for its fingerprint and no covered label splits at its dots into
    "fingerprint" and that fingerprint, whatever other labels are covered.
    So no returned package whose fingerprint is free of dots has its label
    "fingerprint.<fp>" among the covered labels. *)
Theorem layer_matcher_residual rt dk p pkgs w img covered :
  GoRuntimeLaws rt ->
  @NewImageManager dk = None ->
  @FindBestImageWithLabels dk (effective_base w p) (fingerprint_labels pkgs)
    [fissileVersionLabel p] = inr (img, covered) ->
  exists residual,
    @determinePackagesLayerBaseImage rt dk p pkgs w
    = (inr (img, residual), log_lookup w (catalog_query w p pkgs))
    /\ NoDup residual
    /\ residual ⊆ pkgs
    /\ (length residual <= length pkgs)%nat
    /\ (forall pkg,
          pkg ∈ residual
          <-> last (with_fp (Fingerprint pkg) pkgs) = Some pkg
              /\ ~ exists label,
                     label ∈ dom covered
                     /\ GoString.split "." label
                        = ["fingerprint"; Fingerprint pkg])
    /\ (forall pkg,
          pkg ∈ residual ->
          GoString.contains "." (Fingerprint pkg) = false ->
          "fingerprint." ++ Fingerprint pkg ∉ dom covered).
Proof.
  intros L Hm Hf. eexists. split; [by apply determine_returns|].
  assert (forall pkg,
            pkg ∈ (range_map (remaining_after (range_map covered).*1 pkgs)).*2
            -> pkg ∈ pkgs) as Hsub.
  { intros pkg Hin. apply residual_elem in Hin as [Hl _].
    by apply last_with_fp in Hl as [_ ?]. }
  split; [apply residual_NoDup|].
  split; [exact Hsub|].
  split.
  { apply submseteq_length, NoDup_submseteq; [apply residual_NoDup|exact Hsub]. }
  split; [intros pkg; apply residual_elem|].
  intros pkg Hin Hdots Hlabel. apply residual_elem in Hin as [_ Hno].
  apply Hno. exists ("fingerprint." ++ Fingerprint pkg). split; [done|].
  by apply split_fingerprint_label.
Qed.

Lemma layer_matcher_residual_witness :
  exists residual,
    @determinePackagesLayerBaseImage simple_runtime
      (catalog_with "cached" ["fingerprint.f1"; "version.generator.fissile"])
      acme [pkg_f1_h1; pkg_f2] fresh_world
    = (inr ("cached", residual),
       log_lookup fresh_world (catalog_query fresh_world acme [pkg_f1_h1; pkg_f2]))
    /\ residual = [pkg_f2].
Proof.
  destruct (layer_matcher_residual simple_runtime
              (catalog_with "cached" ["fingerprint.f1"; "version.generator.fissile"])
              acme [pkg_f1_h1; pkg_f2] fresh_world "cached"
              (list_to_map [("fingerprint.f1", EmptyString);
                            ("version.generator.fissile", EmptyString)])
              simple_runtime_laws eq_refl eq_refl)
    as (residual & Hrun & _).
  exists residual. split; [exact Hrun|].
  vm_compute in Hrun. by injection Hrun as <-.
Defined.

(** C3, as stated, fails for a fingerprint that holds a dot: its label is
    covered, it does not have the two-part shape, and the package is
    returned. *)
Lemma layer_matcher_residual_counterexample :
  let dk := catalog_with "cached" ["fingerprint.a.b"] in
  exists covered,
    @FindBestImageWithLabels dk (effective_base fresh_world acme)
      (fingerprint_labels [pkg_dotted]) [fissileVersionLabel acme]
    = inr ("cached", covered)
    /\ fst (@determinePackagesLayerBaseImage simple_runtime dk acme
              [pkg_dotted] fresh_world)
       = inr ("cached", [pkg_dotted])
    /\ "fingerprint." ++ Fingerprint pkg_dotted ∈ dom covered.
Proof.
  cbv zeta. eexists. split; [reflexivity|]. split; [vm_compute; reflexivity|].
  apply elem_of_dom. eexists. vm_compute. reflexivity.
Qed.

(** C8 (as amended). With no package requested and a catalog that answers
    [(img, covered)], the layer matcher returns [img], the image the catalog
    matched, and an empty residual; that is the stemcell image when no base
    image override is set and the catalog answers the base image name it
    was asked about. *)
Theorem layer_matcher_no_packages rt dk p w img covered :
  GoRuntimeLaws rt ->
  @NewImageManager dk = None ->
  @FindBestImageWithLabels dk (effective_base w p) [] [fissileVersionLabel p]
  = inr (img, covered) ->
  @determinePackagesLayerBaseImage rt dk p [] w
  = (inr (img, []), log_lookup w (catalog_query w p []))
  /\ (baseImageOverride w = EmptyString -> img = effective_base w p ->
      @determinePackagesLayerBaseImage rt dk p [] w
      = (inr (stemcellImageName p, []), log_lookup w (catalog_query w p []))).
Proof.
  intros L Hm Hf.
  assert (@determinePackagesLayerBaseImage rt dk p [] w
          = (inr (img, []), log_lookup w (catalog_query w p []))) as E.
  { rewrite (determine_returns p [] w img covered Hm Hf). do 2 f_equal. f_equal.
    destruct (range_map _).*2 as [|pkg l] eqn:El; [done|exfalso].
    assert (pkg ∈ (range_map (remaining_after (range_map covered).*1 [])).*2)
      as Hin by (rewrite El; left).
    apply residual_elem in Hin as [Hl _]. done. }
  split; [exact E|].
  intros Ho Hi. rewrite E, Hi. unfold effective_base. rewrite Ho.
  by rewrite decide_False by (intros H; by apply H).
Qed.

Lemma layer_matcher_no_packages_witness :
  @determinePackagesLayerBaseImage simple_runtime empty_catalog acme [] fresh_world
  = (inr (stemcellImageName acme, []),
     log_lookup fresh_world (catalog_query fresh_world acme [])).
Proof.
  apply (proj2 (layer_matcher_no_packages simple_runtime empty_catalog acme
                  fresh_world "stemcell" ∅ simple_runtime_laws eq_refl eq_refl));
    reflexivity.
Defined.

(** C8, as stated, fails: the base image returned is the catalog's answer,
    here an image that carries the mandatory version label; and with the
    base image override set, a catalog that knows no image answers the
    override. *)
Lemma layer_matcher_no_packages_counterexample :
  let dk := catalog_with "cached" ["version.generator.fissile"] in
  let overridden :=
    {| stream := []; baseImageOverride := "test-base"; lookups := [] |} in
  fst (@determinePackagesLayerBaseImage simple_runtime dk acme [] fresh_world)
  = inr ("cached", [])
  /\ "cached" <> stemcellImageName acme
  /\ fst (@determinePackagesLayerBaseImage simple_runtime empty_catalog acme []
            overridden)
     = inr ("test-base", [])
  /\ "test-base" <> stemcellImageName acme.
Proof.
  cbv zeta. split; [vm_compute; reflexivity|]. split; [discriminate|].
  split; [vm_compute; reflexivity|discriminate].
Qed.

(** ** Writing to the stream *)

Lemma extended_refl w : extended w w [].
Proof. unfold extended. by rewrite app_nil_r. Qed.

Lemma extended_trans w1 w2 w3 ext1 ext2 :
  extended w1 w2 ext1 -> extended w2 w3 ext2 -> extended w1 w3 (ext1 ++ ext2).
Proof.
  intros (S1 & O1 & L1) (S2 & O2 & L2). unfold extended.
  rewrite S2, S1, O2, O1, L2, L1. by rewrite app_assoc.
Qed.

Lemma appends_ret {A} (a : A) Q : appends (ret a) Q.
Proof.
  intros w r w' [= <- <-]. exists []. split; [apply extended_refl|by constructor].
Qed.

Lemma appends_fail {A} e Q : appends (@fail A e) Q.
Proof.
  intros w r w' [= <- <-]. exists []. split; [apply extended_refl|by constructor].
Qed.

Lemma appends_lift {A} (x : result A) Q : appends (lift x) Q.
Proof. destruct x; [apply appends_fail|apply appends_ret]. Qed.

Lemma appends_bind {A B} (m : M A) (k : A -> M B) Q :
  appends m Q -> (forall a, appends (k a) Q) -> appends (bind m k) Q.
Proof.
  intros Hm Hk w r w'. unfold bind.
  destruct (m w) as [[e|a] w1] eqn:E.
  - intros [= <- <-]. destruct (Hm _ _ _ E) as (ext & Hext & _).
    exists ext. split; [done|]. intros [].
  - intros E2. destruct (Hm _ _ _ E) as (ext1 & Hext1 & HQ1).
    destruct (Hk a _ _ _ E2) as (ext2 & Hext2 & HQ2).
    exists (ext1 ++ ext2)%list. split; [by eapply extended_trans|].
    intros Hr. apply Forall_app. split; [by apply HQ1|by apply HQ2].
Qed.

Lemma appends_weaken {A} (m : M A) (Q Q' : TarEntry -> Prop) :
  (forall e, Q e -> Q' e) -> appends m Q -> appends m Q'.
Proof.
  intros HQ Hm w r w' E. destruct (Hm _ _ _ E) as (ext & Hext & Hall).
  exists ext. split; [done|]. intros Hr. eapply Forall_impl; [by apply Hall|done].
Qed.

Lemma appends_for_each {A} (l : list A) (body : A -> M unit) Q :
  (forall x, x ∈ l -> appends (body x) Q) -> appends (for_each l body) Q.
Proof.
  induction l as [|x l IH]; intros Hb; simpl; [apply appends_ret|].
  apply appends_bind; [apply Hb; left|]. intros _. apply IH.
  intros y Hy. apply Hb. by right.
Qed.

Section TarWriterProperties.
Context {ts : TarStream}.

Lemma write_header_only (hdr : TarHeader) Q :
  Q {| header := hdr; data := EmptyString |} -> appends (WriteHeader hdr) Q.
Proof.
  intros HQ0 w r w'. unfold WriteHeader.
  destruct (stream_fault (stream w)) as [err|] eqn:Ef.
  { intros [= <- <-]. exists []. split; [apply extended_refl|intros []]. }
  destruct (decide (owed (stream w) ≠ 0)) as [Ho|Ho].
  { intros [= <- <-]. exists []. split; [apply extended_refl|intros []]. }
  intros [= <- <-]. exists [ {| header := hdr; data := EmptyString |} ].
  split; [done|]. intros _. by repeat constructor.
Qed.

(** An entry written whole: its header, then its bytes. *)
Lemma write_entry_exact (hdr : TarHeader) (bytes : string) w r w' :
  bind (WriteHeader hdr) (fun _ => Write bytes) w = (r, w') ->
  exists ext,
    extended w w' ext
    /\ (succeeded r -> ext = [ {| header := hdr; data := bytes |} ]).
Proof.
  unfold bind, WriteHeader.
  destruct (stream_fault (stream w)) as [err|] eqn:Ef.
  { intros [= <- <-]. exists []. split; [apply extended_refl|intros []]. }
  destruct (decide (owed (stream w) ≠ 0)) as [Ho|Ho].
  { intros [= <- <-]. exists []. split; [apply extended_refl|intros []]. }
  set (e0 := {| header := hdr; data := EmptyString |}).
  set (w1 := set_stream w (stream w ++ [e0])).
  assert (extended w w1 [e0]) as Hext1 by done.
  unfold Write. destruct (stream_fault (stream w1)).
  { intros [= <- <-]. exists [e0]. split; [done|intros []]. }
  unfold w1 at 1 2. simpl stream. rewrite last_snoc.
  destruct (decide _).
  - intros [= <- <-]. exists [ {| header := hdr; data := bytes |} ].
    split; [|done]. unfold extended. simpl. by rewrite removelast_last.
  - intros [= <- <-]. exists [e0]. split; [done|intros []].
Qed.

Lemma write_entry (hdr : TarHeader) (bytes : string) Q :
  Q {| header := hdr; data := bytes |} ->
  appends (bind (WriteHeader hdr) (fun _ => Write bytes)) Q.
Proof.
  intros HQ w r w' E.
  destruct (write_entry_exact _ _ _ _ _ E) as (ext & Hext & Hs).
  exists ext. split; [done|]. intros Hr. rewrite (Hs Hr). by repeat constructor.
Qed.

(** A header written, and then a failure. *)
Lemma write_header_fail {A} (hdr : TarHeader) (e : error) Q :
  appends (bind (WriteHeader hdr) (fun _ => @fail A e)) Q.
Proof.
  intros w r w'. unfold bind, WriteHeader.
  destruct (stream_fault (stream w)) as [err|] eqn:Ef.
  { intros [= <- <-]. exists []. split; [apply extended_refl|intros []]. }
  destruct (decide (owed (stream w) ≠ 0)) as [Ho|Ho].
  { intros [= <- <-]. exists []. split; [apply extended_refl|intros []]. }
  intros [= <- <-]. exists [ {| header := hdr; data := EmptyString |} ].
  split; [done|intros []].
Qed.

Lemma WriteToTarStream_exact bytes hdr w r w' :
  WriteToTarStream bytes hdr w = (r, w') ->
  exists ext,
    extended w w' ext
    /\ (succeeded r -> ext = [ {| header := sized hdr bytes; data := bytes |} ]).
Proof. apply write_entry_exact. Qed.

End TarWriterProperties.

(** ** File modes *)

Lemma file_mode_land m t X :
  Z.land 511 X = 0 -> Z.land ModeSetgid X = 0 -> Z.land ModeSetuid X = 0 ->
  Z.land ModeSticky X = 0 ->
  Z.land (file_mode m t) X = Z.land t X.
Proof.
  intros Hp Hg Hu Hs. unfold file_mode. cbv zeta.
  destruct (has_bit m S_ISGID), (has_bit m S_ISUID), (has_bit m S_ISVTX);
    rewrite ?Z.land_lor_distr_l, <- ?Z.land_assoc, ?Hp, ?Hg, ?Hu, ?Hs,
      ?Z.land_0_r, ?Z.lor_0_r; reflexivity.
Qed.

Ltac type_bits := rewrite file_mode_land by reflexivity; reflexivity.

Lemma file_not_symlink m : (Z.land (file_mode m 0) ModeSymlink =? 0) = true.
Proof. type_bits. Qed.

Lemma file_regular m : IsRegular (file_mode m 0) = true.
Proof. unfold IsRegular. type_bits. Qed.

Lemma file_not_dir m : IsDir (file_mode m 0) = false.
Proof. unfold IsDir. type_bits. Qed.

Lemma symlink_is_symlink m :
  (Z.land (file_mode m ModeSymlink) ModeSymlink =? 0) = false.
Proof. type_bits. Qed.

Lemma symlink_not_regular m : IsRegular (file_mode m ModeSymlink) = false.
Proof. unfold IsRegular. type_bits. Qed.

Lemma symlink_not_dir m : IsDir (file_mode m ModeSymlink) = false.
Proof. unfold IsDir. type_bits. Qed.

Lemma dir_not_symlink m :
  (Z.land (file_mode m ModeDir) ModeSymlink =? 0) = true.
Proof. type_bits. Qed.

Lemma dir_not_regular m : IsRegular (file_mode m ModeDir) = false.
Proof. unfold IsRegular. type_bits. Qed.

Lemma dir_is_dir m : IsDir (file_mode m ModeDir) = true.
Proof. unfold IsDir. type_bits. Qed.

Lemma special_not_symlink kind m :
  (Z.land (file_mode m (special_type kind)) ModeSymlink =? 0) = true.
Proof. destruct kind; type_bits. Qed.

Lemma special_not_regular kind m :
  IsRegular (file_mode m (special_type kind)) = false.
Proof. unfold IsRegular. destruct kind; type_bits. Qed.

Lemma special_not_dir kind m : IsDir (file_mode m (special_type kind)) = false.
Proof. unfold IsDir. destruct kind; type_bits. Qed.

Lemma substring_all s : String.substring 0 (String.length s) s = s.
Proof. induction s as [|c s IH]; simpl; [done|]. by rewrite IH. Qed.

Lemma take_exactly_all content :
  take_exactly (GoString.len content) content = inr content.
Proof.
  unfold take_exactly. rewrite decide_True by lia.
  unfold GoString.len. by rewrite Nat2Z.id, substring_all.
Qed.

(** ** Strings *)

Lemma append_cons x (a b : string) : String x a ++ b = String x (a ++ b).
Proof. reflexivity. Qed.

Lemma append_assoc (a b c : string) : (a ++ b) ++ c = a ++ (b ++ c).
Proof.
  induction a as [|x a IH]; [reflexivity|]. by rewrite !append_cons, IH.
Qed.

Lemma append_nil_r (a : string) : a ++ EmptyString = a.
Proof. induction a as [|x a IH]; [reflexivity|]. by rewrite append_cons, IH. Qed.

Lemma split_app sep a b :
  GoString.contains sep a = false ->
  GoString.split sep (a ++ String sep b) = a :: GoString.split sep b.
Proof.
  induction a as [|c a IH]; simpl.
  - intros _. by rewrite Ascii.eqb_refl.
  - intros H. apply orb_false_elim in H as [Hc Ha]. rewrite Hc, IH by done.
    reflexivity.
Qed.

(** ** Paths *)

Lemma join_cons sep p ps :
  ps <> [] -> GoString.join sep (p :: ps) = p ++ sep ++ GoString.join sep ps.
Proof. by destruct ps. Qed.

Lemma join_app sep l k :
  l <> [] -> k <> [] ->
  GoString.join sep (l ++ k)%list
  = GoString.join sep l ++ sep ++ GoString.join sep k.
Proof.
  intros Hl Hk. induction l as [|p l IH]; [done|].
  destruct l as [|q l].
  - cbn [app]. by rewrite join_cons.
  - change ((p :: q :: l) ++ k)%list with (p :: ((q :: l) ++ k))%list.
    rewrite join_cons by done. rewrite IH by done.
    rewrite (join_cons sep p (q :: l)) by done.
    by rewrite !append_assoc.
Qed.

Lemma split_plain sep a :
  GoString.contains sep a = false -> GoString.split sep a = [a].
Proof.
  induction a as [|c a IH]; [done|]. cbn [GoString.contains GoString.split].
  intros H. apply orb_false_elim in H as [Hc Ha]. by rewrite Hc, IH.
Qed.

Lemma split_join sep names :
  names <> [] ->
  Forall (fun name => GoString.contains sep name = false) names ->
  GoString.split sep (GoString.join (String sep EmptyString) names) = names.
Proof.
  intros Hne Hall. induction names as [|name names IH]; [done|].
  apply Forall_cons in Hall as [Hname Hall].
  destruct names as [|name' names]; [by apply split_plain|].
  rewrite join_cons by done.
  change (String sep EmptyString ++ ?s) with (String sep s).
  rewrite split_app by done. by rewrite IH.
Qed.

(** Cleaning keeps plain elements as they are. *)
Lemma clean_elements_plain rooted dotdot kept names rest :
  Forall path_element names ->
  clean_elements rooted dotdot kept (names ++ rest)
  = clean_elements rooted dotdot (rev names ++ kept) rest.
Proof.
  intros Hall. revert kept.
  induction Hall as [|name names (Hne & Hdot & Hdotdot & _) _ IH]; intros kept;
    [done|].
  cbn [app clean_elements].
  rewrite decide_False by (intros [?|?]; done).
  rewrite decide_False by done.
  rewrite IH. cbn [rev]. by rewrite <- app_assoc.
Qed.

Lemma join_elements_first names name :
  path_element name ->
  exists c s, GoString.join "/" (name :: names) = String c s
              /\ Ascii.eqb c "/" = false.
Proof.
  intros (Hne & _ & _ & Hslash). destruct name as [|c name]; [done|].
  cbn [GoString.contains] in Hslash. apply orb_false_elim in Hslash as [Hc _].
  destruct names as [|name' names]; [by exists c, name|].
  rewrite join_cons by done. rewrite append_cons. by eexists _, _.
Qed.

(** A path of plain elements, followed or not by a dot, is cleaned to the
    path of these elements. *)
Lemma Clean_elements names rest :
  names <> [] -> Forall path_element names ->
  rest = [] \/ rest = ["."] ->
  filepath_Clean (GoString.join "/" (names ++ rest))
  = GoString.join "/" names.
Proof.
  intros Hne Hall Hrest.
  assert (Forall (fun name => GoString.contains "/" name = false) (names ++ rest))
    as Hslash.
  { apply Forall_app. split.
    - eapply Forall_impl; [exact Hall|]. by intros name (_ & _ & _ & ?).
    - destruct Hrest as [->| ->]; by repeat constructor. }
  destruct names as [|name names]; [done|].
  destruct (join_elements_first (names ++ rest) name) as (c & s & Hj & Hc);
    [by apply Forall_cons in Hall as [? _]|].
  unfold filepath_Clean.
  change ((name :: names) ++ rest)%list with (name :: (names ++ rest))%list in *.
  rewrite Hj, Hc, <- Hj.
  rewrite (split_join "/"%char) by done.
  change (name :: (names ++ rest))%list with ((name :: names) ++ rest)%list.
  rewrite clean_elements_plain by done.
  assert (clean_elements false 0 (rev (name :: names) ++ []) rest = name :: names)
    as ->.
  { rewrite app_nil_r.
    destruct Hrest as [->| ->]; cbn [clean_elements replicate app];
      [|rewrite decide_True by (by right); cbn [clean_elements replicate app]];
      by rewrite rev_involutive. }
  destruct (join_elements_first names name) as (c' & s' & -> & _);
    [by apply Forall_cons in Hall as [? _]|].
  by rewrite decide_False.
Qed.

Lemma Join_elements prefix_names rel :
  prefix_names <> [] -> Forall path_element prefix_names ->
  Forall path_element rel ->
  filepath_Join (GoString.join "/" prefix_names) (rel_string rel)
  = GoString.join "/" (prefix_names ++ rel).
Proof.
  intros Hne Hpre Hrel. unfold filepath_Join.
  destruct prefix_names as [|name names]; [done|].
  destruct (join_elements_first names name) as (c & s & Hj & _);
    [by apply Forall_cons in Hpre as [? _]|].
  rewrite decide_True by (by rewrite Hj).
  destruct rel as [|r rel].
  - cbn [rel_string]. rewrite app_nil_r.
    change (filepath_Clean (?a ++ "/" ++ "."))
      with (filepath_Clean (a ++ "/" ++ GoString.join "/" ["."])).
    rewrite <- (join_app "/" (name :: names) ["."]) by done.
    by apply Clean_elements; [| |right].
  - change (rel_string (r :: rel)) with (GoString.join "/" (r :: rel)).
    rewrite <- join_app by done.
    rewrite <- (app_nil_r ((name :: names) ++ r :: rel)) at 1.
    apply Clean_elements; [done| |by left].
    apply Forall_app. by split.
Qed.

(** Under plain names the copy of a file is named by its path below
    "packages-src/<fingerprint>". *)
Lemma packages_src_name fingerprint rel :
  path_element fingerprint -> Forall path_element rel ->
  filepath_Join (filepath_Join "packages-src" fingerprint) (rel_string rel)
  = GoString.join "/" ("packages-src" :: fingerprint :: rel).
Proof.
  intros Hfp Hrel.
  assert (path_element "packages-src") as Hsrc by (by repeat split).
  assert (filepath_Join "packages-src" fingerprint
          = GoString.join "/" ["packages-src"; fingerprint]) as ->.
  { change fingerprint with (rel_string [fingerprint]) at 1.
    change "packages-src" with (GoString.join "/" ["packages-src"]) at 1.
    rewrite Join_elements; [done|done|by constructor..]. }
  rewrite Join_elements; [done|done| |done].
  constructor; [done|]. by constructor.
Qed.

(** ** The tar walker *)

Section TarWalkerProperties.
Context {ts : TarStream} {os : OS}.

Lemma walk_error w path node info err Q :
  appends (walk w path node info (Some err)) Q.
Proof. apply appends_fail. Qed.

Lemma walk_appends w path node info :
  anchor path = root w ->
  Lstat path node = inr info ->
  appends (walk w path node info None) (faithful_copy w (below path) node).
Proof.
  intros Ha Hl. unfold walk.
  destruct (FileInfoHeader info EmptyString) as [err|hdr] eqn:Eh;
    [apply appends_fail|].
  change (bind (lift (inr hdr)) ?k) with (k hdr). cbv beta.
  assert (filepath_Rel (root w) path = inr (rel_string (below path))) as ->
    by (unfold filepath_Rel; by rewrite decide_True).
  assert (Lstat {| anchor := root w; below := below path |} node = inr info)
    as Hl' by (destruct path; simpl in *; by subst).
  destruct node as [perm content open_err|perm target readlink_err
                   |perm size entries readdir_err|kind perm size|lstat_err];
    cbn [Lstat] in Hl; [| | | |discriminate Hl];
    injection Hl as <-; cbn [fiMode fiSize].
  - rewrite file_not_symlink, file_regular. cbn [negb].
    change (bind (ret hdr) ?k) with (k hdr). cbv beta.
    change (bind (lift (inr ?x)) ?k) with (k x). cbv beta.
    destruct open_err as [err|]; cbn [Open].
    + apply write_header_fail.
    + change (bind (lift (inr ?x)) ?k) with (k x). cbv beta.
      rewrite take_exactly_all.
      change (bind (lift (inr ?x)) ?k) with (k x). cbv beta.
      apply write_entry. eexists; exists hdr; split; [exact Hl'|]; by repeat split.
  - rewrite symlink_is_symlink, symlink_not_regular. cbn [negb].
    destruct readlink_err as [err|]; cbn [Readlink]; [apply appends_fail|].
    change (bind (lift (inr ?x)) ?k) with (k x). cbv beta.
    change (bind (ret ?x) ?k) with (k x). cbv beta.
    change (bind (lift (inr ?x)) ?k) with (k x). cbv beta.
    apply appends_bind; [|intros; apply appends_ret].
    apply write_header_only. eexists; exists hdr; split; [exact Hl'|]; by repeat split.
  - rewrite dir_not_symlink, dir_not_regular. cbn [negb].
    change (bind (ret hdr) ?k) with (k hdr). cbv beta.
    change (bind (lift (inr ?x)) ?k) with (k x). cbv beta.
    apply appends_bind; [|intros; apply appends_ret].
    apply write_header_only. eexists; exists hdr; split; [exact Hl'|]; by repeat split.
  - rewrite special_not_symlink, special_not_regular. cbn [negb].
    change (bind (ret hdr) ?k) with (k hdr). cbv beta.
    change (bind (lift (inr ?x)) ?k) with (k x). cbv beta.
    apply appends_bind; [|intros; apply appends_ret].
    apply write_header_only. eexists; exists hdr; split; [exact Hl'|]; by repeat split.
Qed.

End TarWalkerProperties.

(** *** Directory listings in lexical order *)

Lemma insert_by_name_perm {A} (x : string * A) l : insert_by_name x l ≡ₚ x :: l.
Proof.
  induction l as [|y l IH]; cbn [insert_by_name]; [done|].
  destruct (GoString.less y.1 x.1); [|done].
  rewrite IH. apply perm_swap.
Qed.

Lemma sort_names_perm {A} (l : list (string * A)) : sort_names l ≡ₚ l.
Proof.
  induction l as [|x l IH]; [done|]. cbn [sort_names foldr].
  fold (sort_names l). by rewrite insert_by_name_perm, IH.
Qed.

(** Sorting by name commutes with any change of what belongs to the
    names. *)
Lemma insert_by_name_fmap {A B} (f : string * A -> B) x l :
  insert_by_name (x.1, f x) ((fun e => (e.1, f e)) <$> l)
  = (fun e => (e.1, f e)) <$> insert_by_name x l.
Proof.
  induction l as [|y l IH]; [done|]. cbn [fmap list_fmap insert_by_name fst].
  destruct (GoString.less y.1 x.1); [|done].
  cbn [fmap list_fmap]. f_equal. exact IH.
Qed.

Lemma sort_names_fmap {A B} (f : string * A -> B) l :
  sort_names ((fun e => (e.1, f e)) <$> l)
  = (fun e => (e.1, f e)) <$> sort_names l.
Proof.
  induction l as [|x l IH]; [done|].
  cbn [fmap list_fmap sort_names foldr]. fold (sort_names l).
  fold (sort_names ((fun e => (e.1, f e)) <$> l)).
  by rewrite IH, insert_by_name_fmap.
Qed.

Lemma for_each_fmap {A B} (f : A -> B) (l : list A) (body : B -> M unit) :
  for_each (f <$> l) body = for_each l (fun x => body (f x)).
Proof.
  induction l as [|x l IH]; [done|]. cbn [fmap list_fmap for_each].
  by rewrite <- IH.
Qed.

Section WalkProperties.
Context {ts : TarStream} {os : OS}.

Lemma walk_node_dir w path mode size entries :
  walk_node w path (NDir mode size entries None)
  = bind (walk w path (NDir mode size entries None)
            {| fiName := base_name path; fiSize := size;
               fiMode := file_mode mode ModeDir |} None)
         (fun _ => for_each (sort_names entries)
                     (fun entry => walk_node w (enter path (fst entry)) (snd entry))).
Proof.
  cbn [walk_node Lstat]. f_equal.
  assert ((fix visits_of (es : list (string * Node)) : list (string * M unit) :=
             match es with
             | [] => []
             | (name, child) :: es' =>
                 (name, walk_node w (enter path name) child) :: visits_of es'
             end) entries
          = (fun e => (e.1, walk_node w (enter path e.1) e.2)) <$> entries)
    as ->.
  { induction entries as [|[name child] es IH]; [done|].
    cbn [fmap list_fmap fst snd]. by rewrite <- IH. }
  by rewrite sort_names_fmap, for_each_fmap.
Qed.

(** Every entry a walk writes is the copy of a file met below the node
    the walk started at. *)
Lemma walk_node_appends w node :
  forall path,
    anchor path = root w ->
    appends (walk_node w path node)
      (fun e => exists rel n,
         node_at node rel n /\ faithful_copy w (below path ++ rel) n e).
Proof.
  assert (forall node path info,
            anchor path = root w -> Lstat path node = inr info ->
            appends (walk w path node info None)
              (fun e => exists rel n,
                 node_at node rel n
                 /\ faithful_copy w (below path ++ rel) n e)) as Hself.
  { intros n path info Ha Hl.
    eapply appends_weaken; [|by apply walk_appends].
    intros e He. exists [], n. split; [constructor|]. by rewrite app_nil_r. }
  induction node as [perm content err|perm target err
                    |perm size entries err IH|kind perm size|err]
    using Node_tree_ind;
    intros path Ha.
  - by apply Hself.
  - by apply Hself.
  - destruct err as [err|]; [apply walk_error|].
    rewrite walk_node_dir.
    apply appends_bind; [by apply Hself|]. intros _.
    apply appends_for_each. intros [name child] Hin.
    rewrite sort_names_perm in Hin. rewrite Forall_forall in IH.
    eapply appends_weaken; [|apply (IH _ Hin (enter path name) Ha)].
    intros e (rel & n & Hat & Hcopy). exists (name :: rel), n. split.
    + by econstructor.
    + simpl in Hcopy. by rewrite <- app_assoc in Hcopy.
  - by apply Hself.
  - apply walk_error.
Qed.

Lemma filepath_Walk_appends w :
  appends (filepath_Walk w) (copied_from w (disk (root w))).
Proof.
  unfold filepath_Walk. eapply appends_weaken;
    [|by apply (walk_node_appends w (disk (root w)))].
  intros e (rel & n & Hat & Hcopy). by exists rel, n.
Qed.

End WalkProperties.

(** ** The context populator *)

Section PopulatorProperties.
Context {rt : GoRuntime} {dk : Docker} {ts : TarStream} {os : OS}
        {tp : Templates}.
Local Open Scope go_scope.

Lemma populator_unfold p roles forceBuildAll :
  roles <> [] ->
  NewDockerPopulator p roles forceBuildAll
  = (base <-
       (if negb forceBuildAll
        then determinePackagesLayerBaseImage p (collect_packages roles)
        else ret (stemcellImageName p, collect_packages roles)) ;;
     let '(baseImageName, packages) := base in
     write_context p baseImageName packages).
Proof.
  intros Hne. unfold NewDockerPopulator.
  rewrite decide_False; [done|]. by destruct roles.
Qed.

Lemma walks_grouped p pkgs w r w' :
  for_each pkgs (fun pkg => filepath_Walk (walker_of p pkg)) w = (r, w') ->
  exists ext,
    extended w w' ext
    /\ (succeeded r ->
        exists groups,
          ext = concat groups /\ Forall2 (package_copied p) pkgs groups).
Proof.
  revert w. induction pkgs as [|pkg pkgs IH]; intros w; simpl.
  - intros [= <- <-]. exists []. split; [apply extended_refl|].
    intros _. exists []. split; [done|constructor].
  - unfold bind at 1.
    destruct (filepath_Walk (walker_of p pkg) w) as [[err|[]] w1] eqn:E1.
    + intros [= <- <-].
      destruct (filepath_Walk_appends _ _ _ _ E1) as (ext & Hext & _).
      exists ext. split; [done|intros []].
    + intros E2.
      destruct (filepath_Walk_appends _ _ _ _ E1) as (ext1 & Hext1 & Hc1).
      destruct (IH _ E2) as (ext2 & Hext2 & Hc2).
      exists (ext1 ++ ext2)%list. split; [by eapply extended_trans|].
      intros Hr. destruct (Hc2 Hr) as (groups & -> & Hall).
      exists (ext1 :: groups). split; [done|].
      constructor; [by apply Hc1|done].
Qed.

Lemma write_context_spec p base pkgs w r w' :
  write_context p base pkgs w = (r, w') ->
  exists ext,
    extended w w' ext
    /\ (succeeded r ->
        exists dockerfile groups,
          generateDockerfile p base pkgs = inr dockerfile
          /\ ext = dockerfile_entry dockerfile :: packages_src_entry
                     :: concat groups
          /\ Forall2 (package_copied p) pkgs groups).
Proof.
  unfold write_context.
  destruct (generateDockerfile p base pkgs) as [err|dockerfile] eqn:Eg.
  { intros [= <- <-]. exists []. split; [apply extended_refl|intros []]. }
  change (bind (lift (inr dockerfile)) ?k) with (k dockerfile). cbv beta.
  unfold bind at 1.
  destruct (WriteToTarStream dockerfile _ w) as [[err|[]] w1] eqn:E1.
  { intros [= <- <-].
    destruct (WriteToTarStream_exact _ _ _ _ _ E1) as (ext & Hext & _).
    exists ext. split; [done|intros []]. }
  destruct (WriteToTarStream_exact _ _ _ _ _ E1) as (ext1 & Hext1 & Hs1).
  rewrite (Hs1 I) in Hext1. clear Hs1.
  unfold bind at 1.
  destruct (WriteToTarStream EmptyString _ w1) as [[err|[]] w2] eqn:E2.
  { intros [= <- <-].
    destruct (WriteToTarStream_exact _ _ _ _ _ E2) as (ext & Hext & _).
    eexists. split; [by eapply extended_trans|intros []]. }
  destruct (WriteToTarStream_exact _ _ _ _ _ E2) as (ext2 & Hext2 & Hs2).
  rewrite (Hs2 I) in Hext2. clear Hs2.
  intros E3. destruct (walks_grouped _ _ _ _ _ E3) as (ext3 & Hext3 & Hs3).
  eexists. split.
  { eapply extended_trans; [exact Hext1|].
    eapply extended_trans; [exact Hext2|exact Hext3]. }
  intros Hr. destruct (Hs3 Hr) as (groups & -> & Hall).
  by exists dockerfile, groups.
Qed.

Lemma determine_keeps_stream p pkgs w r w' :
  determinePackagesLayerBaseImage p pkgs w = (r, w') ->
  stream w' = stream w /\ baseImageOverride w' = baseImageOverride w.
Proof.
  unfold determinePackagesLayerBaseImage.
  destruct NewImageManager; [by intros [= <- <-]|].
  destruct (FindBestImageWithLabels _ _ _) as [err|[img covered]];
    by intros [= <- <-].
Qed.

(** A successful run of the populator: the base image and the residual
    packages it settled on, and what it wrote. *)
Lemma populator_success p roles forceBuildAll w w' :
  NewDockerPopulator p roles forceBuildAll w = (inr tt, w') ->
  exists base residual dockerfile groups,
    (if forceBuildAll
     then base = stemcellImageName p /\ residual = collect_packages roles
     else exists w1,
         determinePackagesLayerBaseImage p (collect_packages roles) w
         = (inr (base, residual), w1))
    /\ generateDockerfile p base residual = inr dockerfile
    /\ stream w'
       = (stream w ++ dockerfile_entry dockerfile :: packages_src_entry
            :: concat groups)%list
    /\ Forall2 (package_copied p) residual groups.
Proof.
  intros E. destruct (decide (roles = [])) as [->|Hne]; [done|].
  rewrite populator_unfold in E by done.
  destruct forceBuildAll; cbn [negb] in E.
  - change (write_context p (stemcellImageName p) (collect_packages roles) w
            = (inr tt, w')) in E.
    destruct (write_context_spec _ _ _ _ _ _ E) as (ext & (Hs & _) & Hok).
    destruct (Hok I) as (dockerfile & groups & Hg & -> & Hall).
    by exists (stemcellImageName p), (collect_packages roles), dockerfile, groups.
  - unfold bind at 1 in E.
    destruct (determinePackagesLayerBaseImage p (collect_packages roles) w)
      as [[err|[base residual]] w1] eqn:Ed; [done|].
    destruct (determine_keeps_stream _ _ _ _ _ Ed) as [Hst _].
    destruct (write_context_spec _ _ _ _ _ _ E) as (ext & (Hs & _) & Hok).
    destruct (Hok I) as (dockerfile & groups & Hg & -> & Hall).
    exists base, residual, dockerfile, groups.
    split; [by exists w1|]. rewrite Hs, Hst. done.
Qed.

End PopulatorProperties.

(** ** What exactly a walk writes *)

Lemma yields_fail {A} e R : yields (@fail A e) R.
Proof.
  intros w r w' [= <- <-]. exists []. split; [apply extended_refl|intros []].
Qed.

Lemma yields_ret {A} (a : A) (R : list TarEntry -> Prop) :
  R [] -> yields (ret a) R.
Proof.
  intros HR w r w' [= <- <-]. exists []. split; [apply extended_refl|done].
Qed.

Lemma yields_bind {A B} (m : M A) (k : A -> M B)
    (R1 R2 R : list TarEntry -> Prop) :
  yields m R1 -> (forall a, yields (k a) R2) ->
  (forall e1 e2, R1 e1 -> R2 e2 -> R (e1 ++ e2)%list) ->
  yields (bind m k) R.
Proof.
  intros Hm Hk HR w r w'. unfold bind.
  destruct (m w) as [[e|a] w1] eqn:E.
  - intros [= <- <-]. destruct (Hm _ _ _ E) as (ext & Hext & _).
    exists ext. split; [done|intros []].
  - intros E2. destruct (Hm _ _ _ E) as (ext1 & Hext1 & H1).
    destruct (Hk a _ _ _ E2) as (ext2 & Hext2 & H2).
    exists (ext1 ++ ext2)%list. split; [by eapply extended_trans|].
    intros Hr. apply HR; [by apply H1|by apply H2].
Qed.

Lemma yields_weaken {A} (m : M A) (R R' : list TarEntry -> Prop) :
  (forall ext, R ext -> R' ext) -> yields m R -> yields m R'.
Proof.
  intros HR Hm w r w' E. destruct (Hm _ _ _ E) as (ext & Hext & H).
  exists ext. split; [done|]. intros Hr. by apply HR, H.
Qed.

Section WalkExactly.
Context {ts : TarStream} {os : OS}.

Lemma yields_write_entry (hdr : TarHeader) (bytes : string) :
  yields (bind (WriteHeader hdr) (fun _ => Write bytes))
         (fun ext => ext = [ {| header := hdr; data := bytes |} ]).
Proof. intros w r w' E. by apply write_entry_exact. Qed.

Lemma yields_write_header (hdr : TarHeader) :
  yields (WriteHeader hdr)
         (fun ext => ext = [ {| header := hdr; data := EmptyString |} ]).
Proof.
  intros w r w'. unfold WriteHeader.
  destruct (stream_fault (stream w)) as [err|] eqn:Ef.
  { intros [= <- <-]. exists []. split; [apply extended_refl|intros []]. }
  destruct (decide (owed (stream w) ≠ 0)) as [Ho|Ho].
  { intros [= <- <-]. exists []. split; [apply extended_refl|intros []]. }
  intros [= <- <-]. eexists. split; [|done]. done.
Qed.

Lemma yields_header_fail {A} (hdr : TarHeader) (e : error) R :
  yields (bind (WriteHeader hdr) (fun _ => @fail A e)) R.
Proof.
  eapply yields_bind with (R1 := fun _ => True) (R2 := fun _ => False);
    [|intros; apply yields_fail|done].
  eapply yields_weaken; [|apply yields_write_header]. done.
Qed.

(** One file: one entry, its copy, and the file could be read. *)
Lemma walk_yields w path node info :
  anchor path = root w ->
  Lstat path node = inr info ->
  yields (walk w path node info None)
    (fun ext => exists e,
       ext = [e] /\ faithful_copy w (below path) node e
       /\ match node with
          | NFile _ _ err | NSymlink _ _ err => err = None
          | _ => True
          end).
Proof.
  intros Ha Hl. unfold walk.
  destruct (FileInfoHeader info EmptyString) as [err|hdr] eqn:Eh;
    [apply yields_fail|].
  change (bind (lift (inr hdr)) ?k) with (k hdr). cbv beta.
  assert (filepath_Rel (root w) path = inr (rel_string (below path))) as ->
    by (unfold filepath_Rel; by rewrite decide_True).
  assert (Lstat {| anchor := root w; below := below path |} node = inr info)
    as Hl' by (destruct path; simpl in *; by subst).
  destruct node as [perm content open_err|perm target readlink_err
                   |perm size entries readdir_err|kind perm size|lstat_err];
    cbn [Lstat] in Hl; [| | | |discriminate Hl];
    injection Hl as <-; cbn [fiMode fiSize].
  - rewrite file_not_symlink, file_regular. cbn [negb].
    change (bind (ret hdr) ?k) with (k hdr). cbv beta.
    change (bind (lift (inr ?x)) ?k) with (k x). cbv beta.
    destruct open_err as [err|]; cbn [Open].
    + apply yields_header_fail.
    + change (bind (lift (inr ?x)) ?k) with (k x). cbv beta.
      rewrite take_exactly_all.
      change (bind (lift (inr ?x)) ?k) with (k x). cbv beta.
      eapply yields_weaken; [|apply yields_write_entry].
      intros ext ->. eexists. split; [done|]. split; [|done].
      eexists; exists hdr; split; [exact Hl'|]; by repeat split.
  - rewrite symlink_is_symlink, symlink_not_regular. cbn [negb].
    destruct readlink_err as [err|]; cbn [Readlink]; [apply yields_fail|].
    change (bind (lift (inr ?x)) ?k) with (k x). cbv beta.
    change (bind (ret ?x) ?k) with (k x). cbv beta.
    change (bind (lift (inr ?x)) ?k) with (k x). cbv beta.
    eapply yields_bind;
      [apply yields_write_header|intros; by apply (yields_ret _ (fun ext => ext = []))|].
    intros e1 e2 -> ->. eexists. split; [done|]. split; [|done].
    eexists; exists hdr; split; [exact Hl'|]; by repeat split.
  - rewrite dir_not_symlink, dir_not_regular. cbn [negb].
    change (bind (ret hdr) ?k) with (k hdr). cbv beta.
    change (bind (lift (inr ?x)) ?k) with (k x). cbv beta.
    eapply yields_bind;
      [apply yields_write_header|intros; by apply (yields_ret _ (fun ext => ext = []))|].
    intros e1 e2 -> ->. eexists. split; [done|]. split; [|done].
    eexists; exists hdr; split; [exact Hl'|]; by repeat split.
  - rewrite special_not_symlink, special_not_regular. cbn [negb].
    change (bind (ret hdr) ?k) with (k hdr). cbv beta.
    change (bind (lift (inr ?x)) ?k) with (k x). cbv beta.
    eapply yields_bind;
      [apply yields_write_header|intros; by apply (yields_ret _ (fun ext => ext = []))|].
    intros e1 e2 -> ->. eexists. split; [done|]. split; [|done].
    eexists; exists hdr; split; [exact Hl'|]; by repeat split.
Qed.

End WalkExactly.

Lemma tree_files_dir rel mode size entries :
  tree_files rel (NDir mode size entries None)
  = (rel, NDir mode size entries None)
      :: entries_files rel (sort_names entries).
Proof.
  cbn [tree_files]. f_equal. unfold entries_files.
  assert ((fix files_of (es : list (string * Node))
             : list (string * list (list string * Node)) :=
             match es with
             | [] => []
             | (name, child) :: es' =>
                 (name, tree_files (rel ++ [name]) child) :: files_of es'
             end) entries
          = (fun e => (e.1, tree_files (rel ++ [e.1]) e.2)) <$> entries)
    as ->.
  { induction entries as [|[name child] es IH]; [done|].
    cbn [fmap list_fmap fst snd]. by rewrite <- IH. }
  rewrite sort_names_fmap.
  induction (sort_names entries) as [|entry es IH]; [done|].
  cbn [fmap list_fmap concat flat_map snd]. by rewrite IH.
Qed.

Lemma tree_files_leaf rel n :
  match n with NDir _ _ _ None => False | _ => True end ->
  tree_files rel n = [(rel, n)].
Proof. destruct n as [| | ? ? ? [|]| |]; done. Qed.

Section WalkTreeExactly.
Context {ts : TarStream} {os : OS}.

(** A walk that succeeds has written, for every file it met and in the
    order it met them, one entry, the copy of the file. *)
Lemma walk_node_yields w node :
  forall path,
    anchor path = root w ->
    yields (walk_node w path node) (copies_of_tree w (below path) node).
Proof.
  induction node as [perm content err|perm target err
                    |perm size entries err IH|kind perm size|err]
    using Node_tree_ind;
    intros path Ha.
  - eapply yields_weaken; [|by apply (walk_yields w path (NFile perm content err))].
    intros ext (e & -> & Hc & ->). unfold copies_of_tree.
    rewrite tree_files_leaf by done. by repeat constructor.
  - eapply yields_weaken;
      [|by apply (walk_yields w path (NSymlink perm target err))].
    intros ext (e & -> & Hc & ->). unfold copies_of_tree.
    rewrite tree_files_leaf by done. by repeat constructor.
  - destruct err as [err|]; [apply yields_fail|].
    rewrite walk_node_dir. unfold copies_of_tree. rewrite tree_files_dir.
    eapply yields_bind with
      (R2 := Forall2 (fun file e =>
                        faithful_copy w (fst file) (snd file) e
                        /\ accessible (snd file))
                     (entries_files (below path) (sort_names entries))).
    + by apply walk_yields.
    + intros _. rewrite <- (sort_names_perm entries) in IH.
      revert IH. generalize (sort_names entries) as es. clear entries.
      induction es as [|[name child] es IHes]; intros IH.
      * apply yields_ret. constructor.
      * apply Forall_cons in IH as [IHchild IHrest].
        cbn [for_each fst snd]. unfold entries_files. cbn [flat_map fst snd].
        eapply yields_bind; [by apply (IHchild (enter path name))| |].
        -- intros _. by apply IHes.
        -- intros e1 e2 H1 H2. by apply Forall2_app.
    + intros e1 e2 (e & -> & Hc & _) H2. constructor; [|done]. by split.
  - eapply yields_weaken;
      [|by apply (walk_yields w path (NSpecial kind perm size))].
    intros ext (e & -> & Hc & _). unfold copies_of_tree.
    rewrite tree_files_leaf by done. by repeat constructor.
  - apply yields_fail.
Qed.

Lemma filepath_Walk_yields w :
  yields (filepath_Walk w) (copies_of_tree w [] (disk (root w))).
Proof. by apply (walk_node_yields w (disk (root w))). Qed.

End WalkTreeExactly.

(** ** Every outcome of the populator *)

Section PopulatorOutcomes.
Context {rt : GoRuntime} {dk : Docker} {ts : TarStream} {os : OS}
        {tp : Templates}.

Lemma WriteToTarStream_yields bytes hdr :
  yields (WriteToTarStream bytes hdr)
         (fun ext => ext = [ {| header := sized hdr bytes; data := bytes |} ]).
Proof. apply yields_write_entry. Qed.

Lemma walks_yield p pkgs (G : Package -> list TarEntry -> Prop) :
  (forall pkg, yields (filepath_Walk (walker_of p pkg)) (G pkg)) ->
  yields (for_each pkgs (fun pkg => filepath_Walk (walker_of p pkg)))
         (fun ext => exists groups, ext = concat groups /\ Forall2 G pkgs groups).
Proof.
  intros HG. induction pkgs as [|pkg pkgs IH]; cbn [for_each].
  - apply yields_ret. exists []. by split; [|constructor].
  - eapply yields_bind; [apply HG|intros _; apply IH|].
    intros e1 e2 H1 (groups & -> & Hall). exists (e1 :: groups).
    split; [done|by constructor].
Qed.

Lemma write_context_yields p base pkgs (G : Package -> list TarEntry -> Prop) :
  (forall pkg, yields (filepath_Walk (walker_of p pkg)) (G pkg)) ->
  yields (write_context p base pkgs)
    (fun ext => exists dockerfile groups,
       generateDockerfile p base pkgs = inr dockerfile
       /\ ext = dockerfile_entry dockerfile :: packages_src_entry
                  :: concat groups
       /\ Forall2 G pkgs groups).
Proof.
  intros HG. unfold write_context.
  destruct (generateDockerfile p base pkgs) as [err|dockerfile] eqn:Eg;
    [apply yields_fail|].
  change (bind (lift (inr dockerfile)) ?k) with (k dockerfile). cbv beta.
  eapply yields_bind with
    (R2 := fun ext => exists groups,
             ext = packages_src_entry :: concat groups
             /\ Forall2 G pkgs groups);
    [apply WriteToTarStream_yields| |].
  - intros _. eapply yields_bind;
      [apply WriteToTarStream_yields|intros _; by apply walks_yield|].
    intros e1 e2 -> (groups & -> & Hall). by exists groups.
  - intros e1 e2 -> (groups & -> & Hall). by exists dockerfile, groups.
Qed.

Lemma determine_outcome p pkgs w r w' :
  determinePackagesLayerBaseImage p pkgs w = (r, w') ->
  stream w' = stream w
  /\ baseImageOverride w' = baseImageOverride w
  /\ (lookups w' = lookups w
      \/ lookups w' = (lookups w ++ [catalog_query w p pkgs])%list).
Proof.
  unfold determinePackagesLayerBaseImage.
  destruct NewImageManager; [intros [= <- <-]; by auto|].
  destruct (FindBestImageWithLabels _ _ _) as [err|[img covered]];
    intros [= <- <-]; by auto.
Qed.

(** What the populator does to the world, whatever the outcome, and what
    it has written when it succeeds, for any property [G] of what the walk
    of a package writes. *)
Lemma populator_outcome p roles forceBuildAll
    (G : Package -> list TarEntry -> Prop) w r w' :
  (forall pkg, yields (filepath_Walk (walker_of p pkg)) (G pkg)) ->
  NewDockerPopulator p roles forceBuildAll w = (r, w') ->
  exists ext,
    stream w' = (stream w ++ ext)%list
    /\ baseImageOverride w' = baseImageOverride w
    /\ (lookups w' = lookups w
        \/ forceBuildAll = false
           /\ lookups w'
              = (lookups w ++ [catalog_query w p (collect_packages roles)])%list)
    /\ (succeeded r ->
        exists base residual dockerfile groups,
          (if forceBuildAll
           then base = stemcellImageName p
                /\ residual = collect_packages roles
           else exists w1,
               determinePackagesLayerBaseImage p (collect_packages roles) w
               = (inr (base, residual), w1))
          /\ generateDockerfile p base residual = inr dockerfile
          /\ ext = dockerfile_entry dockerfile :: packages_src_entry
                     :: concat groups
          /\ Forall2 G residual groups).
Proof.
  intros HG E. destruct (decide (roles = [])) as [->|Hne].
  { injection E as <- <-. exists []. rewrite app_nil_r.
    repeat split; [by left|intros []]. }
  rewrite populator_unfold in E by done.
  destruct forceBuildAll; cbn [negb] in E.
  - change (write_context p (stemcellImageName p) (collect_packages roles) w
            = (r, w')) in E.
    destruct (write_context_yields _ _ _ G HG _ _ _ E)
      as (ext & (Hs & Ho & Hl) & Hok).
    exists ext. repeat split; [done|done|by left|].
    intros Hr. destruct (Hok Hr) as (dockerfile & groups & Hg & -> & Hall).
    by exists (stemcellImageName p), (collect_packages roles), dockerfile, groups.
  - unfold bind at 1 in E.
    destruct (determinePackagesLayerBaseImage p (collect_packages roles) w)
      as [[err|[base residual]] w1] eqn:Ed.
    + injection E as <- <-.
      destruct (determine_outcome _ _ _ _ _ Ed) as (Hs & Ho & Hl).
      exists []. rewrite app_nil_r. repeat split; [done|done| |intros []].
      destruct Hl as [Hl|Hl]; [by left|by right].
    + destruct (determine_outcome _ _ _ _ _ Ed) as (Hs1 & Ho1 & Hl1).
      destruct (write_context_yields _ _ _ G HG _ _ _ E)
        as (ext & (Hs & Ho & Hl) & Hok).
      exists ext. rewrite Hs, Ho, Hl, Hs1, Ho1.
      repeat split; [destruct Hl1 as [Hl1|Hl1]; [by left|by right]|].
      intros Hr. destruct (Hok Hr) as (dockerfile & groups & Hg & -> & Hall).
      exists base, residual, dockerfile, groups. split; [by exists w1|done].
Qed.

End PopulatorOutcomes.

(** *** Copies under the documented [tar.FileInfoHeader] *)

Lemma land_single m k :
  0 <= k -> (if has_bit m (2 ^ k) then 2 ^ k else 0) = Z.land m (2 ^ k).
Proof.
  intros Hk. unfold has_bit.
  destruct (Z.eqb_spec (Z.land m (2 ^ k)) 0) as [E|E]; cbn [negb]; [done|].
  symmetry. apply Z.bits_inj'. intros n Hn.
  rewrite Z.land_spec, Z.pow2_bits_eqb by done.
  destruct (Z.eqb_spec k n) as [<-|Hkn]; [|apply andb_false_r].
  rewrite andb_true_r. destruct (Z.testbit m k) eqn:Hb; [done|].
  exfalso. apply E. apply Z.bits_inj'. intros n Hn'.
  rewrite Z.land_spec, Z.pow2_bits_eqb, Z.bits_0 by done.
  destruct (Z.eqb_spec k n) as [<-|?]; [by rewrite Hb|apply andb_false_r].
Qed.

(** The permission bits with the set-uid, set-gid and sticky bits are the
    twelve low bits of [st_mode]. *)
Lemma special_bits_of m :
  Z.lor (Z.lor (Z.lor (Z.land m 511)
                      (if has_bit m S_ISUID then c_ISUID else 0))
               (if has_bit m S_ISGID then c_ISGID else 0))
        (if has_bit m S_ISVTX then c_ISVTX else 0)
  = Z.land m 4095.
Proof.
  change S_ISUID with (2 ^ 11). change c_ISUID with (2 ^ 11).
  change S_ISGID with (2 ^ 10). change c_ISGID with (2 ^ 10).
  change S_ISVTX with (2 ^ 9). change c_ISVTX with (2 ^ 9).
  rewrite !land_single by done. rewrite <- !Z.land_lor_distr_r. reflexivity.
Qed.

Lemma file_mode_Perm m t :
  Z.land t ModePerm = 0 -> Perm (file_mode m t) = Z.land m 511.
Proof.
  intros Ht. unfold Perm, file_mode. cbv zeta.
  destruct (has_bit m S_ISGID), (has_bit m S_ISUID), (has_bit m S_ISVTX);
    rewrite ?Z.land_lor_distr_l, <- ?Z.land_assoc, ?Ht;
    change (Z.land 511 ModePerm) with 511;
    change (Z.land ModeSetgid ModePerm) with 0;
    change (Z.land ModeSetuid ModePerm) with 0;
    change (Z.land ModeSticky ModePerm) with 0;
    rewrite ?Z.lor_0_r; reflexivity.
Qed.

Lemma has_bit_lor a b X : has_bit (Z.lor a b) X = has_bit a X || has_bit b X.
Proof.
  unfold has_bit. rewrite Z.land_lor_distr_l, <- negb_andb. f_equal.
  destruct (Z.eqb_spec (Z.lor (Z.land a X) (Z.land b X)) 0) as [E|E].
  - apply Z.lor_eq_0_iff in E as [-> ->]. done.
  - destruct (Z.eqb_spec (Z.land a X) 0) as [Ea|]; [|done].
    destruct (Z.eqb_spec (Z.land b X) 0) as [Eb|]; [|done].
    by rewrite Ea, Eb in E.
Qed.

Lemma file_mode_has_bit m t X :
  Z.land t X = 0 -> Z.land 511 X = 0 ->
  has_bit (file_mode m t) X
  = (has_bit m S_ISGID && has_bit ModeSetgid X)
    || (has_bit m S_ISUID && has_bit ModeSetuid X)
    || (has_bit m S_ISVTX && has_bit ModeSticky X).
Proof.
  intros Ht Hp.
  assert (has_bit (Z.land m 511) X = false) as Hp'
    by (unfold has_bit; by rewrite <- Z.land_assoc, Hp, Z.land_0_r).
  assert (has_bit t X = false) as Ht' by (unfold has_bit; by rewrite Ht).
  unfold file_mode. cbv zeta.
  destruct (has_bit m S_ISGID), (has_bit m S_ISUID), (has_bit m S_ISVTX);
    rewrite ?has_bit_lor, Hp', Ht'; cbn [andb orb];
    rewrite ?orb_false_r; reflexivity.
Qed.

Lemma file_mode_setuid m t :
  Z.land t ModeSetuid = 0 ->
  has_bit (file_mode m t) ModeSetuid = has_bit m S_ISUID.
Proof.
  intros Ht. rewrite file_mode_has_bit by done.
  change (has_bit ModeSetgid ModeSetuid) with false.
  change (has_bit ModeSetuid ModeSetuid) with true.
  change (has_bit ModeSticky ModeSetuid) with false.
  by rewrite !andb_false_r, andb_true_r, orb_false_r.
Qed.

Lemma file_mode_setgid m t :
  Z.land t ModeSetgid = 0 ->
  has_bit (file_mode m t) ModeSetgid = has_bit m S_ISGID.
Proof.
  intros Ht. rewrite file_mode_has_bit by done.
  change (has_bit ModeSetgid ModeSetgid) with true.
  change (has_bit ModeSetuid ModeSetgid) with false.
  change (has_bit ModeSticky ModeSetgid) with false.
  by rewrite !andb_false_r, andb_true_r, !orb_false_r.
Qed.

Lemma file_mode_sticky m t :
  Z.land t ModeSticky = 0 ->
  has_bit (file_mode m t) ModeSticky = has_bit m S_ISVTX.
Proof.
  intros Ht. rewrite file_mode_has_bit by done.
  change (has_bit ModeSetgid ModeSticky) with false.
  change (has_bit ModeSetuid ModeSticky) with false.
  change (has_bit ModeSticky ModeSticky) with true.
  by rewrite !andb_false_r, andb_true_r.
Qed.

(** The last step of [tar.FileInfoHeader] on what [Lstat] reports. *)
Lemma finish_header m t (h : TarHeader) :
  Z.land t ModePerm = 0 -> Z.land t ModeSetuid = 0 ->
  Z.land t ModeSetgid = 0 -> Z.land t ModeSticky = 0 ->
  hMode h = Perm (file_mode m t) ->
  (let fm := file_mode m t in
   let h := if has_bit fm ModeSetuid then set_Mode h (Z.lor (hMode h) c_ISUID)
            else h in
   let h := if has_bit fm ModeSetgid then set_Mode h (Z.lor (hMode h) c_ISGID)
            else h in
   let h := if has_bit fm ModeSticky then set_Mode h (Z.lor (hMode h) c_ISVTX)
            else h in
   h)
  = set_Mode h (Z.land m 4095).
Proof.
  intros Hp Hu Hg Hs Hm. cbv zeta.
  rewrite file_mode_setuid, file_mode_setgid, file_mode_sticky by done.
  rewrite <- special_bits_of. rewrite file_mode_Perm in Hm by done.
  destruct h as [name mode size flag link]. cbn [hMode] in Hm. subst mode.
  destruct (has_bit m S_ISUID), (has_bit m S_ISGID), (has_bit m S_ISVTX);
    unfold set_Mode; cbn [hMode hName hSize hTypeflag hLinkname];
    rewrite ?Z.lor_0_r; reflexivity.
Qed.

Ltac finish_header m t h :=
  f_equal; etransitivity;
  [exact (finish_header m t h eq_refl eq_refl eq_refl eq_refl eq_refl)
  |reflexivity].

Lemma tar_header_file name size m link :
  tar_FileInfoHeader
    {| fiName := name; fiSize := size; fiMode := file_mode m 0 |} link
  = inr {| hName := name; hMode := Z.land m 4095; hSize := size;
           hTypeflag := TypeReg; hLinkname := EmptyString |}.
Proof.
  unfold tar_FileInfoHeader. cbv zeta. cbn [fiMode fiName fiSize].
  rewrite file_regular. cbv iota.
  finish_header m 0
    {| hName := name; hMode := Perm (file_mode m 0); hSize := size;
       hTypeflag := TypeReg; hLinkname := EmptyString |}.
Qed.

Lemma tar_header_symlink name size m link :
  tar_FileInfoHeader
    {| fiName := name; fiSize := size; fiMode := file_mode m ModeSymlink |} link
  = inr {| hName := name; hMode := Z.land m 4095; hSize := 0;
           hTypeflag := TypeSymlink; hLinkname := link |}.
Proof.
  unfold tar_FileInfoHeader. cbv zeta. cbn [fiMode fiName fiSize].
  rewrite symlink_not_regular, symlink_not_dir.
  unfold has_bit at 1. rewrite symlink_is_symlink. cbv iota. cbn [negb].
  finish_header m ModeSymlink
    {| hName := name; hMode := Perm (file_mode m ModeSymlink); hSize := 0;
       hTypeflag := TypeSymlink; hLinkname := link |}.
Qed.

Lemma tar_header_dir name size m link :
  tar_FileInfoHeader
    {| fiName := name; fiSize := size; fiMode := file_mode m ModeDir |} link
  = inr {| hName := name ++ "/"; hMode := Z.land m 4095; hSize := 0;
           hTypeflag := TypeDir; hLinkname := EmptyString |}.
Proof.
  unfold tar_FileInfoHeader. cbv zeta. cbn [fiMode fiName fiSize].
  rewrite dir_not_regular, dir_is_dir. cbv iota.
  finish_header m ModeDir
    {| hName := name ++ "/"; hMode := Perm (file_mode m ModeDir); hSize := 0;
       hTypeflag := TypeDir; hLinkname := EmptyString |}.
Qed.

Lemma file_mode_type_bit m t X :
  Z.land 511 X = 0 -> Z.land ModeSetgid X = 0 -> Z.land ModeSetuid X = 0 ->
  Z.land ModeSticky X = 0 ->
  has_bit (file_mode m t) X = has_bit t X.
Proof. intros. unfold has_bit. by rewrite file_mode_land. Qed.

Lemma tar_header_special name size kind m link :
  tar_FileInfoHeader
    {| fiName := name; fiSize := size;
       fiMode := file_mode m (special_type kind) |} link
  = match special_flag kind with
    | Some flag =>
        inr {| hName := name; hMode := Z.land m 4095; hSize := 0;
               hTypeflag := flag; hLinkname := EmptyString |}
    | None => inl (Errorf "archive/tar: sockets not supported")
    end.
Proof.
  unfold tar_FileInfoHeader. cbv zeta. cbn [fiMode fiName fiSize].
  rewrite special_not_regular, special_not_dir.
  unfold has_bit at 1. rewrite special_not_symlink. cbn [negb].
  rewrite (file_mode_type_bit _ _ ModeDevice),
    (file_mode_type_bit _ _ ModeCharDevice),
    (file_mode_type_bit _ _ ModeNamedPipe),
    (file_mode_type_bit _ _ ModeSocket) by reflexivity.
  destruct kind; cbn [special_type special_flag].
  - change (has_bit ModeDevice ModeDevice) with true.
    change (has_bit ModeDevice ModeCharDevice) with false. cbv iota.
    finish_header m ModeDevice
      {| hName := name; hMode := Perm (file_mode m ModeDevice); hSize := 0;
         hTypeflag := TypeBlock; hLinkname := EmptyString |}.
  - change (has_bit (Z.lor ModeDevice ModeCharDevice) ModeDevice) with true.
    change (has_bit (Z.lor ModeDevice ModeCharDevice) ModeCharDevice) with true.
    cbv iota.
    finish_header m (Z.lor ModeDevice ModeCharDevice)
      {| hName := name;
         hMode := Perm (file_mode m (Z.lor ModeDevice ModeCharDevice));
         hSize := 0; hTypeflag := TypeChar; hLinkname := EmptyString |}.
  - change (has_bit ModeNamedPipe ModeDevice) with false.
    change (has_bit ModeNamedPipe ModeNamedPipe) with true. cbv iota.
    finish_header m ModeNamedPipe
      {| hName := name; hMode := Perm (file_mode m ModeNamedPipe); hSize := 0;
         hTypeflag := TypeFifo; hLinkname := EmptyString |}.
  - change (has_bit ModeSocket ModeDevice) with false.
    change (has_bit ModeSocket ModeNamedPipe) with false.
    change (has_bit ModeSocket ModeSocket) with true. cbv iota. reflexivity.
Qed.

(** What [tar.FileInfoHeader] makes of what [Lstat] reports of a file. *)
Lemma tar_header_of_lstat path node info link :
  Lstat path node = inr info ->
  tar_FileInfoHeader info link
  = match node with
    | NFile m content _ =>
        inr {| hName := base_name path; hMode := Z.land m 4095;
               hSize := GoString.len content; hTypeflag := TypeReg;
               hLinkname := EmptyString |}
    | NSymlink m _ _ =>
        inr {| hName := base_name path; hMode := Z.land m 4095; hSize := 0;
               hTypeflag := TypeSymlink; hLinkname := link |}
    | NDir m _ _ _ =>
        inr {| hName := base_name path ++ "/"; hMode := Z.land m 4095;
               hSize := 0; hTypeflag := TypeDir; hLinkname := EmptyString |}
    | NSpecial kind m _ =>
        match special_flag kind with
        | Some flag =>
            inr {| hName := base_name path; hMode := Z.land m 4095;
                   hSize := 0; hTypeflag := flag; hLinkname := EmptyString |}
        | None => inl (Errorf "archive/tar: sockets not supported")
        end
    | NFault err => inl err
    end.
Proof.
  destruct node; cbn [Lstat]; intros [= <-].
  - apply tar_header_file.
  - apply tar_header_symlink.
  - apply tar_header_dir.
  - apply tar_header_special.
Qed.

Lemma faithful_copy_plain (os : OS) w rel node e :
  @FileInfoHeader os = tar_FileInfoHeader ->
  faithful_copy w rel node e -> plain_copy w rel node e.
Proof.
  intros Hstd (info & hdr & Hl & Hh & Hname & Hmode & Hsize & Htype & Hnode).
  rewrite Hstd, (tar_header_of_lstat _ _ _ _ Hl) in Hh. split; [done|].
  destruct node as [m content ?|m target ?|m size entries ?|kind m size|?];
    [| | | |done].
  - injection Hh as <-. destruct Hnode as [? ?]. by repeat split.
  - injection Hh as <-. destruct Hnode as [? ?]. by repeat split.
  - injection Hh as <-. destruct Hnode as [? ?]. by repeat split.
  - destruct (special_flag kind) as [flag|]; [|done].
    injection Hh as <-. destruct Hnode as [? ?]. cbn in *.
    repeat split; try done. by f_equal.
Qed.

Lemma faithful_copy_complete (os : OS) w rel node e :
  @FileInfoHeader os = tar_FileInfoHeader ->
  faithful_copy w rel node e -> entry_complete e.
Proof.
  intros Hstd Hcopy. apply (faithful_copy_plain os) in Hcopy as [_ Hcopy]; [|done].
  unfold entry_complete.
  destruct node as [m content ?|m target ?|m size entries ?|kind m size|?];
    [| | | |done]; destruct Hcopy as (_ & -> & _ & _ & ->); done.
Qed.

(** ** The claims on the populator *)

Example sample_context_names :
  map (fun e => hName (header e))
    (stream (snd (@NewDockerPopulator simple_runtime empty_catalog no_faults
                    sample_os sample_templates acme sample_roles false
                    fresh_world)))
  = ["Dockerfile"; "packages-src"; "packages-src/f1"; "packages-src/f1/README";
     "packages-src/f1/bin"; "packages-src/f1/bin/helper";
     "packages-src/f1/bin/run"; "packages-src/f1/ctl";
     "packages-src/f1/current"; "packages-src/f2"].
Proof. vm_compute. reflexivity. Qed.

Example sample_context_headers :
  map (fun e => (hMode (header e), hSize (header e), hTypeflag (header e),
                 hLinkname (header e)))
    (stream (snd (@NewDockerPopulator simple_runtime
                    (catalog_with "cached" ["fingerprint.f2"]) no_faults
                    sample_os sample_templates acme sample_roles false
                    fresh_world)))
  = [(0, 50, TypeUnset, EmptyString); (493, 0, TypeDir, EmptyString);
     (493, 0, TypeDir, EmptyString); (420, 5, TypeReg, EmptyString);
     (493, 0, TypeDir, EmptyString); (2541, 3, TypeReg, EmptyString);
     (493, 9, TypeReg, EmptyString); (384, 0, TypeFifo, EmptyString);
     (511, 0, TypeSymlink, "bin")].
Proof. vm_compute. reflexivity. Qed.

Example sample_clean :
  map filepath_Clean
    ["abc"; "."; ".."; "../../abc"; "/"; EmptyString; "abc/"; "abc//def//ghi";
     "//abc//"; "abc/./def"; "abc/def/../ghi/../jkl"; "abc/def/../..";
     "/abc/def/../../.."; "abc/def/../../../ghi/jkl/../../../mno"; "/../abc";
     "abc/../../././../def"]
  = ["abc"; "."; ".."; "../../abc"; "/"; "."; "abc"; "abc/def/ghi";
     "/abc"; "abc/def"; "abc/jkl"; ".";
     "/"; "../../mno"; "/abc";
     "../../def"].
Proof. vm_compute. reflexivity. Qed.

Example sample_basename :
  map os_basename
    ["/compiled/f1/compiled"; "a/b/"; "/"; "///"; EmptyString; "a"; "//a//"]
  = ["compiled"; "b"; "/"; "/"; EmptyString; "a"; "a"].
Proof. vm_compute. reflexivity. Qed.

Example sample_join :
  map (filepath_Join "packages-src") ["f1"; "x/../f2"; "a/b/"; ".."; EmptyString]
  = ["packages-src/f1"; "packages-src/f2"; "packages-src/a/b"; ".";
     "packages-src"].
Proof. vm_compute. reflexivity. Qed.

Example sample_context_cached :
  map (fun e => (hName (header e), data e))
    (stream (snd (@NewDockerPopulator simple_runtime
                    (catalog_with "cached" ["fingerprint.f1"]) no_faults
                    sample_os sample_templates acme sample_roles false
                    fresh_world)))
  = [("Dockerfile", "FROM cached # f2 # version.generator.fissile=1.2.3");
     ("packages-src", EmptyString); ("packages-src/f2", EmptyString)].
Proof. vm_compute. reflexivity. Qed.

Example sample_missing_directory :
  fst (@NewDockerPopulator simple_runtime empty_catalog no_faults sample_os
         sample_templates acme [one_role [pkg_dotted]] true fresh_world)
  = inl (Errorf "no such file or directory").
Proof. vm_compute. reflexivity. Qed.

(** C7. With no roles the populator fails with "No roles to build" and
    leaves the world, the tar stream in it, as it was. *)
Theorem populator_no_roles rt dk ts os tp p forceBuildAll w :
  @NewDockerPopulator rt dk ts os tp p [] forceBuildAll w
  = (inl (Errorf "No roles to build"), w).
Proof. reflexivity. Qed.

(** C4. With [forceBuildAll] and at least one role, the populator is the
    writing of the context for the stemcell image name and all the packages
    collected: it sends no query to the catalog, it does not depend on the
    catalog or on the runtime, it fails when the Dockerfile cannot be
    generated from these, and a successful run starts with that Dockerfile. *)
Theorem force_build_all_bypasses_catalog rt dk rt' dk' ts os tp p roles w :
  roles <> [] ->
  let run := @NewDockerPopulator rt dk ts os tp p roles true w in
  run = write_context p (stemcellImageName p) (collect_packages roles) w
  /\ lookups (snd run) = lookups w
  /\ @NewDockerPopulator rt' dk' ts os tp p roles true w = run
  /\ (forall err,
        generateDockerfile p (stemcellImageName p) (collect_packages roles)
        = inl err ->
        run = (inl err, w))
  /\ (forall w',
        run = (inr tt, w') ->
        exists dockerfile rest,
          generateDockerfile p (stemcellImageName p) (collect_packages roles)
          = inr dockerfile
          /\ stream w'
             = (stream w ++ dockerfile_entry dockerfile :: packages_src_entry
                  :: rest)%list).
Proof.
  intros Hne run.
  assert (forall rt0 dk0,
            @NewDockerPopulator rt0 dk0 ts os tp p roles true w
            = write_context p (stemcellImageName p) (collect_packages roles) w)
    as Hrun by (intros; by rewrite populator_unfold).
  unfold run. rewrite !Hrun. split; [done|].
  split.
  { destruct (write_context p _ _ w) as [r w'] eqn:E.
    by destruct (write_context_spec _ _ _ _ _ _ E) as (ext & (_ & _ & Hl) & _). }
  split; [done|]. split.
  - intros err Hg. unfold write_context. by rewrite Hg.
  - intros w' E.
    destruct (write_context_spec _ _ _ _ _ _ E) as (ext & (Hs & _) & Hok).
    destruct (Hok I) as (dockerfile & groups & Hg & -> & _).
    by exists dockerfile, (concat groups).
Qed.

Lemma force_build_all_bypasses_catalog_witness :
  @NewDockerPopulator reverse_runtime
    (catalog_with "cached" ["fingerprint.f1"; "fingerprint.f2"])
    no_faults sample_os sample_templates acme sample_roles true fresh_world
  = @NewDockerPopulator simple_runtime empty_catalog
      no_faults sample_os sample_templates acme sample_roles true fresh_world.
Proof.
  apply (force_build_all_bypasses_catalog simple_runtime empty_catalog
           reverse_runtime
           (catalog_with "cached" ["fingerprint.f1"; "fingerprint.f2"])
           no_faults sample_os sample_templates acme sample_roles fresh_world).
  discriminate.
Defined.

(** C6. The stream of a successful run of the populator is what it was
    before, then the rendered Dockerfile as the entry "Dockerfile", then
    the directory entry "packages-src", then the rest; with no residual
    package there is no rest. *)
Theorem context_starts_with_dockerfile_and_payload_root
    rt dk ts os tp p roles forceBuildAll w w' :
  @NewDockerPopulator rt dk ts os tp p roles forceBuildAll w = (inr tt, w') ->
  exists base residual dockerfile rest,
    generateDockerfile p base residual = inr dockerfile
    /\ stream w'
       = (stream w
          ++ {| header := {| hName := "Dockerfile"; hMode := 0;
                             hSize := GoString.len dockerfile;
                             hTypeflag := TypeUnset; hLinkname := EmptyString |};
                data := dockerfile |}
          :: {| header := {| hName := "packages-src"; hMode := 493; hSize := 0;
                             hTypeflag := TypeDir; hLinkname := EmptyString |};
                data := EmptyString |}
          :: rest)%list
    /\ (residual = [] -> rest = []).
Proof.
  intros E.
  destruct (populator_success _ _ _ _ _ E)
    as (base & residual & dockerfile & groups & _ & Hg & Hs & Hall).
  exists base, residual, dockerfile, (concat groups).
  split; [done|]. split; [exact Hs|].
  intros ->. by apply Forall2_nil_inv_l in Hall as ->.
Qed.

Lemma context_starts_with_dockerfile_and_payload_root_witness :
  exists base residual dockerfile rest,
    @generateDockerfile sample_templates acme base residual = inr dockerfile
    /\ stream (snd (@NewDockerPopulator simple_runtime covering_catalog
                      no_faults sample_os sample_templates acme sample_roles
                      false fresh_world))
       = (stream fresh_world
          ++ {| header := {| hName := "Dockerfile"; hMode := 0;
                             hSize := GoString.len dockerfile;
                             hTypeflag := TypeUnset; hLinkname := EmptyString |};
                data := dockerfile |}
          :: {| header := {| hName := "packages-src"; hMode := 493; hSize := 0;
                             hTypeflag := TypeDir; hLinkname := EmptyString |};
                data := EmptyString |}
          :: rest)%list
    /\ (residual = [] -> rest = []).
Proof.
  apply (context_starts_with_dockerfile_and_payload_root simple_runtime
           covering_catalog no_faults sample_os sample_templates acme
           sample_roles false fresh_world).
  vm_compute. reflexivity.
Defined.

(** C9, as stated, fails for sizes: the header of a symbolic link and the
    header of a directory announce size 0, whereas [Lstat] reports 3, the
    length of its target, for the link and 4096 for the directory. *)
Lemma copied_files_preserve_originals_counterexample :
  let run :=
    @NewDockerPopulator simple_runtime empty_catalog no_faults sample_os
      sample_templates acme sample_roles true fresh_world in
  let dir := @GetPackageCompiledDir sample_os pkg_f1_h1
               (compiledPackagesPath acme) in
  let link := NSymlink 511 "bin" None in
  fst run = inr tt
  /\ node_at (@disk sample_os dir) ["current"] link
  /\ (exists info e,
        Lstat {| anchor := dir; below := ["current"] |} link = inr info
        /\ e ∈ stream (snd run)
        /\ hName (header e) = "packages-src/f1/current"
        /\ hTypeflag (header e) = TypeSymlink
        /\ hLinkname (header e) = "bin"
        /\ fiSize info = 3
        /\ hSize (header e) = 0)
  /\ (exists info e,
        Lstat {| anchor := dir; below := [] |} (@disk sample_os dir) = inr info
        /\ e ∈ stream (snd run)
        /\ hName (header e) = "packages-src/f1"
        /\ hTypeflag (header e) = TypeDir
        /\ fiSize info = 4096
        /\ hSize (header e) = 0).
Proof.
  cbv zeta. split; [vm_compute; reflexivity|]. split.
  { change (@disk sample_os
              (@GetPackageCompiledDir sample_os pkg_f1_h1
                 (compiledPackagesPath acme))) with sample_tree.
    unfold sample_tree. econstructor; [|constructor]. right. left. }
  split.
  - eexists.
    exists {| header := {| hName := "packages-src/f1/current"; hMode := 511;
                           hSize := 0; hTypeflag := TypeSymlink;
                           hLinkname := "bin" |};
              data := EmptyString |}.
    split; [reflexivity|]. split; [|by repeat split].
    vm_compute. do 8 right. left.
  - eexists.
    exists {| header := {| hName := "packages-src/f1"; hMode := 493;
                           hSize := 0; hTypeflag := TypeDir;
                           hLinkname := EmptyString |};
              data := EmptyString |}.
    split; [reflexivity|]. split; [|by repeat split].
    vm_compute. do 2 right. left.
Qed.

(** C9 (as amended). After a successful run of the populator, with
    [tar.FileInfoHeader] that of the standard library, the stream holds,
    after the Dockerfile and the "packages-src" entry, one group of entries
    for each residual package, in order, and the group of a package holds
    exactly one entry for each file the walk meets from the package's
    compiled directory, in the order of the walk: the directory itself, and
    the entries of a directory after it in the lexical order of their
    names. The entry of a file is named by "packages-src" joined with the
    fingerprint, joined with the path of the file from the compiled
    directory, which is "packages-src/<fingerprint>/<path>" when the
    fingerprint and the names on the path are plain path elements. Its mode
    is the permission, set-uid, set-gid and sticky bits of the file and its
    type that of the file. A regular file is announced with its length and
    comes with its bytes; every other file is announced with size 0,
    whatever size the filesystem reports for it, and comes without bytes; a
    symbolic link has its target as link name. *)
Theorem copied_files_preserve_originals
    rt dk ts os tp p roles forceBuildAll w w' :
  @FileInfoHeader os = tar_FileInfoHeader ->
  @NewDockerPopulator rt dk ts os tp p roles forceBuildAll w = (inr tt, w') ->
  exists base residual dockerfile groups,
    (if forceBuildAll
     then base = stemcellImageName p /\ residual = collect_packages roles
     else exists w1,
         determinePackagesLayerBaseImage p (collect_packages roles) w
         = (inr (base, residual), w1))
    /\ stream w'
       = (stream w ++ dockerfile_entry dockerfile :: packages_src_entry
            :: concat groups)%list
    /\ Forall2
         (fun pkg group =>
            Forall2
              (fun file e =>
                 plain_copy (walker_of p pkg) (fst file) (snd file) e
                 /\ (path_element (Fingerprint pkg) ->
                     Forall path_element (fst file) ->
                     hName (header e)
                     = GoString.join "/"
                         ("packages-src" :: Fingerprint pkg :: fst file)))
              (tree_files []
                 (disk (GetPackageCompiledDir pkg (compiledPackagesPath p))))
              group)
         residual groups.
Proof.
  intros Hstd E.
  destruct (populator_outcome p roles forceBuildAll
              (fun pkg => copies_of_tree (walker_of p pkg) []
                            (disk (root (walker_of p pkg)))) w (inr tt) w')
    as (ext & Hs & _ & _ & Hok); [intros pkg; apply filepath_Walk_yields|done|].
  destruct (Hok I)
    as (base & residual & dockerfile & groups & Hres & _ & -> & Hall).
  exists base, residual, dockerfile, groups.
  split; [exact Hres|]. split; [exact Hs|].
  eapply Forall2_impl; [exact Hall|].
  intros pkg group Hg. eapply Forall2_impl; [exact Hg|].
  intros [rel node] e [Hcopy _].
  apply (faithful_copy_plain os) in Hcopy; [|done].
  split; [exact Hcopy|]. intros Hfp Hrel.
  destruct Hcopy as [-> _]. by apply packages_src_name.
Qed.

Lemma copied_files_preserve_originals_witness :
  exists base residual dockerfile groups,
    (base = stemcellImageName acme /\ residual = collect_packages sample_roles)
    /\ stream (snd (@NewDockerPopulator simple_runtime empty_catalog
                      no_faults sample_os sample_templates acme sample_roles
                      true fresh_world))
       = (stream fresh_world ++ dockerfile_entry dockerfile
            :: packages_src_entry :: concat groups)%list
    /\ Forall2
         (fun pkg group =>
            Forall2
              (fun file e =>
                 plain_copy (@walker_of sample_os acme pkg) (fst file)
                   (snd file) e
                 /\ (path_element (Fingerprint pkg) ->
                     Forall path_element (fst file) ->
                     hName (header e)
                     = GoString.join "/"
                         ("packages-src" :: Fingerprint pkg :: fst file)))
              (tree_files []
                 (@disk sample_os
                    (@GetPackageCompiledDir sample_os pkg
                       (compiledPackagesPath acme))))
              group)
         residual groups.
Proof.
  apply (copied_files_preserve_originals simple_runtime empty_catalog
           no_faults sample_os sample_templates acme sample_roles true
           fresh_world).
  - reflexivity.
  - vm_compute. reflexivity.
Defined.

(** * Further properties of the code *)

(** ** The version label *)








(** ** Which labels change the residual *)



(** ** The residual, up to order *)

Lemma with_fp_NoDup l pkg :
  NoDup (Fingerprint <$> l) -> pkg ∈ l -> with_fp (Fingerprint pkg) l = [pkg].
Proof.
  induction l as [|a l IH]; intros Hnd Hin; [by apply elem_of_nil in Hin|].
  rewrite fmap_cons in Hnd. apply NoDup_cons in Hnd as [Hnotin Hnd].
  unfold with_fp. rewrite filter_cons.
  apply elem_of_cons in Hin as [->|Hin].
  - rewrite decide_True by done. f_equal.
    destruct (filter _ l) as [|b bs] eqn:E; [done|exfalso].
    assert (b ∈ filter (fun x => Fingerprint x = Fingerprint a) l) as Hb
      by (rewrite E; left).
    apply list_elem_of_filter in Hb as [Hfp Hbl].
    apply Hnotin. rewrite <- Hfp. by apply list_elem_of_fmap_2.
  - destruct (decide (Fingerprint a = Fingerprint pkg)) as [Heq|Hne].
    + exfalso. apply Hnotin. rewrite Heq. by apply list_elem_of_fmap_2.
    + by apply IH.
Qed.

Lemma last_with_fp_NoDup l pkg :
  NoDup (Fingerprint <$> l) ->
  last (with_fp (Fingerprint pkg) l) = Some pkg <-> pkg ∈ l.
Proof.
  intros Hnd. split.
  - intros H. by apply last_with_fp in H as [_ ?].
  - intros Hin. by rewrite with_fp_NoDup.
Qed.

(** X3. When the requested packages have pairwise distinct fingerprints,
    as those collected by the populator have, the residual is, up to
    order, the requested packages whose fingerprint no covered label has
    the shape of: all of them when nothing is covered, none when every
    requested fingerprint is free of dots and has its label covered. *)
Theorem layer_matcher_residual_is_uncovered rt dk p pkgs w img
    (covered : gmap string string) :
  GoRuntimeLaws rt ->
  @NewImageManager dk = None ->
  @FindBestImageWithLabels dk (effective_base w p) (fingerprint_labels pkgs)
    [fissileVersionLabel p] = inr (img, covered) ->
  NoDup (Fingerprint <$> pkgs) ->
  exists residual,
    @determinePackagesLayerBaseImage rt dk p pkgs w
    = (inr (img, residual), log_lookup w (catalog_query w p pkgs))
    /\ residual
       ≡ₚ filter (fun pkg =>
                    ~ covers (map_to_list covered).*1 (Fingerprint pkg)) pkgs
    /\ (covered = ∅ -> residual ≡ₚ pkgs)
    /\ ((forall pkg, pkg ∈ pkgs ->
           GoString.contains "." (Fingerprint pkg) = false
           /\ "fingerprint." ++ Fingerprint pkg ∈ dom covered) ->
        residual = []).
Proof.
  intros L Hm Hf Hnd. eexists. split; [by apply determine_returns|].
  set (residual := (range_map (remaining_after (range_map covered).*1 pkgs)).*2).
  assert (forall pkg,
            pkg ∈ residual
            <-> pkg ∈ pkgs
                /\ ~ covers (map_to_list covered).*1 (Fingerprint pkg)) as Helem.
  { intros pkg. unfold residual. rewrite residual_elem.
    rewrite last_with_fp_NoDup by done. unfold covers.
    split; intros [Hin Hno]; (split; [done|]); intros (label & Hl & Hs);
      apply Hno; exists label; (split; [|done]); by apply elem_of_map_keys. }
  assert (residual
          ≡ₚ filter (fun pkg =>
                       ~ covers (map_to_list covered).*1 (Fingerprint pkg)) pkgs)
    as Hperm.
  { apply NoDup_Permutation.
    - apply residual_NoDup.
    - apply NoDup_filter. by apply (NoDup_fmap_1 Fingerprint).
    - intros pkg. rewrite Helem, list_elem_of_filter. tauto. }
  split; [exact Hperm|]. split.
  - intros ->. rewrite Hperm. rewrite map_to_list_empty.
    clear. induction pkgs as [|a l IH]; [done|].
    rewrite filter_cons, decide_True; [by rewrite IH|].
    intros (label & Hl & _). by apply elem_of_nil in Hl.
  - intros Hall. apply Permutation_nil_r. rewrite Hperm.
    clear -Hall. induction pkgs as [|a l IH]; [done|].
    rewrite filter_cons, decide_False.
    + apply IH. intros pkg Hp. apply Hall. by right.
    + intros Hno. apply Hno. destruct (Hall a) as [Hdot Hlabel]; [left|].
      exists ("fingerprint." ++ Fingerprint a). split.
      * by apply elem_of_map_keys.
      * by apply split_fingerprint_label.
Qed.

Lemma layer_matcher_residual_is_uncovered_witness :
  exists residual,
    @determinePackagesLayerBaseImage reverse_runtime empty_catalog acme
      [pkg_f1_h1; pkg_f2] fresh_world
    = (inr ("stemcell", residual),
       log_lookup fresh_world
         (catalog_query fresh_world acme [pkg_f1_h1; pkg_f2]))
    /\ residual ≡ₚ [pkg_f1_h1; pkg_f2].
Proof.
  destruct (layer_matcher_residual_is_uncovered reverse_runtime empty_catalog
              acme [pkg_f1_h1; pkg_f2] fresh_world "stemcell" ∅
              reverse_runtime_laws eq_refl eq_refl)
    as (residual & Hrun & _ & Hall & _).
  - simpl. repeat constructor; rewrite ?elem_of_cons, ?elem_of_nil;
      intros H; repeat destruct H as [H|H]; done.
  - exists residual. split; [exact Hrun|]. by apply Hall.
Defined.

(** ** The packages collected by the populator *)

Lemma collect_fold_sublist l found acc :
  exists kept,
    snd (fold_left collect_step l (found, acc)) = (acc ++ kept)%list
    /\ sublist kept l.
Proof.
  revert found acc. induction l as [|a l IH]; intros found acc; cbn [fold_left].
  - exists []. split; [by rewrite app_nil_r|constructor].
  - unfold collect_step at 2.
    destruct (decide (Fingerprint a ∈ found)).
    + destruct (IH found acc) as (kept & -> & Hsub).
      exists kept. split; [done|by constructor].
    + destruct (IH (found ∪ {[Fingerprint a]}) (acc ++ [a])%list)
        as (kept & -> & Hsub).
      exists (a :: kept). split; [by rewrite <- app_assoc|by constructor].
Qed.

Lemma collect_fold_fresh l found acc :
  NoDup (Fingerprint <$> l) ->
  (forall f, f ∈ Fingerprint <$> l -> f ∉ found) ->
  snd (fold_left collect_step l (found, acc)) = (acc ++ l)%list.
Proof.
  revert found acc. induction l as [|a l IH]; intros found acc Hnd Hfresh;
    cbn [fold_left]; [by rewrite app_nil_r|].
  rewrite fmap_cons in Hnd. apply NoDup_cons in Hnd as [Hnotin Hnd].
  unfold collect_step at 2.
  rewrite decide_False by (apply Hfresh; rewrite fmap_cons; left).
  rewrite IH; [by rewrite <- app_assoc|done|].
  intros f Hf. rewrite elem_of_union, elem_of_singleton. intros [Hin| ->].
  - revert Hin. apply Hfresh. rewrite fmap_cons. by right.
  - done.
Qed.

Lemma with_fp_nonempty f l : f ∈ Fingerprint <$> l <-> with_fp f l <> [].
Proof.
  rewrite list_elem_of_fmap. split.
  - intros (x & -> & Hx) E.
    assert (x ∈ with_fp (Fingerprint x) l) as H by (by apply list_elem_of_filter).
    rewrite E in H. by apply elem_of_nil in H.
  - intros Hne. destruct (with_fp f l) as [|x xs] eqn:E; [done|].
    assert (x ∈ with_fp f l) as H by (rewrite E; left).
    apply list_elem_of_filter in H as [<- Hx]. by exists x.
Qed.

Lemma NoDup_fp_of_with_fp l :
  (forall f, (length (with_fp f l) <= 1)%nat) -> NoDup (Fingerprint <$> l).
Proof.
  induction l as [|a l IH]; intros Hlen; [constructor|].
  rewrite fmap_cons. apply NoDup_cons. split.
  - intros Hin. apply with_fp_nonempty in Hin.
    specialize (Hlen (Fingerprint a)). unfold with_fp in *.
    rewrite filter_cons, decide_True in Hlen by done.
    destruct (filter _ l); [done|simpl in Hlen; lia].
  - apply IH. intros f. specialize (Hlen f). unfold with_fp in *.
    rewrite filter_cons in Hlen. destruct (decide _); simpl in Hlen; lia.
Qed.

Lemma collect_packages_NoDup roles :
  NoDup (Fingerprint <$> collect_packages roles).
Proof.
  apply NoDup_fp_of_with_fp. intros f. rewrite collect_packages_with_fp.
  destruct (head _); simpl; lia.
Qed.

Lemma collect_packages_fingerprints roles f :
  f ∈ Fingerprint <$> collect_packages roles <-> f ∈ Fingerprint <$> gather roles.
Proof.
  rewrite !with_fp_nonempty, collect_packages_with_fp.
  destruct (with_fp f (gather roles)); simpl; split; done.
Qed.

(** X4. The packages collected by the populator are a subsequence of the
    packages referenced by the roles (the order of discovery is kept), no
    two of them share a fingerprint, every referenced fingerprint is among
    theirs, and when no fingerprint is referenced twice they are all the
    referenced packages, in order. *)
Theorem collected_in_discovery_order roles :
  sublist (collect_packages roles) (gather roles)
  /\ NoDup (Fingerprint <$> collect_packages roles)
  /\ (forall f, f ∈ Fingerprint <$> collect_packages roles
                <-> f ∈ Fingerprint <$> gather roles)
  /\ (NoDup (Fingerprint <$> gather roles) ->
      collect_packages roles = gather roles).
Proof.
  split; [|split; [|split]].
  - rewrite collect_packages_gather.
    destruct (collect_fold_sublist (gather roles) ∅ []) as (kept & -> & Hsub).
    exact Hsub.
  - apply collect_packages_NoDup.
  - apply collect_packages_fingerprints.
  - intros Hnd. rewrite collect_packages_gather, collect_fold_fresh; [done..|].
    intros f _. apply not_elem_of_empty.
Qed.

Lemma collected_in_discovery_order_witness :
  collect_packages [one_role [pkg_f2]; one_role [pkg_f1_h1]]
  = gather [one_role [pkg_f2]; one_role [pkg_f1_h1]].
Proof.
  apply (collected_in_discovery_order [one_role [pkg_f2]; one_role [pkg_f1_h1]]).
  simpl. repeat constructor; rewrite ?elem_of_cons, ?elem_of_nil;
    intros H; repeat destruct H as [H|H]; done.
Defined.

(** ** The image name and the packages of the layer *)

Lemma head_last_with_fp l f x :
  fingerprints_identify l ->
  head (with_fp f l) = Some x <-> last (with_fp f l) = Some x.
Proof.
  intros Hid. split; intros H.
  - destruct (last (with_fp f l)) as [y|] eqn:E.
    + apply head_with_fp in H as [Hx Hxl]. apply last_with_fp in E as [Hy Hyl].
      f_equal. apply Hid; congruence.
    + apply last_None in E. rewrite E in H. done.
  - destruct (head (with_fp f l)) as [y|] eqn:E.
    + apply last_with_fp in H as [Hx Hxl]. apply head_with_fp in E as [Hy Hyl].
      f_equal. apply Hid; congruence.
    + apply head_None in E. rewrite E in H. done.
Qed.

(** X5. The packages hashed into the tag and the packages the populator
    collects carry the same fingerprints, each once. When packages that
    share a fingerprint are the same package, the hashed list is the
    collected list sorted, so the tag is the digest of exactly the packages
    a forced build puts in the layer. *)
Theorem image_name_hashes_collected_packages rt u p roles :
  GoRuntimeLaws rt ->
  Fingerprint <$> @sorted_packages rt roles
    ≡ₚ Fingerprint <$> collect_packages roles
  /\ (fingerprints_identify (gather roles) ->
      @sorted_packages rt roles = sort_Sort (collect_packages roles)
      /\ @GetPackagesLayerImageName rt u p roles
         = inr (SanitizeDockerName (repository p ++ "-role-packages") ++ ":"
                ++ SanitizeDockerName
                     (Hex.EncodeToString
                        (Sha1.Sum
                           (digest_input p
                              (sort_Sort (collect_packages roles))))))).
Proof.
  intros L. split.
  - apply NoDup_Permutation.
    + apply sorted_packages_NoDup.
    + apply collect_packages_NoDup.
    + intros f.
      rewrite collect_packages_fingerprints, (with_fp_nonempty f (gather roles)).
      rewrite list_elem_of_fmap. split.
      * intros (pkg & -> & Hin). apply sorted_packages_elem in Hin.
        intros E. rewrite E in Hin. done.
      * intros Hne. destruct (last (with_fp f (gather roles))) as [pkg|] eqn:E;
          [|by apply last_None in E].
        pose proof (last_with_fp _ _ _ E) as [Hfp _]. exists pkg.
        split; [done|]. apply sorted_packages_elem. by rewrite Hfp.
  - intros Hid.
    assert (@sorted_packages rt roles = sort_Sort (collect_packages roles)) as E.
    { apply sorted_unique.
      - rewrite sort_Sort_perm. apply NoDup_Permutation.
        + apply (NoDup_fmap_1 Fingerprint), sorted_packages_NoDup.
        + apply (NoDup_fmap_1 Fingerprint), collect_packages_NoDup.
        + intros pkg. rewrite sorted_packages_elem, collect_packages_elem.
          symmetry. by apply head_last_with_fp.
      - apply sorted_packages_NoDup.
      - apply sort_Sort_sorted.
      - apply sort_Sort_sorted. }
    split; [exact E|]. unfold GetPackagesLayerImageName. by rewrite E.
Qed.

Lemma image_name_hashes_collected_packages_witness :
  @sorted_packages reverse_runtime [one_role [pkg_f2; pkg_f1_h1]; one_role [pkg_f2]]
  = @sort_Sort reverse_runtime
      (collect_packages [one_role [pkg_f2; pkg_f1_h1]; one_role [pkg_f2]]).
Proof.
  apply (image_name_hashes_collected_packages reverse_runtime simple_util acme
           [one_role [pkg_f2; pkg_f1_h1]; one_role [pkg_f2]]
           reverse_runtime_laws).
  intros a b Ha Hb. simpl in Ha, Hb.
  repeat (apply elem_of_cons in Ha as [->|Ha]);
    repeat (apply elem_of_cons in Hb as [->|Hb]);
    try (by apply elem_of_nil in Ha); try (by apply elem_of_nil in Hb);
    simpl; congruence.
Defined.

(** X7. The reference depends on the packages referenced only as a set:
    when packages that share a fingerprint are the same package, roles
    that reference the same packages, however often and in whatever order,
    get the same reference. *)
Theorem image_name_depends_on_package_set rt1 rt2 u p roles roles' :
  GoRuntimeLaws rt1 -> GoRuntimeLaws rt2 ->
  fingerprints_identify (gather roles) ->
  (forall pkg, pkg ∈ gather roles <-> pkg ∈ gather roles') ->
  @GetPackagesLayerImageName rt1 u p roles
  = @GetPackagesLayerImageName rt2 u p roles'.
Proof.
  intros L1 L2 Hid Hset. unfold GetPackagesLayerImageName.
  rewrite (sorted_packages_runtime rt1 rt2 roles roles'); [done..|].
  apply map_eq. intros f. rewrite !pkgMap_of_lookup.
  destruct (last (with_fp f (gather roles))) as [x|] eqn:E1;
    destruct (last (with_fp f (gather roles'))) as [y|] eqn:E2; [| | |done].
  - apply last_with_fp in E1 as [Hx Hxin]. apply last_with_fp in E2 as [Hy Hyin].
    apply Hset in Hyin. f_equal. apply Hid; congruence.
  - apply last_with_fp in E1 as [Hx Hxin]. apply Hset in Hxin.
    apply last_None in E2.
    assert (f ∈ Fingerprint <$> gather roles') as Hf
      by (rewrite <- Hx; by apply list_elem_of_fmap_2).
    by apply with_fp_nonempty in Hf.
  - apply last_with_fp in E2 as [Hy Hyin]. apply Hset in Hyin.
    apply last_None in E1.
    assert (f ∈ Fingerprint <$> gather roles) as Hf
      by (rewrite <- Hy; by apply list_elem_of_fmap_2).
    by apply with_fp_nonempty in Hf.
Qed.

Lemma image_name_depends_on_package_set_witness :
  @GetPackagesLayerImageName simple_runtime simple_util acme
    [one_role [pkg_f1_h1; pkg_f2]]
  = @GetPackagesLayerImageName reverse_runtime simple_util acme
      [one_role [pkg_f2; pkg_f2]; one_role [pkg_f1_h1; pkg_f2]].
Proof.
  apply (image_name_depends_on_package_set simple_runtime reverse_runtime
           simple_util acme [one_role [pkg_f1_h1; pkg_f2]]
           [one_role [pkg_f2; pkg_f2]; one_role [pkg_f1_h1; pkg_f2]]
           simple_runtime_laws reverse_runtime_laws).
  - intros a b Ha Hb. simpl in Ha, Hb.
    repeat (apply elem_of_cons in Ha as [->|Ha]);
      repeat (apply elem_of_cons in Hb as [->|Hb]);
      try (by apply elem_of_nil in Ha); try (by apply elem_of_nil in Hb);
      simpl; congruence.
  - intros pkg. simpl. rewrite !elem_of_cons, !elem_of_nil. tauto.
Defined.

(** ** The shape of the tag *)

Lemma be_bytes_shape n x :
  length (Sha1.be_bytes n x) = n /\ Forall is_byte (Sha1.be_bytes n x).
Proof.
  induction n as [|n [IHl IHr]]; simpl; [by split|].
  split; [by rewrite IHl|]. constructor; [|done].
  unfold is_byte. apply Z.mod_pos_bound. lia.
Qed.

Lemma sum_bytes_shape msg :
  length (Sha1.sum_bytes msg) = 20%nat /\ Forall is_byte (Sha1.sum_bytes msg).
Proof.
  unfold Sha1.sum_bytes.
  destruct (fold_left _ _ _) as [[[[h0 h1] h2] h3] h4].
  split.
  - rewrite !length_app. by rewrite !(proj1 (be_bytes_shape _ _)).
  - rewrite !Forall_app. repeat split; apply be_bytes_shape.
Qed.

Lemma digit_legal d : 0 <= d < 16 -> docker_char (Hex.digit d) = true.
Proof.
  intros Hd.
  assert (d = 0 \/ d = 1 \/ d = 2 \/ d = 3 \/ d = 4 \/ d = 5 \/ d = 6 \/ d = 7
          \/ d = 8 \/ d = 9 \/ d = 10 \/ d = 11 \/ d = 12 \/ d = 13 \/ d = 14
          \/ d = 15) as H by lia.
  repeat (destruct H as [->|H]; [reflexivity|]). subst. reflexivity.
Qed.

Lemma hex_shape bs :
  Forall is_byte bs ->
  String.length (Hex.EncodeToString bs) = (2 * length bs)%nat
  /\ docker_legal (Hex.EncodeToString bs) = true.
Proof.
  induction 1 as [|b bs Hb Hbs [IHl IHr]]; simpl; [by split|].
  split; [rewrite IHl; lia|].
  unfold is_byte in Hb.
  rewrite !digit_legal, IHr; [done| |].
  - apply Z.mod_pos_bound. lia.
  - split; [apply Z.div_pos; lia|apply Z.div_lt_upper_bound; lia].
Qed.

(** X6. Whatever the roles, [GetPackagesLayerImageName] returns a
    reference and no error; with a sanitizer that keeps legal names its
    tag is the hexadecimal SHA-1 digest itself, 40 characters that are all
    legal in a docker name. *)
Theorem image_tag_is_hex_digest rt u p roles :
  UtilLaws u ->
  exists tag,
    @GetPackagesLayerImageName rt u p roles
    = inr (SanitizeDockerName (repository p ++ "-role-packages") ++ ":" ++ tag)
    /\ tag = Hex.EncodeToString
               (Sha1.Sum (digest_input p (@sorted_packages rt roles)))
    /\ String.length tag = 40%nat
    /\ docker_legal tag = true.
Proof.
  intros Lu. eexists. split; [|split; [reflexivity|]].
  - unfold GetPackagesLayerImageName. do 3 f_equal. apply sanitize_legal.
    apply hex_shape, sum_bytes_shape.
  - destruct (sum_bytes_shape
                (GoString.bytes (digest_input p (@sorted_packages rt roles))))
      as [Hlen Hall].
    destruct (hex_shape _ Hall) as [Hl Hlegal]. unfold Sha1.Sum.
    split; [|exact Hlegal]. rewrite Hl, Hlen. reflexivity.
Qed.

Lemma image_tag_is_hex_digest_witness :
  exists tag,
    @GetPackagesLayerImageName simple_runtime simple_util acme sample_roles
    = inr (@SanitizeDockerName simple_util (repository acme ++ "-role-packages")
             ++ ":" ++ tag)
    /\ tag = Hex.EncodeToString
               (Sha1.Sum (digest_input acme (@sorted_packages simple_runtime
                                               sample_roles)))
    /\ String.length tag = 40%nat
    /\ docker_legal tag = true.
Proof.
  exact (image_tag_is_hex_digest simple_runtime simple_util acme sample_roles
           simple_util_laws).
Defined.

(** ** The digest input determines the packages *)

Lemma append_inv_head (a b c : string) : a ++ b = a ++ c -> b = c.
Proof.
  induction a as [|x a IH]; [intros H; exact H|].
  rewrite !append_cons. intros [= H]. by apply IH.
Qed.

Lemma digest_input_record p pkgs :
  digest_input p pkgs
  = (fissileVersion p ++ ":" ++ stemcellImageID p) ++ packages_record pkgs.
Proof.
  unfold digest_input, Sha1.New, Sha1.Write.
  change (EmptyString ++ ?x) with x.
  generalize (fissileVersion p ++ ":" ++ stemcellImageID p) as h.
  induction pkgs as [|pkg pkgs IH]; intros h; cbn [fold_left packages_record].
  - by rewrite append_nil_r.
  - by rewrite IH, append_assoc.
Qed.

Lemma split_record a pkgs :
  GoString.contains "000" a = false -> Forall nul_free pkgs ->
  GoString.split "000" (a ++ packages_record pkgs) = a :: package_fields pkgs.
Proof.
  intros Ha Hall. revert a Ha.
  induction Hall as [|pkg pkgs (Hf & Hn & Hs) Hall IH]; intros a Ha.
  - cbn [packages_record package_fields flat_map].
    rewrite append_nil_r. by apply split_single.
  - cbn [packages_record].
    change (GoString.join NUL [EmptyString; Fingerprint pkg; Name pkg; SHA1 pkg])
      with (String "000" (Fingerprint pkg
              ++ String "000" (Name pkg ++ String "000" (SHA1 pkg)))).
    change (String "000" ?x ++ ?y) with (String "000" (x ++ y)).
    rewrite split_app by done.
    rewrite (append_assoc (Fingerprint pkg)).
    change (String "000" ?x ++ ?y) with (String "000" (x ++ y)).
    rewrite split_app by done.
    rewrite (append_assoc (Name pkg)).
    change (String "000" ?x ++ ?y) with (String "000" (x ++ y)).
    rewrite split_app by done.
    rewrite IH by done. reflexivity.
Qed.

Lemma package_fields_inj l1 l2 :
  package_fields l1 = package_fields l2 -> l1 = l2.
Proof.
  revert l2. induction l1 as [|[n1 f1 s1] l1 IH]; intros [|[n2 f2 s2] l2];
    try done.
  cbn. intros [= -> -> -> H]. f_equal. by apply IH.
Qed.

(** X8. For packages whose fingerprint, name and content hash hold no NUL
    byte, what is written to the hasher determines the package list: two
    different lists never give the same digest input, so two tags of one
    builder can only coincide through SHA-1 itself. *)
Theorem digest_input_injective p l1 l2 :
  Forall nul_free l1 -> Forall nul_free l2 ->
  digest_input p l1 = digest_input p l2 -> l1 = l2.
Proof.
  intros H1 H2 E. rewrite !digest_input_record in E.
  apply append_inv_head in E.
  apply package_fields_inj.
  pose proof (split_record EmptyString l1 eq_refl H1) as S1.
  pose proof (split_record EmptyString l2 eq_refl H2) as S2.
  cbn [String.append] in S1, S2. rewrite E in S1. rewrite S1 in S2.
  by injection S2.
Qed.

Lemma digest_input_injective_witness :
  [pkg_f1_h1; pkg_f2] = [pkg_f1_h1; pkg_f2].
Proof.
  apply (digest_input_injective acme [pkg_f1_h1; pkg_f2] [pkg_f1_h1; pkg_f2]);
    [repeat constructor..|reflexivity].
Defined.

(** X9. Whatever its outcome, the populator leaves the entries already in
    the stream untouched and only appends to them, leaves the base image
    override as it is, and sends at most one query to the catalog, none
    when the build is forced. *)
Theorem populator_only_appends rt dk ts os tp p roles forceBuildAll w r w' :
  @NewDockerPopulator rt dk ts os tp p roles forceBuildAll w = (r, w') ->
  exists ext,
    stream w' = (stream w ++ ext)%list
    /\ baseImageOverride w' = baseImageOverride w
    /\ (lookups w' = lookups w
        \/ forceBuildAll = false
           /\ lookups w'
              = (lookups w ++ [catalog_query w p (collect_packages roles)])%list).
Proof.
  intros E.
  destruct (populator_outcome p roles forceBuildAll (fun _ _ => True) w r w')
    as (ext & Hs & Ho & Hl & _); [|done|by exists ext].
  intros pkg. eapply yields_weaken; [|apply filepath_Walk_yields]. done.
Qed.

Lemma populator_only_appends_witness :
  exists ext,
    stream (snd (@NewDockerPopulator simple_runtime empty_catalog no_faults
                   sample_os sample_templates acme [one_role [pkg_dotted]]
                   false fresh_world))
    = (stream fresh_world ++ ext)%list
    /\ baseImageOverride
         (snd (@NewDockerPopulator simple_runtime empty_catalog no_faults
                 sample_os sample_templates acme [one_role [pkg_dotted]]
                 false fresh_world))
       = baseImageOverride fresh_world
    /\ (lookups (snd (@NewDockerPopulator simple_runtime empty_catalog
                        no_faults sample_os sample_templates acme
                        [one_role [pkg_dotted]] false fresh_world))
        = lookups fresh_world
        \/ false = false
           /\ lookups (snd (@NewDockerPopulator simple_runtime empty_catalog
                              no_faults sample_os sample_templates acme
                              [one_role [pkg_dotted]] false fresh_world))
              = (lookups fresh_world
                 ++ [catalog_query fresh_world acme
                       (collect_packages [one_role [pkg_dotted]])])%list).
Proof.
  apply (populator_only_appends simple_runtime empty_catalog no_faults
           sample_os sample_templates acme [one_role [pkg_dotted]] false
           fresh_world (inl (Errorf "no such file or directory"))).
  vm_compute. reflexivity.
Defined.

(** ** What a successful run has copied *)

(** X10. After a successful run the stream holds, after the Dockerfile,
    rendered for the residual packages, and the "packages-src" entry, one
    group of entries for each of these residual packages in order, and
    each group is, one entry for one file and in the order of the walk (a
    directory before what it holds), the copies of all the files met from
    the package's compiled directory: no file is left out and none is
    written twice. *)
Theorem context_lists_every_file
    rt dk ts os tp p roles forceBuildAll w w' :
  @NewDockerPopulator rt dk ts os tp p roles forceBuildAll w = (inr tt, w') ->
  exists base residual dockerfile groups,
    (if forceBuildAll
     then base = stemcellImageName p /\ residual = collect_packages roles
     else exists w1,
         determinePackagesLayerBaseImage p (collect_packages roles) w
         = (inr (base, residual), w1))
    /\ generateDockerfile p base residual = inr dockerfile
    /\ stream w'
       = (stream w ++ dockerfile_entry dockerfile :: packages_src_entry
            :: concat groups)%list
    /\ Forall2
         (fun pkg group =>
            Forall2
              (fun file e =>
                 faithful_copy (walker_of p pkg) (fst file) (snd file) e)
              (tree_files []
                 (disk (GetPackageCompiledDir pkg (compiledPackagesPath p))))
              group)
         residual groups.
Proof.
  intros E.
  destruct (populator_outcome p roles forceBuildAll
              (fun pkg => copies_of_tree (walker_of p pkg) []
                            (disk (root (walker_of p pkg)))) w (inr tt) w')
    as (ext & Hs & _ & _ & Hok); [intros pkg; apply filepath_Walk_yields|done|].
  destruct (Hok I)
    as (base & residual & dockerfile & groups & Hres & Hdf & -> & Hall).
  exists base, residual, dockerfile, groups.
  split; [exact Hres|]. split; [exact Hdf|]. split; [exact Hs|].
  eapply Forall2_impl; [exact Hall|].
  intros pkg group Hg. eapply Forall2_impl; [exact Hg|].
  by intros file e [? _].
Qed.

Lemma context_lists_every_file_witness :
  exists base residual dockerfile groups,
    (base = stemcellImageName acme /\ residual = collect_packages sample_roles)
    /\ @generateDockerfile sample_templates acme base residual = inr dockerfile
    /\ stream (snd (@NewDockerPopulator simple_runtime empty_catalog
                      no_faults sample_os sample_templates acme sample_roles
                      true fresh_world))
       = (stream fresh_world ++ dockerfile_entry dockerfile
            :: packages_src_entry :: concat groups)%list
    /\ Forall2
         (fun pkg group =>
            Forall2
              (fun file e =>
                 @faithful_copy sample_os (@walker_of sample_os acme pkg)
                   (fst file) (snd file) e)
              (tree_files []
                 (@disk sample_os
                    (@GetPackageCompiledDir sample_os pkg
                       (compiledPackagesPath acme))))
              group)
         residual groups.
Proof.
  apply (context_lists_every_file simple_runtime empty_catalog no_faults
           sample_os sample_templates acme sample_roles true fresh_world).
  vm_compute. reflexivity.
Defined.

Lemma Forall2_elem_l {A B} (R : A -> B -> Prop) l k x :
  Forall2 R l k -> x ∈ l -> exists y, y ∈ k /\ R x y.
Proof.
  induction 1 as [|a b l k Hab Hall IH]; intros Hx; [by apply elem_of_nil in Hx|].
  apply elem_of_cons in Hx as [->|Hx].
  - exists b. split; [left|done].
  - destruct (IH Hx) as (y & Hy & HR). exists y. split; [by right|done].
Qed.

(** X11. A forced build fails whenever a file met from the compiled
    directory of one of the collected packages cannot be accessed: a
    missing directory or file, a file that cannot be opened, a link that
    cannot be read or a directory that cannot be listed is never skipped. *)
Theorem inaccessible_file_fails_the_build
    rt dk ts os tp p roles w r w' pkg rel node :
  pkg ∈ collect_packages roles ->
  (rel, node)
    ∈ tree_files [] (disk (GetPackageCompiledDir pkg (compiledPackagesPath p))) ->
  ~ accessible node ->
  @NewDockerPopulator rt dk ts os tp p roles true w = (r, w') ->
  exists err, r = inl err.
Proof.
  intros Hpkg Hfile Hbad E. destruct r as [err|[]]; [by exists err|exfalso].
  destruct (populator_outcome p roles true
              (fun pkg => copies_of_tree (walker_of p pkg) []
                            (disk (root (walker_of p pkg)))) w (inr tt) w')
    as (ext & _ & _ & _ & Hok); [intros q; apply filepath_Walk_yields|done|].
  destruct (Hok I) as (base & residual & dockerfile & groups
                       & [_ ->] & _ & _ & Hall).
  destruct (Forall2_elem_l _ _ _ _ Hall Hpkg) as (group & _ & Hgroup).
  destruct (Forall2_elem_l _ _ _ _ Hgroup Hfile) as (e & _ & _ & Hacc).
  by apply Hbad.
Qed.

Lemma inaccessible_file_fails_the_build_witness :
  exists err,
    fst (@NewDockerPopulator simple_runtime empty_catalog no_faults sample_os
           sample_templates acme [one_role [pkg_f1_h1; pkg_missing]] true
           fresh_world)
    = inl err.
Proof.
  apply (inaccessible_file_fails_the_build simple_runtime empty_catalog
           no_faults sample_os sample_templates acme
           [one_role [pkg_f1_h1; pkg_missing]] fresh_world _
           (snd (@NewDockerPopulator simple_runtime empty_catalog no_faults
                   sample_os sample_templates acme
                   [one_role [pkg_f1_h1; pkg_missing]] true fresh_world))
           pkg_missing [] (NFault (Errorf "no such file or directory"))).
  - vm_compute. right. left.
  - vm_compute. left.
  - intros [].
  - apply surjective_pairing.
Defined.

(** ** Complete entries *)

Lemma Forall2_Forall_right {A B} (R : A -> B -> Prop) (Q : B -> Prop) l k :
  (forall x y, R x y -> Q y) -> Forall2 R l k -> Forall Q k.
Proof. intros HQ. induction 1; constructor; eauto. Qed.

(** X12. With [tar.FileInfoHeader] as documented, every entry a successful
    run has appended carries exactly as many bytes as its header
    announces, and nothing is owed to the last one: the archive can be
    closed. *)
Theorem context_entries_complete rt dk ts os tp p roles forceBuildAll w w' :
  @FileInfoHeader os = tar_FileInfoHeader ->
  @NewDockerPopulator rt dk ts os tp p roles forceBuildAll w = (inr tt, w') ->
  exists ext,
    stream w' = (stream w ++ ext)%list
    /\ Forall entry_complete ext
    /\ owed (stream w') = 0.
Proof.
  intros Hstd E.
  destruct (populator_outcome p roles forceBuildAll
              (fun _ => Forall entry_complete) w (inr tt) w')
    as (ext & Hs & _ & _ & Hok); [|done|].
  { intros pkg. eapply yields_weaken; [|apply filepath_Walk_yields].
    intros ext. apply Forall2_Forall_right. intros file e [Hc _].
    by eapply faithful_copy_complete. }
  destruct (Hok I) as (base & residual & dockerfile & groups & _ & _ & -> & Hall).
  assert (Forall entry_complete
            (dockerfile_entry dockerfile :: packages_src_entry :: concat groups))
    as Hcomplete.
  { repeat (constructor; [reflexivity|]).
    apply Forall_concat. eapply Forall2_Forall_right; [|exact Hall]. done. }
  eexists. split; [exact Hs|]. split; [exact Hcomplete|].
  unfold owed. rewrite Hs.
  destruct (last _) as [e|] eqn:El; [|done].
  rewrite last_app in El.
  destruct (last (dockerfile_entry dockerfile :: _)) as [e'|] eqn:El';
    [|by apply last_None in El'].
  injection El as <-. apply last_Some_elem_of in El'.
  rewrite Forall_forall in Hcomplete. specialize (Hcomplete _ El').
  unfold entry_complete in Hcomplete. lia.
Qed.

Lemma context_entries_complete_witness :
  exists ext,
    stream (snd (@NewDockerPopulator simple_runtime empty_catalog no_faults
                   sample_os sample_templates acme sample_roles false
                   fresh_world))
    = (stream fresh_world ++ ext)%list
    /\ Forall entry_complete ext
    /\ owed (stream (snd (@NewDockerPopulator simple_runtime empty_catalog
                            no_faults sample_os sample_templates acme
                            sample_roles false fresh_world)))
       = 0.
Proof.
  apply (context_entries_complete simple_runtime empty_catalog no_faults
           sample_os sample_templates acme sample_roles false fresh_world).
  - reflexivity.
  - vm_compute. reflexivity.
Defined.

(** ** Packages the matched image holds already *)

Lemma residual_nil_when_all_covered {rt : GoRuntime} {laws : GoRuntimeLaws rt}
    (covered : gmap string string) pkgs :
  (forall pkg, pkg ∈ pkgs ->
     GoString.contains "." (Fingerprint pkg) = false
     /\ "fingerprint." ++ Fingerprint pkg ∈ dom covered) ->
  (range_map (remaining_after (range_map covered).*1 pkgs)).*2 = [].
Proof.
  intros Hall.
  destruct (range_map _).*2 as [|pkg l] eqn:E; [done|exfalso].
  assert (pkg ∈ (range_map (remaining_after (range_map covered).*1 pkgs)).*2)
    as Hin by (rewrite E; left).
  apply residual_elem in Hin as [Hl Hno].
  apply last_with_fp in Hl as [_ Hp]. destruct (Hall _ Hp) as [Hdot Hlabel].
  apply Hno. exists ("fingerprint." ++ Fingerprint pkg). split; [done|].
  by apply split_fingerprint_label.
Qed.

(** X13. When the image the catalog matched covers the label of every
    collected package (fingerprints without dot), a successful build that
    is not forced copies no package: it appends the Dockerfile, rendered
    for the matched image and no package, and the "packages-src" entry,
    and nothing else. *)
Theorem covered_packages_are_not_copied
    rt dk ts os tp p roles w w' img (covered : gmap string string) :
  GoRuntimeLaws rt ->
  @NewImageManager dk = None ->
  @FindBestImageWithLabels dk (effective_base w p)
    (fingerprint_labels (collect_packages roles)) [fissileVersionLabel p]
  = inr (img, covered) ->
  (forall pkg, pkg ∈ collect_packages roles ->
     GoString.contains "." (Fingerprint pkg) = false
     /\ "fingerprint." ++ Fingerprint pkg ∈ dom covered) ->
  @NewDockerPopulator rt dk ts os tp p roles false w = (inr tt, w') ->
  exists dockerfile,
    generateDockerfile p img [] = inr dockerfile
    /\ stream w'
       = (stream w ++ [dockerfile_entry dockerfile; packages_src_entry])%list.
Proof.
  intros L Hm Hf Hall E.
  destruct (populator_success _ _ _ _ _ E)
    as (base & residual & dockerfile & groups & [w1 Hd] & Hg & Hs & Hgroups).
  rewrite (determine_returns p _ w img covered Hm Hf) in Hd.
  rewrite residual_nil_when_all_covered in Hd by done.
  injection Hd as <- <- _.
  apply Forall2_nil_inv_l in Hgroups as ->.
  by exists dockerfile.
Qed.

Lemma covered_packages_are_not_copied_witness :
  exists dockerfile,
    @generateDockerfile sample_templates acme "cached" [] = inr dockerfile
    /\ stream (snd (@NewDockerPopulator simple_runtime covering_catalog
                      no_faults sample_os sample_templates acme sample_roles
                      false fresh_world))
       = (stream fresh_world
          ++ [dockerfile_entry dockerfile; packages_src_entry])%list.
Proof.
  apply (covered_packages_are_not_copied simple_runtime covering_catalog
           no_faults sample_os sample_templates acme sample_roles fresh_world
           _ "cached"
           (list_to_map [("fingerprint.f1", EmptyString);
                         ("fingerprint.f2", EmptyString);
                         ("version.generator.fissile", EmptyString)])
           simple_runtime_laws eq_refl eq_refl).
  - intros pkg Hpkg. vm_compute in Hpkg.
    repeat (apply elem_of_cons in Hpkg as [->|Hpkg]);
      [..|by apply elem_of_nil in Hpkg];
      (split; [reflexivity|]); apply elem_of_dom; eexists; vm_compute;
      reflexivity.
  - vm_compute. reflexivity.
Defined.

(** ** Failures before anything is written *)

(** X14. In a build that is not forced, a failure to reach the catalog, a
    failure of the catalog lookup and a failure to render the Dockerfile
    for the matched image and the residual packages are each returned as
    they are, and the stream is left as it was: nothing is written before
    the Dockerfile is rendered, and there is no fallback to the stemcell. *)
Theorem lookup_or_template_failure_writes_nothing rt dk ts os tp p roles w :
  roles <> [] ->
  let run := @NewDockerPopulator rt dk ts os tp p roles false w in
  let looked_up := log_lookup w (catalog_query w p (collect_packages roles)) in
  (forall err, @NewImageManager dk = Some err -> run = (inl err, w))
  /\ (forall err,
        @NewImageManager dk = None ->
        @FindBestImageWithLabels dk (effective_base w p)
          (fingerprint_labels (collect_packages roles)) [fissileVersionLabel p]
        = inl err ->
        run = (inl err, looked_up))
  /\ (forall img covered err,
        @NewImageManager dk = None ->
        @FindBestImageWithLabels dk (effective_base w p)
          (fingerprint_labels (collect_packages roles)) [fissileVersionLabel p]
        = inr (img, covered) ->
        generateDockerfile p img
          (range_map (remaining_after (range_map covered).*1
                        (collect_packages roles))).*2
        = inl err ->
        run = (inl err, looked_up))
  /\ stream looked_up = stream w.
Proof.
  intros Hne run looked_up. unfold run. rewrite populator_unfold by done.
  cbn [negb]. split; [|split; [|split; [|done]]].
  - intros err Hm. unfold bind, determinePackagesLayerBaseImage. by rewrite Hm.
  - intros err Hm Hf. unfold bind at 1, determinePackagesLayerBaseImage.
    rewrite Hm. fold (effective_base w p).
    fold (fingerprint_labels (collect_packages roles)). by rewrite Hf.
  - intros img covered err Hm Hf Hg. unfold bind at 1.
    rewrite (determine_returns p _ w img covered Hm Hf).
    unfold write_context. by rewrite Hg.
Qed.

Lemma lookup_or_template_failure_writes_nothing_witness :
  @NewDockerPopulator simple_runtime failing_catalog no_faults sample_os
    sample_templates acme sample_roles false fresh_world
  = (inl (Errorf "cannot connect to the docker daemon"),
     log_lookup fresh_world
       (catalog_query fresh_world acme (collect_packages sample_roles))).
Proof.
  apply (proj1 (proj2 (lookup_or_template_failure_writes_nothing simple_runtime
                         failing_catalog no_faults sample_os sample_templates
                         acme sample_roles fresh_world ltac:(discriminate))));
    reflexivity.
Defined.

(** ** Validating paths *)

(** X15. [ValidatePath] accepts a path exactly when [Lstat] succeeds on it
    and it is a directory where a directory is asked for, or anything else
    where a file is asked for. A symbolic link is never followed: it is
    accepted as a file only, whatever it points to. So a path that exists
    is accepted for exactly one of the two, and a path [Lstat] fails on
    for neither. *)
Theorem ValidatePath_accepts os oe path shouldBeDir pathDescription :
  (@ValidatePath os oe path shouldBeDir pathDescription = None
   <-> match disk path with
       | NDir _ _ _ _ => shouldBeDir = true
       | NFile _ _ _ | NSymlink _ _ _ | NSpecial _ _ _ => shouldBeDir = false
       | NFault _ => False
       end)
  /\ (match disk path with
      | NFault _ => True
      | _ => @ValidatePath os oe path (negb shouldBeDir) pathDescription = None
             <-> @ValidatePath os oe path shouldBeDir pathDescription <> None
      end).
Proof.
  unfold ValidatePath.
  destruct (disk path)
    as [perm content ?|perm target ?|perm size entries ?|kind perm size|err];
    cbn [Lstat fiMode].
  - rewrite file_not_dir. destruct shouldBeDir; cbn; split; split; done.
  - rewrite symlink_not_dir. destruct shouldBeDir; cbn; split; split; done.
  - rewrite dir_is_dir. destruct shouldBeDir; cbn; split; split; done.
  - rewrite special_not_dir. destruct shouldBeDir; cbn; split; split; done.
  - split; [|done]. destruct (IsNotExist err); split; done.
Qed.

(** ** ClusterIP services *)

Example sample_public_service :
  @Kube.NewClusterIPService Kube.text_helm Kube.sample_env Kube.sample_role
    false true Kube.sample_settings
  = inr (Some ("v1/Service+metadata:{name:api-public}+spec:{}"
               ++ "+selector:{skiff-role-name:api}+type:ClusterIP"
               ++ "+externalIPs:[192.168.77.77]"
               ++ "+ports:[{name:http,port:#,protocol:TCP}+targetPort:http]")).
Proof. vm_compute. reflexivity. Qed.

Section ServiceProperties.
Context {helm : Kube.Helm} {env : Kube.KubeEnv}.

Lemma add_ports_length headless portDef portInfos (ports : list Kube.Node) :
  length (fold_left (Kube.add_port headless portDef) portInfos ports)
  = (length ports + length portInfos)%nat.
Proof.
  revert ports. induction portInfos as [|i infos IH]; intros ports; simpl; [lia|].
  rewrite IH. unfold Kube.add_port. rewrite length_app. simpl. lia.
Qed.

(** The public loop is the loop over the public port definitions. *)
Lemma exposed_ports_public headless portDefs (ports : list Kube.Node) :
  Kube.exposed_ports headless true portDefs ports
  = Kube.exposed_ports headless true
      (filter (fun portDef => Kube.Public portDef = true) portDefs) ports.
Proof.
  revert ports. induction portDefs as [|d defs IH]; intros ports; [done|].
  rewrite filter_cons. cbn [Kube.exposed_ports]. destruct (Kube.Public d) eqn:E.
  - rewrite decide_True by done. cbn [Kube.exposed_ports]. rewrite E. cbn.
    destruct (Kube.parsePortRange _ _ _) as [|[lo hi]]; [done|].
    destruct (Kube.getPortInfo _ _ _); [done|]. apply IH.
  - rewrite decide_False by done. cbn. apply IH.
Qed.

(** An error of the loop does not depend on [headless] nor on the ports
    gathered before. *)
Lemma exposed_ports_error headless headless' public portDefs
    (ports ports' : list Kube.Node) err :
  Kube.exposed_ports headless public portDefs ports = inl err ->
  Kube.exposed_ports headless' public portDefs ports' = inl err.
Proof.
  revert ports ports'. induction portDefs as [|d defs IH]; intros ports ports';
    [done|]. cbn [Kube.exposed_ports].
  destruct (public && negb (Kube.Public d)); [apply IH|].
  destruct (Kube.parsePortRange _ _ _) as [|[lo hi]]; [done|].
  destruct (Kube.getPortInfo _ _ _); [done|]. apply IH.
Qed.

(** The number of ports the loop adds does not depend on [headless]. *)
Lemma exposed_ports_count headless headless' public portDefs
    (ports ports' l : list Kube.Node) :
  Kube.exposed_ports headless public portDefs ports = inr l ->
  exists l',
    Kube.exposed_ports headless' public portDefs ports' = inr l'
    /\ (length l' + length ports = length l + length ports')%nat.
Proof.
  revert ports ports'. induction portDefs as [|d defs IH]; intros ports ports'.
  - intros [= <-]. exists ports'. split; [done|lia].
  - cbn [Kube.exposed_ports].
    destruct (public && negb (Kube.Public d)); [apply IH|].
    destruct (Kube.parsePortRange _ _ _) as [|[lo hi]]; [done|].
    destruct (Kube.getPortInfo _ _ _) as [|infos]; [done|].
    intros E.
    destruct (IH _ (fold_left (Kube.add_port headless' d) infos ports') E)
      as (l' & E' & Hlen).
    exists l'. split; [done|]. rewrite !add_ports_length in Hlen. lia.
Qed.

(** Where the loop over all ports succeeds, the loop over the public ones
    does, and adds no more ports. *)
Lemma exposed_ports_public_ok headless headless' portDefs
    (ports ports' l : list Kube.Node) :
  Kube.exposed_ports headless false portDefs ports = inr l ->
  exists l',
    Kube.exposed_ports headless' true portDefs ports' = inr l'
    /\ (length l' + length ports <= length l + length ports')%nat
    /\ (length ports' <= length l')%nat.
Proof.
  revert ports ports'. induction portDefs as [|d defs IH]; intros ports ports'.
  - intros [= <-]. exists ports'. split; [done|lia].
  - cbn [Kube.exposed_ports andb].
    destruct (Kube.parsePortRange _ _ _) as [|[lo hi]] eqn:Ep; [done|].
    destruct (Kube.getPortInfo _ _ _) as [|infos] eqn:Eg; [done|].
    intros E. destruct (negb (Kube.Public d)).
    + destruct (IH _ ports' E) as (l' & E' & Hlen & Hge).
      exists l'. split; [done|]. rewrite add_ports_length in Hlen. lia.
    + destruct (IH _ (fold_left (Kube.add_port headless' d) infos ports') E)
        as (l' & E' & Hlen & Hge).
      exists l'. split; [done|]. rewrite !add_ports_length in *. lia.
Qed.

Lemma service_error role headless public settings err :
  Kube.NewClusterIPService role headless public settings = inl err
  <-> Kube.exposed_ports headless public (Kube.ExposedPorts (Kube.Run role)) []
      = inl err.
Proof.
  unfold Kube.NewClusterIPService.
  destruct (Kube.exposed_ports _ _ _ _) as [e|ports];
    [split; intros [= ->]; done|].
  destruct (decide _); split; done.
Qed.

Lemma service_nil role headless public settings :
  Kube.NewClusterIPService role headless public settings = inr None
  <-> Kube.exposed_ports headless public (Kube.ExposedPorts (Kube.Run role)) []
      = inr [].
Proof.
  unfold Kube.NewClusterIPService.
  destruct (Kube.exposed_ports _ _ _ _) as [e|ports]; [split; done|].
  destruct (decide _) as [Hl|Hl].
  - destruct ports; [done|simpl in Hl; lia].
  - split; [done|]. intros [= ->]. done.
Qed.

End ServiceProperties.

(** X16. The public service is built from the public ports only: it is
    the service of the role with its other ports taken away, and a role
    without public port has no public service. *)
Theorem public_service_sees_public_ports_only helm env role headless settings :
  @Kube.NewClusterIPService helm env role headless true settings
  = @Kube.NewClusterIPService helm env
      (Kube.with_ports role
         (filter (fun portDef => Kube.Public portDef = true)
                 (Kube.ExposedPorts (Kube.Run role))))
      headless true settings
  /\ (Forall (fun portDef => Kube.Public portDef = false)
             (Kube.ExposedPorts (Kube.Run role)) ->
      @Kube.NewClusterIPService helm env role headless true settings = inr None).
Proof.
  split.
  - unfold Kube.NewClusterIPService. cbn [Kube.with_ports Kube.Run
      Kube.ExposedPorts Kube.RoleName].
    by rewrite exposed_ports_public.
  - intros Hall. apply service_nil. rewrite exposed_ports_public.
    replace (filter _ _) with (@nil Kube.RoleRunExposedPort); [done|].
    induction Hall as [|d defs Hd Hall IH]; [done|].
    rewrite filter_cons, decide_False by congruence. exact IH.
Qed.

Lemma public_service_sees_public_ports_only_witness :
  @Kube.NewClusterIPService Kube.text_helm Kube.sample_env
    (Kube.with_ports Kube.sample_role
       [ {| Kube.PortName := "admin"; Kube.Protocol := "TCP";
            Kube.External := "8080"; Kube.Public := false |} ])
    false true Kube.sample_settings
  = inr None.
Proof.
  apply (public_service_sees_public_ports_only Kube.text_helm Kube.sample_env).
  repeat constructor.
Defined.

(** X17. [NewClusterIPServiceList] fails exactly when the private service
    cannot be built, and with the same error: the headless and the public
    service read the same port definitions, or fewer. *)
Theorem service_list_fails_with_private_service
    helm env role headless settings err :
  @Kube.NewClusterIPServiceList helm env role headless settings = inl err
  <-> @Kube.NewClusterIPService helm env role false false settings = inl err.
Proof.
  unfold Kube.NewClusterIPServiceList.
  destruct (Kube.NewClusterIPService role false false settings)
    as [e|private] eqn:Eprivate.
  - pose proof (proj1 (service_error _ _ _ _ _) Eprivate) as Hloop.
    destruct headless.
    + pose proof (proj2 (service_error role true false settings e)
                    (exposed_ports_error _ true _ _ _ [] _ Hloop)) as ->.
      done.
    + done.
  - assert (exists ports,
              Kube.exposed_ports false false
                (Kube.ExposedPorts (Kube.Run role)) [] = inr ports)
      as [ports Hloop].
    { unfold Kube.NewClusterIPService in Eprivate.
      destruct (Kube.exposed_ports _ _ _ _) as [|ports]; [done|by exists ports]. }
    assert (forall h pub, exists svc,
              Kube.NewClusterIPService role h pub settings = inr svc) as Hok.
    { intros h pub.
      assert (exists l,
                Kube.exposed_ports h pub
                  (Kube.ExposedPorts (Kube.Run role)) [] = inr l) as [l Hl].
      { destruct pub.
        - destruct (exposed_ports_public_ok false h _ [] [] _ Hloop)
            as (l & Hl & _). by exists l.
        - destruct (exposed_ports_count false h false _ [] [] _ Hloop)
            as (l & Hl & _). by exists l. }
      unfold Kube.NewClusterIPService. rewrite Hl.
      destruct (decide _); by eexists. }
    destruct (Hok true false) as [hs ->]. destruct (Hok false true) as [ps ->].
    destruct headless; cbn; destruct (decide _); split; done.
Qed.

Lemma service_list_fails_with_private_service_witness :
  @Kube.NewClusterIPServiceList Kube.text_helm Kube.sample_env
    (Kube.with_ports Kube.sample_role
       [ {| Kube.PortName := "bad"; Kube.Protocol := "TCP";
            Kube.External := "0"; Kube.Public := false |} ])
    true Kube.sample_settings
  = inl (Errorf "invalid external port").
Proof.
  apply (service_list_fails_with_private_service Kube.text_helm Kube.sample_env).
  vm_compute. reflexivity.
Defined.

(** X18. The list of services is there exactly when the private service
    is: when the private service has no port neither the headless nor the
    public one has, and no list is returned; and a role without exposed
    ports gets no list. *)
Theorem service_list_needs_private_service helm env role headless settings :
  (@Kube.NewClusterIPService helm env role false false settings = inr None ->
   @Kube.NewClusterIPServiceList helm env role headless settings = inr None)
  /\ (forall list,
        @Kube.NewClusterIPServiceList helm env role headless settings
        = inr (Some list) ->
        exists svc,
          @Kube.NewClusterIPService helm env role false false settings
          = inr (Some svc))
  /\ (Kube.ExposedPorts (Kube.Run role) = [] ->
      @Kube.NewClusterIPServiceList helm env role headless settings = inr None).
Proof.
  assert (@Kube.NewClusterIPService helm env role false false settings = inr None ->
          @Kube.NewClusterIPServiceList helm env role headless settings = inr None)
    as Hnil.
  { intros Hprivate. pose proof (proj1 (service_nil _ _ _ _) Hprivate) as Hloop.
    assert (forall h pub,
              Kube.NewClusterIPService role h pub settings = inr None) as Hall.
    { intros h pub. apply service_nil. destruct pub.
      - destruct (exposed_ports_public_ok false h _ [] [] _ Hloop)
          as (l & Hl & Hlen & _).
        destruct l; [done|simpl in Hlen; lia].
      - destruct (exposed_ports_count false h false _ [] [] _ Hloop)
          as (l & Hl & Hlen).
        destruct l; [done|simpl in Hlen; lia]. }
    unfold Kube.NewClusterIPServiceList. rewrite !Hall.
    by destruct headless. }
  split; [exact Hnil|]. split.
  - intros list Hlist.
    destruct (Kube.NewClusterIPService role false false settings)
      as [e|[svc|]] eqn:Eprivate.
    + unfold Kube.NewClusterIPServiceList in Hlist. rewrite Eprivate in Hlist.
      destruct headless; [|done].
      destruct (Kube.NewClusterIPService role true false settings); done.
    + by exists svc.
    + rewrite Hnil in Hlist; done.
  - intros Hempty. apply Hnil. apply service_nil. by rewrite Hempty.
Qed.

Lemma service_list_needs_private_service_witness :
  @Kube.NewClusterIPServiceList Kube.text_helm Kube.sample_env
    (Kube.with_ports Kube.sample_role []) true Kube.sample_settings
  = inr None.
Proof.
  apply (service_list_needs_private_service Kube.text_helm Kube.sample_env
           (Kube.with_ports Kube.sample_role []) true Kube.sample_settings).
  reflexivity.
Defined.
